(** * A* over a 2D grid of tiles: a shallow embedding of [AStarTiles.findPath]

    The development follows [astar-tiles.ts] (class [AStarTiles]).  A tile is
    a mutable object of the grid; the search writes its [f], [g], [h] and
    [parent] fields in place and keeps two arrays of tile references, the open
    and the closed list.  Here a tile reference is the tile's position in the
    grid, the tiles' fields live in a store indexed by references, and the two
    arrays are lists of references.  [findPath] takes the path finder and the
    grid and returns them, as it leaves them, with its result.

    The two [while] loops take a bound on their iterations; a loop that does
    not end within the bound is reported as such ([Timeout], [Diverges]).

    JavaScript numbers are IEEE-754 doubles.  The search only adds, multiplies
    and compares them, so the model is written over an interface [Num]; its
    instance [Float64] is binary64, the numbers the program runs on.  The
    theorems about costs are proved for a set of numbers with the order laws
    [OrderedOn]; the doubles that are not negative ([NaN] is none of them)
    are such a set, which [Binary64Facts] proves from the specification of
    the primitive floats.  A heuristic is a function of the two tiles it is
    given, taken by their positions, with what it does when the target is
    [null].  [Array.prototype.sort] is stable (ECMAScript 2019). *)

From Stdlib Require Import ZArith List Bool Lia Permutation Sorted.
From Stdlib Require Import PrimFloat SpecFloat FloatOps FloatAxioms.
Import ListNotations.
Local Open Scope Z_scope.

(** ** Numbers *)

Class Num (num : Type) : Type := {
  zero  : num;
  one   : num;
  SQRT2 : num;                    (* Math.SQRT2 *)
  add   : num -> num -> num;      (* a + b *)
  mul   : num -> num -> num;      (* a * b *)
  gtb   : num -> num -> bool;     (* a > b *)
  eqb   : num -> num -> bool      (* a == b *)
}.

(** [a <= b] read as "not [a > b]"; on a total order the two agree. *)
Definition lte {num} `{Num num} (a b : num) : Prop := gtb a b = false.

(** The order laws that the cost bookkeeping relies on, asked of every number
    of the type, as exact arithmetic has them.  Binary64 has them on a part
    of its numbers only ([NaN] is not below itself, and a sum with a negative
    infinity can be [NaN]): see [OrderedOn]. *)
Class OrderedNum (num : Type) `{Num num} : Prop := {
  gtb_irrefl  : forall a, gtb a a = false;
  gtb_trans   : forall a b c, gtb a b = true -> gtb b c = true -> gtb a c = true;
  le_gtb_trans : forall a b c, lte a b -> gtb c b = true -> gtb c a = true;
  add_le_mono : forall a b c, lte a b -> lte (add a c) (add b c);
  add_nonneg  : forall a c, lte zero c -> lte a (add a c);
  mul_nonneg  : forall a b, lte zero a -> lte zero b -> lte zero (mul a b);
  one_nonneg  : lte zero one;
  sqrt2_nonneg : lte zero SQRT2
}.

(** The same laws for the numbers of a set [good] that holds zero and is
    closed under the sums and the products by a step cost that the search
    forms.  On binary64 the numbers that are not negative ([NaN] is none of
    them) are such a set: there [>] is a strict total order and the rounded
    sum is monotone. *)
Class OrderedOn {num : Type} `{Num num} (good : num -> Prop) : Prop := {
  good_zero : good zero;
  good_add : forall a b, good a -> good b -> good (add a b);
  good_mul_one : forall a, good a -> good (mul one a);
  good_mul_sqrt2 : forall a, good a -> good (mul SQRT2 a);
  on_gtb_irrefl : forall a, good a -> gtb a a = false;
  on_gtb_trans : forall a b c, good a -> good b -> good c ->
      gtb a b = true -> gtb b c = true -> gtb a c = true;
  on_le_gtb_trans : forall a b c, good a -> good b -> good c ->
      lte a b -> gtb c b = true -> gtb c a = true;
  on_add_le_mono : forall a b c, good a -> good b -> good c ->
      lte a b -> lte (add a c) (add b c);
  on_add_nonneg : forall a c, good a -> good c -> lte zero c -> lte a (add a c);
  on_mul_one_nonneg : forall a, good a -> lte zero a -> lte zero (mul one a);
  on_mul_sqrt2_nonneg : forall a, good a -> lte zero a -> lte zero (mul SQRT2 a)
}.

(** ** Tiles and the grid *)

(** A reference to a [TileNode]: the tile of row [i] and column [j] of the
    grid.  [===] on tiles is equality of references. *)
Definition NodeRef : Type := (Z * Z)%type.

Definition row (n : NodeRef) : Z := fst n.
Definition col (n : NodeRef) : Z := snd n.

Definition ref_eqb (a b : NodeRef) : bool :=
  (row a =? row b) && (col a =? col b).

Arguments ref_eqb : simpl never.

Section Model.

Context {num : Type} {N : Num num}.

(** Modelled from the spec: the class [TileNode] (tile-node.ts) is not among
    the sources.  Its fields are those [findPath] reads and writes; [row] and
    [col] are fixed at creation and are the components of the reference. *)
Record TileNode : Type := mkTileNode {
  reachable  : bool;
  multiplier : num;
  g : num;
  h : num;
  f : num;
  parent : option NodeRef
}.

(** The fields of every tile, by reference. *)
Definition Tiles : Type := NodeRef -> TileNode.

(** Modelled from the spec: the class [Grid2D] (grid-2d.ts) is not among the
    sources.  It owns a [numRows] x [numCols] array of tiles; [startNode] and
    [targetNode] are references into it, unset ([None]) until assigned. *)
Record Grid2D : Type := mkGrid2D {
  numRows : Z;
  numCols : Z;
  startNode  : option NodeRef;
  targetNode : option NodeRef;
  tiles : Tiles
}.

(** [grid.getNode(i, j)]: the tile of row [i] and column [j].  [findPath]
    only asks for tiles within the grid. *)
Definition getNode (i j : Z) : NodeRef := (i, j).

Definition in_grid (R C : Z) (n : NodeRef) : Prop :=
  0 <= row n < R /\ 0 <= col n < C.

(** [(node, target) => number].  JavaScript lets the target be [null], and
    [findPath] passes [this._targetNode] as it is.  A heuristic is what it
    returns for two tiles, [atTiles], and what it does when its target is
    [null], [atNull]: the number it returns for each node when it does not
    read its target, or [None] when it reads it and so throws a TypeError, as
    [__diagonal] does with [target.col].  A heuristic that would read its
    target for some nodes and not for others is not covered. *)
Record IHeuristic : Type := mkIHeuristic {
  atTiles :> NodeRef -> NodeRef -> num;
  atNull : option (NodeRef -> num)
}.

(** ** The path finder *)

Record AStarTiles : Type := mkAStarTiles {
  _openList   : list NodeRef;
  _closedList : list NodeRef;
  _startNode  : option NodeRef;
  _targetNode : option NodeRef;
  _heuristic  : IHeuristic
}.

(** The loop of [__isInOpenList] and of [__isInClosedList]: a linear scan of
    the array for the reference. *)
Fixpoint __isInList (l : list NodeRef) (node : NodeRef) : bool :=
  match l with
  | [] => false
  | x :: l' => if ref_eqb x node then true else __isInList l' node
  end.

(** [temp.parent = node; temp.f = f; temp.g = g; temp.h = h] *)
Definition assign (s : Tiles) (temp node : NodeRef) (f' g' h' : num) : Tiles :=
  fun m =>
    if ref_eqb m temp
    then mkTileNode (reachable (s temp)) (multiplier (s temp)) g' h' f' (Some node)
    else s m.

(** The working state of the main loop: both lists and the tiles. *)
Record Search : Type := mkSearch {
  openList   : list NodeRef;
  closedList : list NodeRef;
  nodes : Tiles
}.

Definition __isInOpenList (st : Search) (node : NodeRef) : bool :=
  __isInList (openList st) node.

Definition __isInClosedList (st : Search) (node : NodeRef) : bool :=
  __isInList (closedList st) node.

(** The test that makes the neighbour loop [continue]. *)
Definition skipped (s : Tiles) (node temp : NodeRef) : bool :=
  ref_eqb temp node
  || negb (reachable (s temp))
  || negb (reachable (s (getNode (row node) (col temp))))
  || negb (reachable (s (getNode (row temp) (col node)))).

(** [cost]: 1.0, or Math.SQRT2 when row and column both differ. *)
Definition stepCost (node temp : NodeRef) : num :=
  if negb ((row node =? row temp) || (col node =? col temp)) then SQRT2 else one.

Section Loop.

Variable heuristic : IHeuristic.
Variables numR numC : Z.
Variables start target : NodeRef.

(** The body of the two nested [for] loops, for one neighbour [temp]. *)
Definition visit (node : NodeRef) (st : Search) (temp : NodeRef) : Search :=
  let s := nodes st in
  if skipped s node temp then st
  else
    let g' := add (g (s node)) (mul (stepCost node temp) (multiplier (s temp))) in
    let h' := heuristic temp target in
    let f' := add g' h' in
    if __isInOpenList st temp || __isInClosedList st temp then
      if gtb (f (s temp)) f'
      then mkSearch (openList st) (closedList st) (assign s temp node f' g' h')
      else st
    else
      mkSearch (openList st ++ [temp]) (closedList st) (assign s temp node f' g' h').

(** The integers [lo, lo+1, ..., hi] (none when [hi < lo]). *)
Definition zrange (lo hi : Z) : list Z :=
  map (fun k => lo + Z.of_nat k) (seq 0 (Z.to_nat (hi - lo + 1))).

(** The tiles visited by the nested loops, in the order of the loops. *)
Definition neighbours (node : NodeRef) : list NodeRef :=
  let iStart := Z.max 0 (row node - 1) in
  let iEnd   := Z.min (numR - 1) (row node + 1) in
  let jStart := Z.max 0 (col node - 1) in
  let jEnd   := Z.min (numC - 1) (col node + 1) in
  flat_map (fun i => map (fun j => getNode i j) (zrange jStart jEnd))
           (zrange iStart iEnd).

(** The comparator handed to [sort]. *)
Definition compareF (s : Tiles) (a b : NodeRef) : Z :=
  if eqb (f (s a)) (f (s b)) then 0
  else if gtb (f (s a)) (f (s b)) then 1 else -1.

(** [Array.prototype.sort] is stable: a tile goes before the first one that
    compares greater. *)
Fixpoint insert (s : Tiles) (x : NodeRef) (l : list NodeRef) : list NodeRef :=
  match l with
  | [] => [x]
  | y :: l' => if 0 <? compareF s y x then x :: y :: l' else y :: insert s x l'
  end.

Definition sort (s : Tiles) (l : list NodeRef) : list NodeRef :=
  fold_left (fun acc x => insert s x acc) l [].

(** How the main loop ends: on the target, on an empty open list, or not
    within the iterations allowed. *)
Inductive outcome : Type :=
| Found (st : Search)
| NoPath (st : Search)
| Timeout.

(** One pass of the [while (node !== this._targetNode)] body up to the
    extraction of the next node. *)
Definition expand (node : NodeRef) (st : Search) : Search :=
  let st1 := fold_left (visit node) (neighbours node) st in
  mkSearch (openList st1) (closedList st1 ++ [node]) (nodes st1).

Fixpoint search (fuel : nat) (st : Search) (node : NodeRef) : outcome :=
  if ref_eqb node target then Found st
  else
    match fuel with
    | O => Timeout
    | S k =>
        let st2 := expand node st in
        match sort (nodes st2) (openList st2) with
        | [] => NoPath st2
        | next :: rest => search k (mkSearch rest (closedList st2) (nodes st2)) next
        end
    end.

(** What a call yields: a path, the TypeError of reading a property of
    [null] or [undefined], or no answer within the iterations allowed. *)
Inductive result : Type :=
| Path (p : list NodeRef)
| TypeError
| Diverges.

(** [while (node !== this._startNode) { node = node.parent; path.unshift(node) }] *)
Fixpoint unwind (fuel : nat) (s : Tiles) (node : NodeRef) (path : list NodeRef) : result :=
  if ref_eqb node start then Path path
  else
    match fuel with
    | O => Diverges
    | S k =>
        match parent (s node) with
        | None => TypeError
        | Some p => unwind k s p (p :: path)
        end
    end.

End Loop.

(** [this._startNode.g = 0; this._startNode.h = heuristic(start, target);
    this._startNode.f = this._startNode.g + this._startNode.h] *)
Definition initStart (s : Tiles) (start : NodeRef) (h0 : num) : Tiles :=
  fun m =>
    if ref_eqb m start
    then mkTileNode (reachable (s start)) (multiplier (s start)) zero h0
                    (add zero h0) (parent (s start))
    else s m.

Definition setG (s : Tiles) (n : NodeRef) (v : num) : Tiles :=
  fun m =>
    if ref_eqb m n
    then mkTileNode (reachable (s n)) (multiplier (s n)) v (h (s n)) (f (s n))
                    (parent (s n))
    else s m.

Definition withTiles (grid : Grid2D) (s : Tiles) : Grid2D :=
  mkGrid2D (numRows grid) (numCols grid) (startNode grid) (targetNode grid) s.

Definition withLists (a : AStarTiles) (grid : Grid2D) (o c : list NodeRef) : AStarTiles :=
  mkAStarTiles o c (startNode grid) (targetNode grid) (_heuristic a).

(** The state in which the main loop is entered: both lists empty, the
    start tile initialised, every other tile as the grid has it. *)
Definition entry (a : AStarTiles) (grid : Grid2D) (start target : NodeRef) : Search :=
  mkSearch [] [] (initStart (tiles grid) start (_heuristic a start target)).

(** [null] is no tile.  When the target is unset, [node !== this._targetNode]
    holds of every node and the heuristic is called with [null]; a reference
    that is neither the start nor a tile of the grid (its row is negative)
    stands for the missing target. *)
Definition noTile (start : NodeRef) : NodeRef := (Z.min (row start) 0 - 1, 0).

(** A heuristic that does not read its target, as a search without a target
    calls it. *)
Definition ignoring (k : NodeRef -> num) : IHeuristic :=
  mkIHeuristic (fun node _ => k node) (Some k).

(** Lines 147-245: the start tile is initialised and the two loops run, for
    the heuristic [h] and the target [target] in use. *)
Definition loops (fuel : nat) (a : AStarTiles) (grid : Grid2D) (h : IHeuristic)
           (start target : NodeRef) : result * AStarTiles * Grid2D :=
  let a0 := withLists a grid [] [] in
  let st0 := mkSearch [] [] (initStart (tiles grid) start (h start target)) in
  match search h (numRows grid) (numCols grid) target fuel st0 start with
  | Timeout => (Diverges, a0, withTiles grid (nodes st0))
  | NoPath st =>
      (Path [], withLists a grid (openList st) (closedList st),
       withTiles grid (nodes st))
  | Found st =>
      (unwind start fuel (nodes st) target [target],
       withLists a grid (openList st) (closedList st),
       withTiles grid (nodes st))
  end.

(** [findPath(grid)].  The lists are emptied and the start and target
    references copied before anything is read from them.  An unset start makes
    [this._startNode.g = 0] throw.  With the target unset, a heuristic that
    reads its target throws after that assignment; with one that does not,
    the search runs without a target: no node is the target, and the main
    loop ends when the open list is empty.  The object and the grid are
    returned as the call leaves them (as it found them on entering the main
    loop, when the iterations allowed run out). *)
Definition findPath (fuel : nat) (a : AStarTiles) (grid : Grid2D)
  : result * AStarTiles * Grid2D :=
  let a0 := withLists a grid [] [] in
  match startNode grid with
  | None => (TypeError, a0, grid)
  | Some start =>
      match targetNode grid with
      | None =>
          match atNull (_heuristic a) with
          | None => (TypeError, a0, withTiles grid (setG (tiles grid) start zero))
          | Some k => loops fuel a grid (ignoring k) start (noTile start)
          end
      | Some target => loops fuel a grid (_heuristic a) start target
      end
  end.

(** ** Grids as a set-up function leaves them *)

(** Modelled from the spec: [Grid2D] and [TileNode] are not among the sources.
    A tile is created reachable, with multiplier 1, neutral search fields and
    no parent.  A set-up function such as [grid1] then marks tiles unreachable
    ([isReachable(i, j, false)]), gives some a multiplier ([isHazard]) and
    names the start and the target. *)
Definition newTile : TileNode := mkTileNode true one zero zero zero None.

Definition openGrid (rows cols : Z) (start target : NodeRef) : Grid2D :=
  mkGrid2D rows cols (Some start) (Some target) (fun _ => newTile).

Definition setTile (grid : Grid2D) (n : NodeRef) (upd : TileNode -> TileNode) : Grid2D :=
  withTiles grid (fun m => if ref_eqb m n then upd (tiles grid m) else tiles grid m).

Definition blocked (grid : Grid2D) (n : NodeRef) : Grid2D :=
  setTile grid n (fun t => mkTileNode false (multiplier t) (g t) (h t) (f t) (parent t)).

Definition hazard (grid : Grid2D) (n : NodeRef) (mult : num) : Grid2D :=
  setTile grid n (fun t => mkTileNode (reachable t) mult (g t) (h t) (f t) (parent t)).

(** ** Notions used to state the properties *)

(** The finder with another heuristic and the grid with another target: what
    a search without a target is compared with. *)
Definition withHeuristic (a : AStarTiles) (h : IHeuristic) : AStarTiles :=
  mkAStarTiles (_openList a) (_closedList a) (_startNode a) (_targetNode a) h.

Definition withTarget (grid : Grid2D) (t : NodeRef) : Grid2D :=
  mkGrid2D (numRows grid) (numCols grid) (startNode grid) (Some t) (tiles grid).

(** A move the neighbour loop does not skip: [x] is visited from [p] and
    passes the test. *)
Definition move (s : Tiles) (R C : Z) (p x : NodeRef) : Prop :=
  In x (neighbours R C p) /\ skipped s p x = false.

(** A step of the movement rule: [x] is one of the up to eight tiles around
    [p] in the grid, it is reachable, and a diagonal step has both flanking
    tiles reachable. *)
Definition adjacent (R C : Z) (p x : NodeRef) : Prop :=
  in_grid R C x /\
  Z.abs (row x - row p) <= 1 /\ Z.abs (col x - col p) <= 1 /\
  (row x <> row p \/ col x <> col p).

Definition step (s : Tiles) (R C : Z) (p x : NodeRef) : Prop :=
  adjacent R C p x /\
  reachable (s x) = true /\
  (row x <> row p -> col x <> col p ->
   reachable (s (getNode (row p) (col x))) = true /\
   reachable (s (getNode (row x) (col p))) = true).

(** [x] can be reached from [a] by a sequence of [rel]-related tiles. *)
Inductive connected (rel : NodeRef -> NodeRef -> Prop) (a : NodeRef) : NodeRef -> Prop :=
| connected_refl : connected rel a a
| connected_step : forall x y,
    connected rel a x -> rel x y -> connected rel a y.

(** The tiles the search has met: closed, current, or open. *)
Definition seen (st : Search) (node : NodeRef) : list NodeRef :=
  closedList st ++ node :: openList st.

(** [chain s start x l]: following [parent] from [x] reaches [start] and
    passes through [l], from [x] to [start] inclusive. *)
Inductive chain (s : Tiles) (start : NodeRef) : NodeRef -> list NodeRef -> Prop :=
| chain_start : chain s start start [start]
| chain_step : forall x p l,
    x <> start -> parent (s x) = Some p -> chain s start p l ->
    chain s start x (x :: l).

(** [p] has [a] immediately followed by [b]. *)
Definition consecutive (p : list NodeRef) (a b : NodeRef) : Prop :=
  exists l1 l2, p = l1 ++ a :: b :: l2.

(** The cost of one step into [x] coming from [p]. *)
Definition moveCost (s : Tiles) (p x : NodeRef) : num :=
  mul (stepCost p x) (multiplier (s x)).

(** The sum of the step costs along a path, added up from its first tile. *)
Fixpoint costFrom (s : Tiles) (acc : num) (prev : NodeRef) (p : list NodeRef) : num :=
  match p with
  | [] => acc
  | x :: p' => costFrom s (add acc (moveCost s prev x)) x p'
  end.

Definition pathCost (s : Tiles) (p : list NodeRef) : num :=
  match p with
  | [] => zero
  | x :: p' => costFrom s zero x p'
  end.

(** The number of tiles of the grid. *)
Definition numCells (R C : Z) : nat := (Z.to_nat R * Z.to_nat C)%nat.

Definition allCells (R C : Z) : list NodeRef :=
  flat_map (fun i => map (fun j => getNode i j) (zrange 0 (C - 1))) (zrange 0 (R - 1)).

(** *** Invariants of the main loop *)

Section Invariants.

Variable heuristic : IHeuristic.
Variables numR numC : Z.
Variables start target : NodeRef.
Variable s0 : Tiles.   (* the tiles as the main loop finds them *)

(** The tentative values computed for [temp] from [node]. *)
Definition newG (s : Tiles) (node temp : NodeRef) : num :=
  add (g (s node)) (mul (stepCost node temp) (multiplier (s temp))).
Definition newH (temp : NodeRef) : num := heuristic temp target.
Definition newF (s : Tiles) (node temp : NodeRef) : num :=
  add (newG s node temp) (newH temp).

Definition assigned (st : Search) (node temp : NodeRef) : Tiles :=
  assign (nodes st) temp node (newF (nodes st) node temp)
         (newG (nodes st) node temp) (newH temp).

(** The state after the neighbour loop of [node]. *)
Definition visited (node : NodeRef) (st : Search) : Search :=
  fold_left (visit heuristic target node) (neighbours numR numC node) st.


(** What holds of the lists and the [parent] links whenever a neighbour is
    about to be visited, [node] being the tile under expansion. *)
Record Inv (st : Search) (node : NodeRef) : Prop := {
  inv_static : forall x,
      reachable (nodes st x) = reachable (s0 x) /\
      multiplier (nodes st x) = multiplier (s0 x);
  inv_nodup : NoDup (seen st node);
  inv_grid : forall x, In x (seen st node) -> x <> start -> in_grid numR numC x;
  inv_start : In start (closedList st) \/ start = node;
  inv_parent : forall x, In x (seen st node) -> x <> start ->
      exists p, parent (nodes st x) = Some p /\
                (In p (closedList st) \/ p = node) /\
                move s0 numR numC p x;
  inv_unseen : forall x, ~ In x (seen st node) -> nodes st x = s0 x;
  inv_blocked : forall x, reachable (s0 x) = false -> nodes st x = s0 x;
  inv_conn : forall x, In x (seen st node) -> connected (move s0 numR numC) start x
}.

(** What holds of the costs. *)
Record InvG (st : Search) (node : NodeRef) : Prop := {
  invg_hf : forall x, In x (seen st node) ->
      h (nodes st x) = heuristic x target /\
      f (nodes st x) = add (g (nodes st x)) (h (nodes st x));
  invg_step : forall x p, In x (seen st node) -> x <> start ->
      parent (nodes st x) = Some p ->
      lte (add (g (nodes st p)) (moveCost s0 p x)) (g (nodes st x));
  invg_chain : forall x, In x (seen st node) ->
      exists l, chain (nodes st) start x l;
  invg_start : g (nodes st start) = zero
}.

(** How the main loop can end, for a property [P] of its states: on the
    target, or on an empty open list once the last node is closed. *)
Definition endedWith (P : Search -> NodeRef -> Prop) (out : outcome) : Prop :=
  match out with
  | Found st => P st target
  | NoPath st =>
      exists st1 node, P st1 node /\
        openList st1 = [] /\
        st = mkSearch [] (closedList st1 ++ [node]) (nodes st1)
  | Timeout => True
  end.

Definition ended : outcome -> Prop := endedWith Inv.

(** Both invariants together. *)
Definition Inv2 (st : Search) (node : NodeRef) : Prop :=
  Inv st node /\
  InvG st node.

End Invariants.

End Model.

Arguments TileNode : clear implicits.
Arguments Tiles : clear implicits.
Arguments Grid2D : clear implicits.
Arguments IHeuristic : clear implicits.
Arguments AStarTiles : clear implicits.
Arguments Search : clear implicits.
Arguments outcome : clear implicits.


(** ** binary64, the numbers of the program *)

Module Float64.

#[export] Instance float_Num : Num float := {|
  zero  := 0%float;
  one   := 1%float;
  SQRT2 := PrimFloat.sqrt 2%float;
  add   := PrimFloat.add;
  mul   := PrimFloat.mul;
  gtb   := fun a b => PrimFloat.ltb b a;
  eqb   := PrimFloat.eqb
|}.

(** A grid index as a number; exact below 2^53. *)
Fixpoint of_pos (p : positive) : float :=
  match p with
  | xH => 1%float
  | xO q => PrimFloat.mul 2%float (of_pos q)
  | xI q => PrimFloat.add (PrimFloat.mul 2%float (of_pos q)) 1%float
  end.

Definition of_Z (z : Z) : float :=
  match z with
  | Z0 => 0%float
  | Zpos p => of_pos p
  | Zneg p => PrimFloat.opp (of_pos p)
  end.

Definition fmin (a b : float) : float := if PrimFloat.ltb b a then b else a.

(** [__diagonal], the built-in heuristic.  It reads [target.col] first, and
    so throws when the target is [null]. *)
Definition __diagonal : IHeuristic float :=
  mkIHeuristic
    (fun node target =>
       let dx := PrimFloat.abs (PrimFloat.sub (of_Z (col node)) (of_Z (col target))) in
       let dy := PrimFloat.abs (PrimFloat.sub (of_Z (row node)) (of_Z (row target))) in
       let diagonal := fmin dx dy in
       let straight := PrimFloat.add dx dy in
       PrimFloat.add straight
         (PrimFloat.mul (PrimFloat.sub (PrimFloat.sqrt 2%float) 2%float) diagonal))
    None.

(** [new AStarTiles()] *)
Definition new_AStarTiles : AStarTiles float :=
  mkAStarTiles [] [] None None __diagonal.

(** Whether [__diagonal] is not negative (and not [NaN]) between any two
    tiles of a grid of [n] x [n] tiles. *)
Definition diagonal_nonneg_upto (n : Z) : bool :=
  forallb (fun x => forallb (fun t => PrimFloat.leb 0%float (__diagonal x t))
                            (allCells n n))
          (allCells n n).

(** *** The order of binary64 on the numbers that are not negative *)

(** [0 <= x]: a zero, a positive number or [Infinity], and not [NaN]. *)
Definition nonneg (x : float) : Prop := PrimFloat.leb 0%float x = true.

(** The same on the specification of a float. *)
Definition SFnonneg (x : spec_float) : bool :=
  match x with
  | S754_zero _ => true
  | S754_finite false _ _ => true
  | S754_infinity false => true
  | _ => false
  end.

(** The value of a float that is not negative, counted in units of the least
    positive float, [2 ^ -1074]; [Infinity] counts as [2 ^ 1024]. *)
Definition top : Z := 2 ^ 2098.

Definition SFval (x : spec_float) : Z :=
  match x with
  | S754_finite _ m e => Zpos m * 2 ^ (e + 1074)
  | S754_infinity _ => top
  | _ => 0
  end.

Definition fval (x : float) : Z := SFval (Prim2SF x).

(** Rounding to nearest, ties to even, of a value in those units: to 53
    significant bits, and to [Infinity] from [2 ^ 1024] on. *)
Definition rshift (N : Z) : Z := Z.max (Zdigits2 N - 53) 0.

Definition rnd (N : Z) : Z :=
  let k := rshift N in
  let q := N / 2 ^ k in
  let r := N mod 2 ^ k in
  (if (2 ^ k <? 2 * r) || ((2 * r =? 2 ^ k) && Z.odd q) then q + 1 else q) * 2 ^ k.

Definition RV (N : Z) : Z := Z.min (rnd N) top.

(** What [n] steps of [shr_1] leave of [m]: the quotient by [2 ^ n], whether
    the remainder reaches the half, and whether anything lies beyond. *)
Definition shifted (n m : Z) (rec : shr_record) : Prop :=
  shr_m rec = m / 2 ^ n /\
  exists low,
    2 * (m mod 2 ^ n) = (if shr_r rec then 2 ^ n else 0) + 2 * low /\
    0 <= 2 * low < 2 ^ n /\
    (shr_s rec = true <-> 0 < low).

(** The last step of [binary_round_aux] for a number that is not negative. *)
Definition packed (Q e : Z) : spec_float :=
  match Q with
  | Z0 => S754_zero false
  | Zpos p => if e <=? emax - prec then S754_finite false p e else S754_infinity false
  | Zneg _ => S754_nan
  end.

End Float64.

(** ** Some grids *)

Module Grids.

Section Layouts.

Context {num : Type} {N : Num num}.

(** 2 x 2; one tile is start and target at once and is unreachable. *)
Definition grid_same : Grid2D num :=
  blocked (openGrid 2 2 (0, 0) (0, 0)) (0, 0).

(** One row of three tiles with the middle one unreachable, from one end to
    the other. *)
Definition grid_walled : Grid2D num :=
  blocked (openGrid 1 3 (0, 0) (0, 2)) (0, 1).

(** 2 x 2, from an unreachable corner to the opposite corner. *)
Definition grid_blocked_start : Grid2D num :=
  blocked (openGrid 2 2 (0, 0) (1, 1)) (0, 0).

(** 2 x 2, all tiles open, from a corner to the opposite corner. *)
Definition grid_open : Grid2D num := openGrid 2 2 (0, 0) (1, 1).

(** One row of three open tiles, from one end to the other. *)
Definition grid_row : Grid2D num := openGrid 1 3 (0, 0) (0, 2).

(** One row of three open tiles, no start and no target named yet. *)
Definition grid_unset : Grid2D num :=
  mkGrid2D 1 3 None None (fun _ => newTile).

(** One row of three open tiles with a start and no target. *)
Definition grid_no_target : Grid2D num :=
  mkGrid2D 1 3 (Some (0, 0)) None (fun _ => newTile).

(** 3 x 3, from a corner to the opposite corner; the target has multiplier
    [dear] and the tile beside it multiplier [cheap]. *)
Definition grid_hazard (cheap dear : num) : Grid2D num :=
  hazard (hazard (openGrid 3 3 (2, 2) (0, 0)) (0, 0) dear) (0, 1) cheap.

End Layouts.

Import Float64.

(** The finder and the row of three tiles after a first search from one end
    to the other, the middle tile then made unreachable. *)
Definition finder_rerun : AStarTiles float :=
  snd (fst (findPath 3 new_AStarTiles grid_row)).

Definition grid_rerun : Grid2D float :=
  blocked (snd (findPath 3 new_AStarTiles grid_row)) (0, 1).

(** A finder given the heuristic [() => 0], which does not read its target. *)
Definition finder_plain : AStarTiles float :=
  mkAStarTiles [] [] None None (ignoring (fun _ => 0%float)).

(** One row of four tiles, from one end to the other, with a negative
    multiplier next to the start (a multiplier the grid of the spec refuses). *)
Definition grid_negative : Grid2D float :=
  hazard (openGrid 1 4 (0, 0) (0, 3)) (0, 1) (-2)%float.

(** One row of three tiles, from one end to the other, the target with a
    negative multiplier. *)
Definition grid_negative_target : Grid2D float :=
  hazard (openGrid 1 3 (0, 0) (0, 2)) (0, 2) (-2)%float.

(** A state of the main loop on the row of three tiles: the start closed, its
    neighbour on the open list with [f = 5], [g = 4], [h = 1]. *)
Definition st_listed : Search float :=
  mkSearch [(0, 1)] [(0, 0)]
           (assign (tiles grid_row) (0, 1) (0, 0) 5%float 4%float 1%float).

End Grids.

(** ** Notions used to state further properties *)

Section Further.

Context {num : Type} {N : Num num}.

(** What the main loop keeps from one iteration to the next besides [Inv]: the
    target is not closed, and every move from a closed tile leads to a tile
    the search has met. *)
Definition Explored (numR numC : Z) (start target : NodeRef) (s0 : Tiles num)
           (st : Search num) (node : NodeRef) : Prop :=
  Inv numR numC start s0 st node /\
  ~ In target (closedList st) /\
  forall x, In x (closedList st) ->
  forall y, move s0 numR numC x y -> In y (seen st node).

(** Two stores with the same tiles reachable and the same multipliers. *)
Definition sameStatic (s s' : Tiles num) : Prop :=
  forall x, reachable (s x) = reachable (s' x) /\
            multiplier (s x) = multiplier (s' x).

(** Two states of the main loop with the same lists whose stores agree on
    what the search reads: the static fields of every tile, [g], [h] and [f]
    of the tiles met, and their [parent] except for the start. *)
Definition agree (start : NodeRef) (st st' : Search num) (node : NodeRef) : Prop :=
  openList st = openList st' /\
  closedList st = closedList st' /\
  sameStatic (nodes st) (nodes st') /\
  forall x, In x (seen st node) ->
    g (nodes st x) = g (nodes st' x) /\
    h (nodes st x) = h (nodes st' x) /\
    f (nodes st x) = f (nodes st' x) /\
    (x <> start -> parent (nodes st x) = parent (nodes st' x)).

(** How two runs of the main loop end alike. *)
Definition alike (start target : NodeRef) (out out' : outcome num) : Prop :=
  match out, out' with
  | Found st, Found st' => agree start st st' target
  | NoPath st, NoPath st' =>
      openList st = openList st' /\ closedList st = closedList st' /\
      sameStatic (nodes st) (nodes st')
  | Timeout, Timeout => True
  | _, _ => False
  end.

(** Two grids that differ only in the search fields of their tiles. *)
Definition sameLayout (grid grid' : Grid2D num) : Prop :=
  numRows grid = numRows grid' /\ numCols grid = numCols grid' /\
  startNode grid = startNode grid' /\ targetNode grid = targetNode grid' /\
  sameStatic (tiles grid) (tiles grid').

(** Tiles in ascending order of [f]. *)
Definition ascending (s : Tiles num) (l : list NodeRef) : Prop :=
  StronglySorted (fun a b => lte (f (s a)) (f (s b))) l.

(** [x] stands before [y] in the list. *)
Definition precedes (x y : NodeRef) (l : list NodeRef) : Prop :=
  exists l1 l2 l3, l = l1 ++ x :: l2 ++ y :: l3.

(** The [g] and [h] of the tiles the search has met are good numbers. *)
Definition InvGood (good : num -> Prop) (st : Search num) (node : NodeRef) : Prop :=
  forall x, In x (seen st node) -> good (g (nodes st x)) /\ good (h (nodes st x)).

(** The three invariants together. *)
Definition Inv3 (good : num -> Prop) (heuristic : IHeuristic num) (numR numC : Z)
           (start target : NodeRef) (s0 : Tiles num) (st : Search num)
           (node : NodeRef) : Prop :=
  Inv2 heuristic numR numC start target s0 st node /\ InvGood good st node.

End Further.

(** *** Some more grids and finders *)

Module Fixtures.
Import Float64.

(** The row of three open tiles as an earlier search could have left it:
    every tile with search fields and a parent of its own. *)
Definition grid_stale : Grid2D float :=
  mkGrid2D 1 3 (Some (0, 0)) (Some (0, 2))
           (fun _ => mkTileNode true 1%float 5%float 7%float 2%float (Some (0, 1))).

(** A finder with lists left over. *)
Definition finder_stale : AStarTiles float :=
  mkAStarTiles [(0, 1)] [(0, 2); (0, 0)] (Some (0, 2)) (Some (0, 0)) Float64.__diagonal.

(** Tiles whose [f] is 3, 1, 2 along a row. *)
Definition tiles_f : Tiles float :=
  fun x => mkTileNode true 1%float 0%float 0%float
             (if col x =? 0 then 3%float else if col x =? 1 then 1%float else 2%float)
             None.

End Fixtures.


(** ** Basic facts *)

Lemma ref_eqb_eq (a b : NodeRef) : ref_eqb a b = true <-> a = b.
Proof.
  destruct a as [r1 c1], b as [r2 c2]; unfold ref_eqb, row, col; simpl.
  rewrite andb_true_iff, !Z.eqb_eq. split.
  - intros [-> ->]; reflexivity.
  - intros E; injection E; auto.
Qed.

Lemma ref_eqb_refl (a : NodeRef) : ref_eqb a a = true.
Proof. apply ref_eqb_eq; reflexivity. Qed.

Lemma ref_eqb_neq (a b : NodeRef) : ref_eqb a b = false <-> a <> b.
Proof.
  rewrite <- ref_eqb_eq. destruct (ref_eqb a b); split; congruence.
Qed.

Lemma triple_eta (A B C : Type) (x : A * B * C) :
  x = (fst (fst x), snd (fst x), snd x).
Proof. destruct x as [[? ?] ?]. reflexivity. Qed.

Section Claims.

Context {num : Type} {N : Num num}.

(** *** Lists, ranges and the sort *)

Lemma isInList_In (l : list NodeRef) (x : NodeRef) :
  __isInList l x = true <-> In x l.
Proof.
  induction l as [|y l IH]; simpl.
  - split; [discriminate | tauto].
  - destruct (ref_eqb y x) eqn:E.
    + apply ref_eqb_eq in E. tauto.
    + apply ref_eqb_neq in E. rewrite IH. split; [tauto | intros [?|?]; [contradiction | assumption]].
Qed.

Lemma isInList_not_In (l : list NodeRef) (x : NodeRef) :
  __isInList l x = false <-> ~ In x l.
Proof.
  rewrite <- isInList_In. destruct (__isInList l x); split; congruence.
Qed.

Lemma In_zrange (lo hi k : Z) : In k (zrange lo hi) <-> lo <= k <= hi.
Proof.
  unfold zrange. rewrite in_map_iff. split.
  - intros [n [<- Hn]]. apply in_seq in Hn. lia.
  - intros Hk. exists (Z.to_nat (k - lo)). split; [lia|].
    apply in_seq. lia.
Qed.

Lemma In_neighbours (R C : Z) (node x : NodeRef) :
  In x (neighbours R C node) <->
  (Z.max 0 (row node - 1) <= row x <= Z.min (R - 1) (row node + 1)) /\
  (Z.max 0 (col node - 1) <= col x <= Z.min (C - 1) (col node + 1)).
Proof.
  unfold neighbours. rewrite in_flat_map. split.
  - intros [i [Hi Hx]]. apply in_map_iff in Hx. destruct Hx as [j [<- Hj]].
    apply In_zrange in Hi. apply In_zrange in Hj. unfold getNode, row, col; simpl.
    split; assumption.
  - intros [Hi Hj]. exists (row x). split; [apply In_zrange; assumption|].
    apply in_map_iff. exists (col x). split; [|apply In_zrange; assumption].
    destruct x; reflexivity.
Qed.

Lemma neighbours_in_grid (R C : Z) (node x : NodeRef) :
  In x (neighbours R C node) -> in_grid R C x.
Proof.
  rewrite In_neighbours. unfold in_grid. lia.
Qed.

Lemma In_allCells (R C : Z) (x : NodeRef) : in_grid R C x -> In x (allCells R C).
Proof.
  unfold in_grid, allCells. intros [Hr Hc]. apply in_flat_map.
  exists (row x). split; [apply In_zrange; lia|].
  apply in_map_iff. exists (col x). split; [destruct x; reflexivity|].
  apply In_zrange; lia.
Qed.

Lemma length_zrange (lo hi : Z) : length (zrange lo hi) = Z.to_nat (hi - lo + 1).
Proof. unfold zrange. rewrite length_map, length_seq. reflexivity. Qed.

Lemma length_rows (A : Type) (fn : Z -> list A) (n : nat) (l : list Z) :
  (forall i, length (fn i) = n) -> length (flat_map fn l) = (length l * n)%nat.
Proof.
  intros Hn. induction l as [|i l IH]; simpl; [reflexivity|].
  rewrite length_app, Hn, IH. reflexivity.
Qed.

Lemma length_allCells (R C : Z) : length (allCells R C) = numCells R C.
Proof.
  unfold allCells, numCells.
  rewrite (length_rows _ _ (Z.to_nat C)).
  - rewrite length_zrange. f_equal. lia.
  - intros i. rewrite length_map, length_zrange. lia.
Qed.

(** Distinct tiles of the grid are no more than the grid has. *)
Lemma distinct_tiles_bound (R C : Z) (l : list NodeRef) :
  NoDup l -> (forall x, In x l -> in_grid R C x) ->
  (length l <= numCells R C)%nat.
Proof.
  intros Hnd Hin. rewrite <- length_allCells.
  apply NoDup_incl_length; [assumption|].
  intros x Hx. apply In_allCells, Hin, Hx.
Qed.

Lemma insert_perm (s : Tiles num) (x : NodeRef) (l : list NodeRef) :
  Permutation (insert s x l) (x :: l).
Proof.
  induction l as [|y l IH]; simpl; [constructor; constructor|].
  destruct (0 <? compareF s y x).
  - apply Permutation_refl.
  - eapply perm_trans; [apply perm_skip, IH | apply perm_swap].
Qed.

Lemma sort_perm (s : Tiles num) (l : list NodeRef) : Permutation (sort s l) l.
Proof.
  unfold sort.
  assert (G : forall l acc, Permutation
              (fold_left (fun acc x => insert s x acc) l acc) (l ++ acc)).
  { clear l. induction l as [|x l IH]; intros acc; simpl.
    - apply Permutation_refl.
    - eapply perm_trans; [apply IH|].
      eapply perm_trans; [apply Permutation_app_head, insert_perm|].
      apply Permutation_sym, Permutation_middle. }
  specialize (G l []). rewrite app_nil_r in G. exact G.
Qed.

(** *** The tiles store *)

Lemma assign_same (s : Tiles num) temp node f' g' h' :
  assign s temp node f' g' h' temp =
  mkTileNode (reachable (s temp)) (multiplier (s temp)) g' h' f' (Some node).
Proof. unfold assign. rewrite ref_eqb_refl. reflexivity. Qed.

Lemma assign_other (s : Tiles num) temp node f' g' h' m :
  m <> temp -> assign s temp node f' g' h' m = s m.
Proof. intros Hm. unfold assign. apply ref_eqb_neq in Hm. rewrite Hm. reflexivity. Qed.

Lemma assign_static (s : Tiles num) temp node f' g' h' m :
  reachable (assign s temp node f' g' h' m) = reachable (s m) /\
  multiplier (assign s temp node f' g' h' m) = multiplier (s m).
Proof.
  unfold assign. destruct (ref_eqb m temp) eqn:E; [|split; reflexivity].
  apply ref_eqb_eq in E. subst m. split; reflexivity.
Qed.

Lemma initStart_static (s : Tiles num) start h0 m :
  reachable (initStart s start h0 m) = reachable (s m) /\
  multiplier (initStart s start h0 m) = multiplier (s m).
Proof.
  unfold initStart. destruct (ref_eqb m start) eqn:E; [|split; reflexivity].
  apply ref_eqb_eq in E. subst m. split; reflexivity.
Qed.


Lemma skipped_static (s s' : Tiles num) node temp :
  (forall x, reachable (s x) = reachable (s' x)) ->
  skipped s node temp = skipped s' node temp.
Proof. intros E. unfold skipped. rewrite !E. reflexivity. Qed.

Lemma skipped_false (s : Tiles num) node temp :
  skipped s node temp = false ->
  temp <> node /\ reachable (s temp) = true /\
  reachable (s (row node, col temp)) = true /\
  reachable (s (row temp, col node)) = true.
Proof.
  unfold skipped, getNode. rewrite !orb_false_iff, !negb_false_iff.
  intros [[[E1 E2] E3] E4]. apply ref_eqb_neq in E1. tauto.
Qed.

(** *** One visit *)

Section Visit.

Variable heuristic : IHeuristic num.
Variables numR numC : Z.
Variables start target : NodeRef.
Variable s0 : Tiles num.

(** A visit skips or leaves [temp] alone, improves a tile already listed, or
    lists a new tile. *)
Lemma visit_cases (node : NodeRef) (st : Search num) (temp : NodeRef) :
  visit heuristic target node st temp = st
  \/ (skipped (nodes st) node temp = false /\
      (In temp (openList st) \/ In temp (closedList st)) /\
      gtb (f (nodes st temp)) (newF heuristic target (nodes st) node temp) = true /\
      visit heuristic target node st temp =
        mkSearch (openList st) (closedList st) (assigned heuristic target st node temp))
  \/ (skipped (nodes st) node temp = false /\
      ~ In temp (openList st) /\ ~ In temp (closedList st) /\
      visit heuristic target node st temp =
        mkSearch (openList st ++ [temp]) (closedList st) (assigned heuristic target st node temp)).
Proof.
  unfold visit. destruct (skipped (nodes st) node temp) eqn:Hs; [left; reflexivity|].
  unfold __isInOpenList, __isInClosedList.
  destruct (__isInList (openList st) temp || __isInList (closedList st) temp) eqn:Hl.
  - fold (newG (nodes st) node temp). fold (newH heuristic target temp). fold (newF heuristic target (nodes st) node temp).
    destruct (gtb (f (nodes st temp)) (newF heuristic target (nodes st) node temp)) eqn:Hg;
      [|left; reflexivity].
    right; left. repeat split; try reflexivity.
    apply orb_true_iff in Hl. rewrite !isInList_In in Hl. exact Hl.
  - right; right. apply orb_false_iff in Hl. rewrite !isInList_not_In in Hl.
    destruct Hl as [Ho Hc]. repeat split; assumption || reflexivity.
Qed.

Lemma Inv_update (st : Search num) (node temp : NodeRef) f' g' h' :
  Inv numR numC start s0 st node ->
  move s0 numR numC node temp ->
  In temp (openList st) \/ In temp (closedList st) ->
  Inv numR numC start s0
      (mkSearch (openList st) (closedList st) (assign (nodes st) temp node f' g' h')) node.
Proof.
  intros I Hmove Hin.
  assert (Hseen : In temp (seen st node)).
  { unfold seen. apply in_or_app. destruct Hin; [right; right|left]; assumption. }
  constructor; unfold seen; simpl.
  - intros x. destruct (assign_static (nodes st) temp node f' g' h' x) as [-> ->].
    apply (inv_static _ _ _ _ _ _ I).
  - apply (inv_nodup _ _ _ _ _ _ I).
  - apply (inv_grid _ _ _ _ _ _ I).
  - apply (inv_start _ _ _ _ _ _ I).
  - intros x Hx Hne. destruct (ref_eqb x temp) eqn:E.
    + apply ref_eqb_eq in E. subst x. exists node. rewrite assign_same. simpl.
      split; [reflexivity|]. split; [right; reflexivity|assumption].
    + apply ref_eqb_neq in E. rewrite assign_other by assumption.
      apply (inv_parent _ _ _ _ _ _ I); assumption.
  - intros x Hx. rewrite assign_other.
    + apply (inv_unseen _ _ _ _ _ _ I). exact Hx.
    + intros ->. apply Hx. exact Hseen.
  - intros x Hx. rewrite assign_other.
    + apply (inv_blocked _ _ _ _ _ _ I). exact Hx.
    + intros ->. destruct Hmove as [_ Hs]. apply skipped_false in Hs.
      destruct Hs as [_ [Hr _]]. congruence.
  - apply (inv_conn _ _ _ _ _ _ I).
Qed.

Lemma seen_push (st : Search num) (node temp : NodeRef) (s' : Tiles num) (x : NodeRef) :
  In x (seen (mkSearch (openList st ++ [temp]) (closedList st) s') node) <->
  In x (seen st node) \/ x = temp.
Proof.
  unfold seen; simpl. rewrite !in_app_iff. simpl. rewrite in_app_iff. simpl.
  split; intros H; repeat (destruct H as [H|H]); subst; auto 6; try contradiction.
Qed.

Lemma Inv_push (st : Search num) (node temp : NodeRef) f' g' h' :
  Inv numR numC start s0 st node ->
  move s0 numR numC node temp ->
  temp <> node ->
  ~ In temp (openList st) -> ~ In temp (closedList st) ->
  Inv numR numC start s0
      (mkSearch (openList st ++ [temp]) (closedList st)
                (assign (nodes st) temp node f' g' h')) node.
Proof.
  intros I Hmove Hne Ho Hc.
  assert (Hunseen : ~ In temp (seen st node)).
  { unfold seen. rewrite in_app_iff. simpl. intros [?|[?|?]]; subst; auto. }
  assert (Hstart : In start (seen st node)).
  { unfold seen. apply in_or_app.
    destruct (inv_start _ _ _ _ _ _ I) as [?|?]; [left|right;left]; auto. }
  constructor.
  - intros x; simpl. destruct (assign_static (nodes st) temp node f' g' h' x) as [-> ->].
    apply (inv_static _ _ _ _ _ _ I).
  - unfold seen; simpl.
    replace (closedList st ++ node :: openList st ++ [temp])
      with (seen st node ++ [temp])
      by (unfold seen; rewrite <- app_assoc; reflexivity).
    apply NoDup_app; [apply (inv_nodup _ _ _ _ _ _ I) | repeat constructor; simpl; tauto |].
    intros x Hx [ <- | [] ]. apply Hunseen, Hx.
  - intros x Hx Hxs. apply seen_push in Hx. destruct Hx as [Hx | ->].
    + apply (inv_grid _ _ _ _ _ _ I); assumption.
    + apply (neighbours_in_grid _ _ node). apply Hmove.
  - simpl. apply (inv_start _ _ _ _ _ _ I).
  - intros x Hx Hxs. apply seen_push in Hx. simpl.
    destruct (ref_eqb x temp) eqn:E.
    + apply ref_eqb_eq in E. subst x. exists node. rewrite assign_same. simpl.
      split; [reflexivity|]. split; [right; reflexivity|assumption].
    + apply ref_eqb_neq in E. rewrite assign_other by assumption.
      destruct Hx as [Hx|Hx]; [|contradiction].
      apply (inv_parent _ _ _ _ _ _ I); assumption.
  - intros x Hx. rewrite seen_push in Hx. simpl. rewrite assign_other.
    + apply (inv_unseen _ _ _ _ _ _ I). tauto.
    + intros ->. tauto.
  - intros x Hx. simpl. rewrite assign_other.
    + apply (inv_blocked _ _ _ _ _ _ I). exact Hx.
    + intros ->. destruct Hmove as [_ Hs]. apply skipped_false in Hs.
      destruct Hs as [_ [Hr _]]. congruence.
  - intros x Hx. apply seen_push in Hx. destruct Hx as [Hx | ->].
    + apply (inv_conn _ _ _ _ _ _ I), Hx.
    + eapply connected_step; [|exact Hmove].
      apply (inv_conn _ _ _ _ _ _ I). unfold seen. apply in_or_app. right; left; reflexivity.
Qed.

Lemma move_of_visit (st : Search num) (node temp : NodeRef) :
  Inv numR numC start s0 st node ->
  In temp (neighbours numR numC node) ->
  skipped (nodes st) node temp = false ->
  move s0 numR numC node temp.
Proof.
  intros I Hn Hs. split; [assumption|].
  rewrite <- Hs. symmetry. apply skipped_static.
  intros x. apply (inv_static _ _ _ _ _ _ I).
Qed.

Lemma Inv_visit (st : Search num) (node temp : NodeRef) :
  Inv numR numC start s0 st node ->
  In temp (neighbours numR numC node) ->
  Inv numR numC start s0 (visit heuristic target node st temp) node.
Proof.
  intros I Hn.
  destruct (visit_cases node st temp) as [-> | [[Hs [Hin [_ ->]]] | [Hs [Ho [Hc ->]]]]].
  - assumption.
  - apply Inv_update; [assumption | eapply move_of_visit; eassumption | assumption].
  - apply Inv_push; try assumption.
    + eapply move_of_visit; eassumption.
    + apply skipped_false in Hs. tauto.
Qed.

End Visit.

(** *** The main loop *)

Section MainLoop.

Variable heuristic : IHeuristic num.
Variables numR numC : Z.
Variables start target : NodeRef.
Variable s0 : Tiles num.

Lemma Inv_fold (node : NodeRef) (l : list NodeRef) :
  incl l (neighbours numR numC node) ->
  forall st, Inv numR numC start s0 st node ->
  Inv numR numC start s0 (fold_left (visit heuristic target node) l st) node.
Proof.
  induction l as [|temp l IH]; intros Hl st I; simpl; [assumption|].
  apply IH.
  - intros x Hx. apply Hl. right. exact Hx.
  - apply Inv_visit; [assumption|]. apply Hl. left. reflexivity.
Qed.

Lemma seen_next (st : Search num) (node next : NodeRef) (rest : list NodeRef) :
  Permutation (next :: rest) (openList st) ->
  Permutation (seen (mkSearch rest (closedList st ++ [node]) (nodes st)) next)
              (seen st node).
Proof.
  intros P. unfold seen; simpl. rewrite <- app_assoc. simpl.
  apply Permutation_app_head. apply perm_skip. exact P.
Qed.

Lemma Inv_next (st : Search num) (node next : NodeRef) (rest : list NodeRef) :
  Inv numR numC start s0 st node ->
  Permutation (next :: rest) (openList st) ->
  Inv numR numC start s0 (mkSearch rest (closedList st ++ [node]) (nodes st)) next.
Proof.
  intros I P. pose proof (seen_next st node next rest P) as PS.
  assert (Hexp : forall p, In p (closedList st) \/ p = node ->
                           In p (closedList st ++ [node])).
  { intros p [Hp | ->]; apply in_or_app; [left; assumption | right; left; reflexivity]. }
  constructor.
  - apply (inv_static _ _ _ _ _ _ I).
  - eapply Permutation_NoDup; [apply Permutation_sym, PS|].
    apply (inv_nodup _ _ _ _ _ _ I).
  - intros x Hx. apply (inv_grid _ _ _ _ _ _ I).
    eapply Permutation_in; [exact PS | exact Hx].
  - left. apply Hexp. apply (inv_start _ _ _ _ _ _ I).
  - intros x Hx Hne.
    destruct (inv_parent _ _ _ _ _ _ I x) as [p [Hp [Hc Hm]]];
      [eapply Permutation_in; [exact PS | exact Hx] | assumption |].
    exists p. simpl. split; [assumption|]. split; [left; apply Hexp, Hc | assumption].
  - intros x Hx. simpl. apply (inv_unseen _ _ _ _ _ _ I).
    intros Hin. apply Hx. eapply Permutation_in; [apply Permutation_sym, PS | exact Hin].
  - apply (inv_blocked _ _ _ _ _ _ I).
  - intros x Hx. apply (inv_conn _ _ _ _ _ _ I).
    eapply Permutation_in; [exact PS | exact Hx].
Qed.

Lemma Inv_init : Inv numR numC start s0 (mkSearch [] [] s0) start.
Proof.
  constructor; unfold seen; simpl.
  - intros x. split; reflexivity.
  - repeat constructor. simpl. tauto.
  - intros x [ <- | [] ] Hne. contradiction.
  - right. reflexivity.
  - intros x [ <- | [] ] Hne. contradiction.
  - reflexivity.
  - reflexivity.
  - intros x [ <- | [] ]. constructor.
Qed.

Lemma Inv_visited (node : NodeRef) (st : Search num) :
  Inv numR numC start s0 st node -> Inv numR numC start s0 (visited heuristic numR numC target node st) node.
Proof. intros I. apply Inv_fold; [apply incl_refl | assumption]. Qed.

Lemma visit_closed (node : NodeRef) (st : Search num) (temp : NodeRef) :
  closedList (visit heuristic target node st temp) = closedList st.
Proof.
  destruct (visit_cases heuristic target node st temp)
    as [-> | [[_ [_ [_ ->]]] | [_ [_ [_ ->]]]]]; reflexivity.
Qed.

(** The closed list only grows at the end of an iteration. *)
Lemma visited_closed (node : NodeRef) (st : Search num) :
  closedList (visited heuristic numR numC target node st) = closedList st.
Proof.
  unfold visited. generalize (neighbours numR numC node) as l. intros l. revert st.
  induction l as [|temp l IH]; intros st; simpl; [reflexivity|].
  rewrite IH. apply visit_closed.
Qed.

(** A property kept by every visit and by the choice of the next node holds
    when the loop ends. *)
Lemma search_preserves (P : Search num -> NodeRef -> Prop) :
  (forall st node temp, In temp (neighbours numR numC node) ->
     P st node -> P (visit heuristic target node st temp) node) ->
  (forall st node next rest, P st node ->
     Permutation (next :: rest) (openList st) ->
     P (mkSearch rest (closedList st ++ [node]) (nodes st)) next) ->
  forall fuel st node, P st node ->
  endedWith target P (search heuristic numR numC target fuel st node).
Proof.
  intros Hvisit Hnext.
  assert (Hfold : forall node l, incl l (neighbours numR numC node) ->
            forall st, P st node -> P (fold_left (visit heuristic target node) l st) node).
  { intros node l. induction l as [|temp l IH]; intros Hl st HP; simpl; [assumption|].
    apply IH; [intros x Hx; apply Hl; right; exact Hx|].
    apply Hvisit; [apply Hl; left; reflexivity | assumption]. }
  induction fuel as [|k IH]; intros st node HP; simpl.
  - destruct (ref_eqb node target) eqn:E; simpl; [|exact Logic.I].
    apply ref_eqb_eq in E. subst node. exact HP.
  - destruct (ref_eqb node target) eqn:E; simpl.
    { apply ref_eqb_eq in E. subst node. exact HP. }
    unfold expand. fold (visited heuristic numR numC target node st). simpl.
    assert (HP1 : P (visited heuristic numR numC target node st) node) by (apply Hfold; [apply incl_refl | assumption]).
    pose proof (sort_perm (nodes (visited heuristic numR numC target node st)) (openList (visited heuristic numR numC target node st))) as Pm.
    destruct (sort (nodes (visited heuristic numR numC target node st)) (openList (visited heuristic numR numC target node st)))
      as [|next rest] eqn:Es.
    + simpl. exists (visited heuristic numR numC target node st), node. split; [assumption|].
      apply Permutation_nil in Pm. rewrite Pm. split; reflexivity.
    + apply IH. apply Hnext; assumption.
Qed.

Lemma search_ended (fuel : nat) :
  forall st node, Inv numR numC start s0 st node ->
  ended numR numC start target s0 (search heuristic numR numC target fuel st node).
Proof.
  apply search_preserves.
  - intros st node temp Hn I. apply Inv_visit; assumption.
  - intros st node next rest I Pm. apply Inv_next; assumption.
Qed.

(** Each iteration closes one node. *)
Lemma search_closed_length (fuel : nat) :
  forall st node st',
  search heuristic numR numC target fuel st node = Found st' ->
  (length (closedList st') <= fuel + length (closedList st))%nat.
Proof.
  induction fuel as [|k IH]; intros st node st'; simpl.
  - destruct (ref_eqb node target); [|discriminate]. intros [= <-]. lia.
  - destruct (ref_eqb node target); [intros [= <-]; lia|].
    unfold expand. fold (visited heuristic numR numC target node st). simpl.
    destruct (sort (nodes (visited heuristic numR numC target node st)) (openList (visited heuristic numR numC target node st)))
      as [|next rest]; [discriminate|].
    intros H. apply IH in H. simpl in H. rewrite length_app, visited_closed in H.
    simpl in H. lia.
Qed.

(** The main loop ends within one iteration per tile of the grid. *)
Lemma seen_in_grid (st : Search num) (node : NodeRef) :
  in_grid numR numC start -> Inv numR numC start s0 st node ->
  forall x, In x (seen st node) -> in_grid numR numC x.
Proof.
  intros Hg I x Hx. destruct (ref_eqb x start) eqn:E.
  - apply ref_eqb_eq in E. subst x. exact Hg.
  - apply ref_eqb_neq in E. apply (inv_grid _ _ _ _ _ _ I); assumption.
Qed.

Lemma search_terminates (fuel : nat) :
  in_grid numR numC start ->
  forall st node, Inv numR numC start s0 st node ->
  (numCells numR numC <= fuel + length (closedList st))%nat ->
  search heuristic numR numC target fuel st node <> @Timeout num.
Proof.
  intros Hg. induction fuel as [|k IH]; intros st node I Hf; simpl.
  - destruct (ref_eqb node target) eqn:E; [discriminate|].
    exfalso.
    pose proof (distinct_tiles_bound numR numC (seen st node)
                  (inv_nodup _ _ _ _ _ _ I) (seen_in_grid st node Hg I)) as Hb.
    unfold seen in Hb. rewrite length_app in Hb. simpl in Hb, Hf. lia.
  - destruct (ref_eqb node target) eqn:E; [discriminate|].
    unfold expand. fold (visited heuristic numR numC target node st). simpl.
    pose proof (Inv_visited node st I) as I1.
    pose proof (sort_perm (nodes (visited heuristic numR numC target node st)) (openList (visited heuristic numR numC target node st))) as P.
    destruct (sort (nodes (visited heuristic numR numC target node st)) (openList (visited heuristic numR numC target node st)))
      as [|next rest] eqn:Es; [discriminate|].
    apply IH; [apply Inv_next; assumption|].
    simpl. rewrite length_app. simpl.
    rewrite visited_closed. lia.
Qed.

End MainLoop.

(** *** Following the [parent] links *)

Section Chains.

Variables numR numC : Z.
Variable start : NodeRef.
Variable s0 : Tiles num.

Lemma chain_head (s : Tiles num) (x : NodeRef) (l : list NodeRef) :
  chain s start x l -> exists l', l = x :: l'.
Proof. intros H. destruct H; eexists; reflexivity. Qed.

Lemma chain_ends (s : Tiles num) (x : NodeRef) (l : list NodeRef) :
  chain s start x l -> In start l.
Proof. intros H. induction H; [left; reflexivity | right; assumption]. Qed.

(** What the reconstruction loop returns is a chain, reversed. *)
Lemma unwind_chain (s : Tiles num) (fuel : nat) :
  forall x acc p, unwind start fuel s x (x :: acc) = Path p ->
  exists l, chain s start x l /\ p = rev l ++ acc.
Proof.
  induction fuel as [|k IH]; intros x acc p; simpl.
  - destruct (ref_eqb x start) eqn:E; [|discriminate].
    apply ref_eqb_eq in E. subst x. intros [= <-].
    exists [start]. split; [constructor | reflexivity].
  - destruct (ref_eqb x start) eqn:E.
    + apply ref_eqb_eq in E. subst x. intros [= <-].
      exists [start]. split; [constructor | reflexivity].
    + apply ref_eqb_neq in E. destruct (parent (s x)) as [q|] eqn:Hp; [|discriminate].
      intros H. apply IH in H. destruct H as [l [Hc ->]].
      exists (x :: l). split; [econstructor; eassumption|].
      simpl. rewrite <- app_assoc. reflexivity.
Qed.

(** A chain is what the reconstruction loop returns, given the iterations. *)
Lemma chain_unwind (s : Tiles num) (x : NodeRef) (l : list NodeRef) :
  chain s start x l ->
  forall fuel acc, (length l <= S fuel)%nat ->
  unwind start fuel s x (x :: acc) = Path (rev l ++ acc).
Proof.
  intros H. induction H as [|x q l Hne Hp Hc IH]; intros fuel acc Hlen.
  - destruct fuel; simpl; rewrite ref_eqb_refl; reflexivity.
  - apply ref_eqb_neq in Hne. destruct fuel as [|k]; simpl in *.
    + destruct (chain_head _ _ _ Hc) as [l' ->]. simpl in Hlen. lia.
    + rewrite Hne, Hp. rewrite IH by lia. rewrite <- app_assoc. reflexivity.
Qed.

Lemma chain_unique (s : Tiles num) (x : NodeRef) (l1 l2 : list NodeRef) :
  chain s start x l1 -> chain s start x l2 -> l1 = l2.
Proof.
  intros H. revert l2. induction H as [|x q l Hne Hp Hc IH]; intros l2 H2.
  - inversion H2; subst; [reflexivity | contradiction].
  - inversion H2; subst; [contradiction|].
    f_equal. apply IH. congruence.
Qed.

Lemma chain_suffix (s : Tiles num) (x : NodeRef) (l : list NodeRef) :
  chain s start x l ->
  forall y, In y l -> exists l1 l2, l = l1 ++ l2 /\ chain s start y l2.
Proof.
  intros H. induction H as [|x q l Hne Hp Hc IH]; intros y Hy.
  - destruct Hy as [ <- | [] ]. exists [], [start]. split; [reflexivity | constructor].
  - destruct Hy as [ <- | Hy].
    + exists [], (x :: l). split; [reflexivity | econstructor; eassumption].
    + destruct (IH y Hy) as [l1 [l2 [-> Hc2]]].
      exists (x :: l1), l2. split; [reflexivity | assumption].
Qed.

(** A chain never passes twice through a tile. *)
Lemma chain_NoDup (s : Tiles num) (x : NodeRef) (l : list NodeRef) :
  chain s start x l -> NoDup l.
Proof.
  intros H. induction H as [|x q l Hne Hp Hc IH].
  - repeat constructor. simpl. tauto.
  - constructor; [|assumption]. intros Hin.
    destruct (chain_suffix _ _ _ Hc x Hin) as [l1 [l2 [El Hc2]]].
    assert (Hx : chain s start x (x :: l)) by (econstructor; eassumption).
    pose proof (chain_unique _ _ _ _ Hx Hc2) as E.
    apply (f_equal (@length NodeRef)) in E. subst l.
    simpl in E. rewrite length_app in E. lia.
Qed.

Lemma expanded_seen (st : Search num) (node p : NodeRef) :
  In p (closedList st) \/ p = node -> In p (seen st node).
Proof.
  unfold seen. intros [H | ->]; apply in_or_app; [left; assumption | right; left; reflexivity].
Qed.

Lemma start_seen (st : Search num) (node : NodeRef) :
  Inv numR numC start s0 st node -> In start (seen st node).
Proof. intros I. apply expanded_seen. apply (inv_start _ _ _ _ _ _ I). Qed.

Lemma parent_seen (st : Search num) (node x p : NodeRef) :
  Inv numR numC start s0 st node ->
  In x (seen st node) -> x <> start -> parent (nodes st x) = Some p ->
  In p (seen st node) /\ move s0 numR numC p x.
Proof.
  intros I Hx Hne Hp.
  destruct (inv_parent _ _ _ _ _ _ I x Hx Hne) as [q [Hq [Hs Hm]]].
  assert (q = p) by congruence. subst q.
  split; [apply expanded_seen; assumption | assumption].
Qed.

Lemma chain_seen (st : Search num) (node x : NodeRef) (l : list NodeRef) :
  Inv numR numC start s0 st node ->
  chain (nodes st) start x l -> In x (seen st node) ->
  forall y, In y l -> In y (seen st node).
Proof.
  intros I H. induction H as [|x q l Hne Hp Hc IH]; intros Hx y Hy.
  - destruct Hy as [ <- | [] ]. assumption.
  - destruct Hy as [ <- | Hy]; [assumption|].
    apply IH; [|assumption].
    apply (parent_seen st node x q I Hx Hne Hp).
Qed.

(** Each link of a chain is a move the neighbour loop made. *)
Lemma chain_moves (st : Search num) (node x : NodeRef) (l : list NodeRef) :
  Inv numR numC start s0 st node ->
  chain (nodes st) start x l -> In x (seen st node) ->
  forall l1 l2 a b, l = l1 ++ b :: a :: l2 ->
  parent (nodes st b) = Some a /\ b <> start /\ In b (seen st node) /\
  move s0 numR numC a b.
Proof.
  intros I H. induction H as [|x q l Hne Hp Hc IH]; intros Hx l1 l2 a b E.
  - destruct l1 as [|? [|? ?]]; discriminate.
  - destruct (parent_seen st node x q I Hx Hne Hp) as [Hq Hm].
    destruct l1 as [|z l1]; simpl in E.
    + injection E as <- E. destruct (chain_head _ _ _ Hc) as [l' El].
      rewrite El in E. injection E as <- _. tauto.
    + injection E as <- E. apply (IH Hq l1 l2 a b E).
Qed.

Lemma consecutive_rev (l : list NodeRef) (a b : NodeRef) :
  consecutive (rev l) a b -> exists l1 l2, l = l1 ++ b :: a :: l2.
Proof.
  intros [l1 [l2 E]]. exists (rev l2), (rev l1).
  apply (f_equal (@rev NodeRef)) in E. rewrite rev_involutive in E. rewrite E.
  rewrite rev_app_distr. simpl. rewrite <- !app_assoc. reflexivity.
Qed.

(** A tile met by the search is never left without a [parent] to follow. *)
Lemma unwind_safe (st : Search num) (node : NodeRef) :
  Inv numR numC start s0 st node ->
  forall fuel x acc, In x (seen st node) ->
  unwind start fuel (nodes st) x acc <> TypeError.
Proof.
  intros I. induction fuel as [|k IH]; intros x acc Hx; simpl.
  - destruct (ref_eqb x start); discriminate.
  - destruct (ref_eqb x start) eqn:E; [discriminate|].
    apply ref_eqb_neq in E.
    destruct (inv_parent _ _ _ _ _ _ I x Hx E) as [q [-> [Hs _]]].
    apply IH. apply expanded_seen. assumption.
Qed.

End Chains.

Lemma search_at_target heur R C target fuel st :
  search heur R C target fuel st target = Found st.
Proof. destruct fuel; simpl; rewrite ref_eqb_refl; reflexivity. Qed.

Lemma unwind_at_start (start : NodeRef) (fuel : nat) (s : Tiles num) path :
  unwind start fuel s start path = Path path.
Proof. destruct fuel; simpl; rewrite ref_eqb_refl; reflexivity. Qed.

(** *** Costs *)

Section Costs.

Context {good : num -> Prop} {O : OrderedOn good}.

Lemma lte_refl (a : num) : good a -> lte a a.
Proof. apply on_gtb_irrefl. Qed.

Lemma lte_trans (a b c : num) :
  good a -> good b -> good c -> lte a b -> lte b c -> lte a c.
Proof.
  unfold lte. intros Ga Gb Gc Hab Hbc. destruct (gtb a c) eqn:E; [|reflexivity].
  pose proof (on_le_gtb_trans b c a Gb Gc Ga Hbc E) as H. congruence.
Qed.

Lemma gtb_le (a b : num) : good a -> good b -> gtb a b = true -> lte b a.
Proof.
  unfold lte. intros Ga Gb H. destruct (gtb b a) eqn:E; [|reflexivity].
  pose proof (on_gtb_trans a b a Ga Gb Ga H E) as H'.
  rewrite on_gtb_irrefl in H' by assumption. discriminate.
Qed.

Lemma gtb_add_cancel (a b c : num) :
  good a -> good b -> good c ->
  gtb (add a c) (add b c) = true -> gtb a b = true.
Proof.
  intros Ga Gb Gc H. destruct (gtb a b) eqn:E; [reflexivity|].
  pose proof (on_add_le_mono a b c Ga Gb Gc E) as H'. unfold lte in H'. congruence.
Qed.

Variable heuristic : IHeuristic num.
Variables numR numC : Z.
Variables start target : NodeRef.
Variable s0 : Tiles num.
Hypothesis multiplier_good :
  forall x, good (multiplier (s0 x)) /\ lte zero (multiplier (s0 x)).
Hypothesis heuristic_good :
  forall x, in_grid numR numC x \/ x = start -> good (heuristic x target).

Lemma moveCost_good (p x : NodeRef) : good (moveCost s0 p x).
Proof.
  unfold moveCost, stepCost.
  destruct (negb _); [apply good_mul_sqrt2 | apply good_mul_one]; apply multiplier_good.
Qed.

Lemma moveCost_nonneg (p x : NodeRef) : lte zero (moveCost s0 p x).
Proof.
  unfold moveCost, stepCost.
  destruct (negb _); [apply on_mul_sqrt2_nonneg | apply on_mul_one_nonneg];
    apply multiplier_good.
Qed.

Lemma le_add_move (a : num) (p x : NodeRef) :
  good a -> lte a (add a (moveCost s0 p x)).
Proof.
  intros Ga. apply on_add_nonneg;
    [assumption | apply moveCost_good | apply moveCost_nonneg].
Qed.

(** Along a chain, from a tile back to the start, [g] never increases. *)
Lemma chain_le (st : Search num) (node x : NodeRef) (l : list NodeRef) :
  Inv numR numC start s0 st node ->
  InvG heuristic start target s0 st node ->
  InvGood good st node ->
  chain (nodes st) start x l -> In x (seen st node) ->
  forall y, In y l -> lte (g (nodes st y)) (g (nodes st x)).
Proof.
  intros I G K H. induction H as [|x q l Hne Hp Hc IH]; intros Hx y Hy.
  - destruct Hy as [ <- | [] ]. apply lte_refl, K, Hx.
  - destruct Hy as [ <- | Hy]; [apply lte_refl, K, Hx|].
    destruct (parent_seen _ _ _ _ _ _ _ _ I Hx Hne Hp) as [Hq _].
    pose proof (chain_seen _ _ _ _ _ _ _ _ I Hc Hq y Hy) as Hys.
    assert (Gq : good (g (nodes st q))) by apply K, Hq.
    apply (lte_trans _ (g (nodes st q))); [apply K, Hys | exact Gq | apply K, Hx | |].
    + apply IH; assumption.
    + apply (lte_trans _ (add (g (nodes st q)) (moveCost s0 q x)));
        [exact Gq | apply good_add; [exact Gq | apply moveCost_good] | apply K, Hx | |].
      * apply le_add_move. exact Gq.
      * apply (invg_step _ _ _ _ _ _ G); assumption.
Qed.

Lemma chain_assign_other (s : Tiles num) (temp node : NodeRef) (f' g' h' : num)
      (x : NodeRef) (l : list NodeRef) :
  chain s start x l -> ~ In temp l ->
  chain (assign s temp node f' g' h') start x l.
Proof.
  intros H. induction H as [|x q l Hne Hp Hc IH]; intros Hn.
  - constructor.
  - econstructor; [assumption| |apply IH; intros Hin; apply Hn; right; assumption].
    rewrite assign_other; [assumption|]. intros ->. apply Hn. left. reflexivity.
Qed.

Lemma chain_reparent (s : Tiles num) (temp node : NodeRef) (f' g' h' : num)
      (ln : list NodeRef) :
  temp <> start ->
  chain (assign s temp node f' g' h') start node ln ->
  forall x l, chain s start x l ->
  exists l', chain (assign s temp node f' g' h') start x l'.
Proof.
  intros Hts Hln x l H. induction H as [|x q l Hne Hp Hc [l' IH]].
  - exists [start]. constructor.
  - destruct (ref_eqb x temp) eqn:E.
    + apply ref_eqb_eq in E. subst x. exists (temp :: ln).
      econstructor; [assumption| |exact Hln]. rewrite assign_same. reflexivity.
    + apply ref_eqb_neq in E. exists (x :: l').
      econstructor; [assumption| |exact IH]. rewrite assign_other; assumption.
Qed.

(** The tentative values computed for a neighbour are among the good
    numbers. *)
Lemma newG_good (st : Search num) (node temp : NodeRef) :
  Inv numR numC start s0 st node -> InvGood good st node ->
  good (newG (nodes st) node temp).
Proof.
  intros I K. unfold newG.
  destruct (inv_static _ _ _ _ _ _ I temp) as [_ ->].
  apply good_add; [|apply moveCost_good].
  apply K. apply expanded_seen. right. reflexivity.
Qed.

(** The cost invariant survives the assignment of the tentative values to
    [temp], as long as a tile already met only gets a smaller [g]. *)
Lemma InvG_assign (st : Search num) (node temp : NodeRef) (open' : list NodeRef) :
  Inv numR numC start s0 st node ->
  InvG heuristic start target s0 st node ->
  InvGood good st node ->
  move s0 numR numC node temp ->
  (forall x, In x (seen (mkSearch open' (closedList st)
                                  (assigned heuristic target st node temp)) node) <->
             In x (seen st node) \/ x = temp) ->
  (In temp (seen st node) ->
   gtb (g (nodes st temp)) (newG (nodes st) node temp) = true) ->
  InvG heuristic start target s0
       (mkSearch open' (closedList st) (assigned heuristic target st node temp)) node /\
  InvGood good
       (mkSearch open' (closedList st) (assigned heuristic target st node temp)) node.
Proof.
  intros I G K Hmove Hseen Hlt.
  assert (Hg' : newG (nodes st) node temp =
                add (g (nodes st node)) (moveCost s0 node temp)).
  { unfold newG, moveCost.
    destruct (inv_static _ _ _ _ _ _ I temp) as [_ ->]. reflexivity. }
  assert (Hnode : In node (seen st node)) by (apply expanded_seen; right; reflexivity).
  assert (Gnode : good (g (nodes st node))) by apply K, Hnode.
  assert (Gnew : good (newG (nodes st) node temp)) by (apply newG_good; assumption).
  assert (Hne : temp <> node).
  { destruct Hmove as [_ Hs]. apply skipped_false in Hs. tauto. }
  destruct (invg_chain _ _ _ _ _ _ G node Hnode) as [ln Hln].
  assert (Hnotin : ~ In temp ln).
  { intros Hin.
    pose proof (chain_seen _ _ _ _ _ _ _ _ I Hln Hnode temp Hin) as Hts.
    pose proof (chain_le st node node ln I G K Hln Hnode temp Hin) as H1.
    pose proof (le_add_move (g (nodes st node)) node temp Gnode) as H2.
    rewrite <- Hg' in H2.
    pose proof (lte_trans _ _ _ (proj1 (K temp Hts)) Gnode Gnew H1 H2) as H3.
    unfold lte in H3. rewrite (Hlt Hts) in H3. discriminate. }
  assert (Hts : temp <> start).
  { intros ->. apply Hnotin. eapply chain_ends; eassumption. }
  assert (Hgrid : in_grid numR numC temp).
  { destruct Hmove as [Hn _]. eapply neighbours_in_grid. exact Hn. }
  unfold assigned in *.
  set (f' := newF heuristic target (nodes st) node temp) in *.
  set (g' := newG (nodes st) node temp) in *.
  set (h' := newH heuristic target temp) in *.
  pose proof (chain_assign_other (nodes st) temp node f' g' h' node ln Hln Hnotin) as Hln'.
  split.
  - constructor; simpl.
    + intros x Hx. destruct (ref_eqb x temp) eqn:E.
      * apply ref_eqb_eq in E. subst x. rewrite assign_same. simpl.
        split; reflexivity.
      * apply ref_eqb_neq in E. rewrite assign_other by assumption.
        apply (invg_hf _ _ _ _ _ _ G). apply Hseen in Hx. tauto.
    + intros x p Hx Hxs Hp. destruct (ref_eqb x temp) eqn:E.
      * apply ref_eqb_eq in E. subst x. rewrite assign_same in Hp. simpl in Hp.
        injection Hp as <-. rewrite assign_same. simpl.
        rewrite assign_other by (intros Hc; apply Hne; symmetry; exact Hc).
        subst g'. rewrite Hg'. apply lte_refl. rewrite <- Hg'. exact Gnew.
      * apply ref_eqb_neq in E. rewrite assign_other in Hp by assumption.
        rewrite (assign_other _ _ _ _ _ _ x) by assumption.
        assert (Hx' : In x (seen st node)) by (apply Hseen in Hx; tauto).
        pose proof (invg_step _ _ _ _ _ _ G x p Hx' Hxs Hp) as Hold.
        destruct (ref_eqb p temp) eqn:Ep.
        -- apply ref_eqb_eq in Ep. subst p. rewrite assign_same. simpl.
           destruct (parent_seen _ _ _ _ _ _ _ _ I Hx' Hxs Hp) as [Hpt _].
           assert (Gt : good (g (nodes st temp))) by apply K, Hpt.
           apply (lte_trans _ (add (g (nodes st temp)) (moveCost s0 temp x)));
             [apply good_add; [exact Gnew | apply moveCost_good]
             |apply good_add; [exact Gt | apply moveCost_good]
             |apply K, Hx' | | exact Hold].
           apply on_add_le_mono; [exact Gnew | exact Gt | apply moveCost_good|].
           apply gtb_le; [exact Gt | exact Gnew|]. apply Hlt. exact Hpt.
        -- apply ref_eqb_neq in Ep. rewrite assign_other by assumption. exact Hold.
    + intros x Hx. apply Hseen in Hx. destruct Hx as [Hx | ->].
      * destruct (invg_chain _ _ _ _ _ _ G x Hx) as [l Hl].
        eapply chain_reparent; eassumption.
      * exists (temp :: ln). econstructor; [assumption| |exact Hln'].
        rewrite assign_same. reflexivity.
    + rewrite assign_other by (intros Hc; apply Hts; symmetry; exact Hc).
      apply (invg_start _ _ _ _ _ _ G).
  - intros x Hx. simpl. destruct (ref_eqb x temp) eqn:E.
    + apply ref_eqb_eq in E. subst x. rewrite assign_same. simpl.
      split; [exact Gnew|]. subst h'. unfold newH. apply heuristic_good. left. exact Hgrid.
    + apply ref_eqb_neq in E. rewrite assign_other by assumption.
      apply K. apply Hseen in Hx. tauto.
Qed.

Lemma InvG_visit (st : Search num) (node temp : NodeRef) :
  Inv numR numC start s0 st node ->
  InvG heuristic start target s0 st node ->
  InvGood good st node ->
  In temp (neighbours numR numC node) ->
  InvG heuristic start target s0 (visit heuristic target node st temp) node /\
  InvGood good (visit heuristic target node st temp) node.
Proof.
  intros I G K Hn.
  destruct (visit_cases heuristic target node st temp)
    as [-> | [[Hs [Hin [Hgt ->]]] | [Hs [Ho [Hc ->]]]]].
  - split; assumption.
  - assert (Hts : In temp (seen st node)).
    { unfold seen. apply in_or_app. destruct Hin; [right; right | left]; assumption. }
    apply InvG_assign; try assumption.
    + eapply move_of_visit; eassumption.
    + intros x. unfold seen; simpl. fold (seen st node). split; [tauto|].
      intros [Hx | ->]; assumption.
    + intros _. destruct (invg_hf _ _ _ _ _ _ G temp Hts) as [Hh Hf].
      rewrite Hf, Hh in Hgt. unfold newF, newH in Hgt.
      eapply gtb_add_cancel; [apply K, Hts | apply newG_good; assumption | | exact Hgt].
      apply heuristic_good. left. eapply neighbours_in_grid. exact Hn.
  - apply InvG_assign; try assumption.
    + eapply move_of_visit; eassumption.
    + intros x. apply seen_push.
    + intros Hts. exfalso. unfold seen in Hts. apply in_app_or in Hts.
      apply skipped_false in Hs. destruct Hs as [Hne _].
      destruct Hts as [?|[?|?]]; [tauto | congruence | tauto].
Qed.

Lemma InvG_next (st : Search num) (node next : NodeRef) (rest : list NodeRef) :
  InvG heuristic start target s0 st node ->
  Permutation (next :: rest) (openList st) ->
  InvG heuristic start target s0
       (mkSearch rest (closedList st ++ [node]) (nodes st)) next.
Proof.
  intros G P. pose proof (seen_next st node next rest P) as PS.
  constructor; simpl.
  - intros x Hx. apply (invg_hf _ _ _ _ _ _ G).
    eapply Permutation_in; [exact PS | exact Hx].
  - intros x p Hx. apply (invg_step _ _ _ _ _ _ G).
    eapply Permutation_in; [exact PS | exact Hx].
  - intros x Hx. apply (invg_chain _ _ _ _ _ _ G).
    eapply Permutation_in; [exact PS | exact Hx].
  - apply (invg_start _ _ _ _ _ _ G).
Qed.

Lemma InvGood_next (st : Search num) (node next : NodeRef) (rest : list NodeRef) :
  InvGood good st node ->
  Permutation (next :: rest) (openList st) ->
  InvGood good (mkSearch rest (closedList st ++ [node]) (nodes st)) next.
Proof.
  intros K P x Hx. simpl. apply K.
  eapply Permutation_in; [exact (seen_next st node next rest P) | exact Hx].
Qed.

Lemma InvG_init :
  g (s0 start) = zero ->
  h (s0 start) = heuristic start target ->
  f (s0 start) = add (g (s0 start)) (h (s0 start)) ->
  InvG heuristic start target s0 (mkSearch [] [] s0) start.
Proof.
  intros Hg Hh Hf. constructor; unfold seen; simpl.
  - intros x [ <- | [] ]. split; assumption.
  - intros x p [ <- | [] ] Hne. contradiction.
  - intros x [ <- | [] ]. exists [start]. constructor.
  - assumption.
Qed.

Lemma InvGood_init :
  g (s0 start) = zero ->
  h (s0 start) = heuristic start target ->
  InvGood good (mkSearch [] [] s0) start.
Proof.
  intros Hg Hh x [ <- | [] ]. simpl. rewrite Hg, Hh.
  split; [apply good_zero | apply heuristic_good; right; reflexivity].
Qed.

Lemma search_ended3 (fuel : nat) :
  forall st node, Inv3 good heuristic numR numC start target s0 st node ->
  endedWith target (Inv3 good heuristic numR numC start target s0)
            (search heuristic numR numC target fuel st node).
Proof.
  apply search_preserves.
  - intros st node temp Hn [[I G] K].
    destruct (InvG_visit st node temp I G K Hn) as [G' K'].
    split; [split; [apply Inv_visit; assumption | exact G'] | exact K'].
  - intros st node next rest [[I G] K] Pm.
    split; [split; [apply Inv_next | apply InvG_next] | apply InvGood_next]; assumption.
Qed.

End Costs.

(** The order laws that hold of all numbers give those of the set of all
    numbers. *)
Lemma OrderedNum_On (O : OrderedNum num) : OrderedOn (fun _ : num => True).
Proof.
  constructor; try (intros; exact Logic.I).
  - intros a _. apply gtb_irrefl.
  - intros a b c _ _ _. apply gtb_trans.
  - intros a b c _ _ _. apply le_gtb_trans.
  - intros a b c _ _ _. apply add_le_mono.
  - intros a c _ _. apply add_nonneg.
  - intros a _ H. apply mul_nonneg; [apply one_nonneg | exact H].
  - intros a _ H. apply mul_nonneg; [apply sqrt2_nonneg | exact H].
Qed.

(** *** From the loops to [findPath] *)

Lemma findPath_set (fuel : nat) (a : AStarTiles num) (grid : Grid2D num) (s t : NodeRef) :
  startNode grid = Some s -> targetNode grid = Some t ->
  findPath fuel a grid =
  match search (_heuristic a) (numRows grid) (numCols grid) t fuel
               (entry a grid s t) s with
  | Timeout => (Diverges, withLists a grid [] [], withTiles grid (nodes (entry a grid s t)))
  | NoPath st =>
      (Path [], withLists a grid (openList st) (closedList st), withTiles grid (nodes st))
  | Found st =>
      (unwind s fuel (nodes st) t [t],
       withLists a grid (openList st) (closedList st), withTiles grid (nodes st))
  end.
Proof. intros Hs Ht. unfold findPath, loops. rewrite Hs, Ht. reflexivity. Qed.

(** A call that returns has its start set, and either its target set or a
    heuristic that does not read it. *)
Lemma findPath_path_set (fuel : nat) (a : AStarTiles num) (grid : Grid2D num)
      (p : list NodeRef) :
  fst (fst (findPath fuel a grid)) = Path p ->
  exists s, startNode grid = Some s /\
    ((exists t, targetNode grid = Some t) \/
     (exists k, targetNode grid = None /\ atNull (_heuristic a) = Some k)).
Proof.
  unfold findPath. destruct (startNode grid) as [s|]; [|discriminate].
  intros H. exists s. split; [reflexivity|].
  destruct (targetNode grid) as [t|].
  - left. exists t. reflexivity.
  - right. destruct (atNull (_heuristic a)) as [k|]; [|discriminate].
    exists k. split; reflexivity.
Qed.

(** A search without a target is the search for [noTile], with the heuristic
    that does not read its target: the two calls differ only in the target
    reference and the heuristic they leave. *)
Lemma findPath_null (fuel : nat) (a : AStarTiles num) (grid : Grid2D num)
      (s : NodeRef) (k : NodeRef -> num) :
  startNode grid = Some s -> targetNode grid = None ->
  atNull (_heuristic a) = Some k ->
  exists a1 grid1,
    findPath fuel (withHeuristic a (ignoring k)) (withTarget grid (noTile s)) =
    (fst (fst (findPath fuel a grid)), a1, grid1) /\
    _openList a1 = _openList (snd (fst (findPath fuel a grid))) /\
    _closedList a1 = _closedList (snd (fst (findPath fuel a grid))) /\
    _startNode a1 = _startNode (snd (fst (findPath fuel a grid))) /\
    tiles grid1 = tiles (snd (findPath fuel a grid)) /\
    numRows grid1 = numRows (snd (findPath fuel a grid)) /\
    numCols grid1 = numCols (snd (findPath fuel a grid)) /\
    startNode grid1 = startNode (snd (findPath fuel a grid)).
Proof.
  intros Hs Ht Hk. unfold findPath. simpl. rewrite Hs, Ht, Hk. unfold loops. simpl.
  destruct (search (ignoring k) (numRows grid) (numCols grid) (noTile s) fuel
                   (mkSearch [] [] (initStart (tiles grid) s (k s))) s);
    eexists; eexists; (split; [reflexivity|]); simpl; rewrite ?Hs; repeat split.
Qed.

Lemma entry_ended (fuel : nat) (a : AStarTiles num) (grid : Grid2D num) (s t : NodeRef) :
  ended (numRows grid) (numCols grid) s t (nodes (entry a grid s t))
        (search (_heuristic a) (numRows grid) (numCols grid) t fuel
                (entry a grid s t) s).
Proof. apply search_ended. apply Inv_init. Qed.

Lemma entry_reachable (a : AStarTiles num) (grid : Grid2D num) (s t x : NodeRef) :
  reachable (nodes (entry a grid s t) x) = reachable (tiles grid x).
Proof. apply initStart_static. Qed.

Lemma move_static (s s' : Tiles num) (R C : Z) (p x : NodeRef) :
  (forall y, reachable (s y) = reachable (s' y)) ->
  move s R C p x -> move s' R C p x.
Proof.
  intros E [Hn Hs]. split; [assumption|].
  rewrite <- Hs. symmetry. apply skipped_static. exact E.
Qed.

Lemma connected_mono (rel rel' : NodeRef -> NodeRef -> Prop) (a x : NodeRef) :
  (forall p y, rel p y -> rel' p y) ->
  connected rel a x -> connected rel' a x.
Proof.
  intros E H. induction H; [constructor|].
  econstructor; [eassumption|]. apply E. assumption.
Qed.

(** A move of the neighbour loop is a step of the movement rule. *)
Lemma move_step (s : Tiles num) (R C : Z) (p x : NodeRef) :
  move s R C p x -> step s R C p x.
Proof.
  intros [Hn Hs]. pose proof (neighbours_in_grid _ _ _ _ Hn) as Hg.
  apply In_neighbours in Hn. apply skipped_false in Hs.
  destruct Hs as [Hne [Hr [H1 H2]]].
  split; [|split; [assumption | intros _ _; split; assumption]].
  split; [assumption|]. split; [lia|]. split; [lia|].
  destruct (Z.eq_dec (row x) (row p)) as [Er|Er]; [|left; assumption].
  destruct (Z.eq_dec (col x) (col p)) as [Ec|Ec]; [|right; assumption].
  exfalso. apply Hne. destruct x, p. unfold row, col in *. simpl in *. congruence.
Qed.




(** C1: when no sequence of steps of the movement rule leads from the start
    to the target, [findPath] returns the empty path, as a result and not as
    an error, within one iteration per tile. *)
Theorem unreachable_target_empty_path :
  forall (fuel : nat) (a : AStarTiles num) (grid : Grid2D num) (s t : NodeRef),
    startNode grid = Some s ->
    targetNode grid = Some t ->
    in_grid (numRows grid) (numCols grid) s ->
    ~ connected (step (tiles grid) (numRows grid) (numCols grid)) s t ->
    (numCells (numRows grid) (numCols grid) <= fuel)%nat ->
    fst (fst (findPath fuel a grid)) = Path [].
Proof.
  intros fuel a grid s t Hs Ht Hg Hun Hfuel.
  rewrite (findPath_set fuel a grid s t Hs Ht).
  pose proof (entry_ended fuel a grid s t) as He.
  pose proof (search_terminates (_heuristic a) (numRows grid) (numCols grid) s t
                (nodes (entry a grid s t)) fuel Hg (entry a grid s t) s
                (Inv_init _ _ _ _)) as Hterm.
  destruct (search (_heuristic a) (numRows grid) (numCols grid) t fuel
                   (entry a grid s t) s) as [st | st |].
  - exfalso. apply Hun. simpl in He.
    apply (connected_mono (move (nodes (entry a grid s t)) (numRows grid) (numCols grid))).
    + intros p y Hm. apply move_step. eapply move_static; [|exact Hm].
      intros z. apply entry_reachable.
    + apply (inv_conn _ _ _ _ _ _ He). apply expanded_seen. right. reflexivity.
  - reflexivity.
  - exfalso. apply Hterm; [simpl; lia | reflexivity].
Qed.

(** What a returned path is made of: a chain of [parent] links of the final
    tiles, reversed, among the tiles the search has met. *)
Lemma findPath_path_chain (fuel : nat) (a : AStarTiles num) (grid : Grid2D num)
      (s t : NodeRef) (p : list NodeRef) :
  startNode grid = Some s -> targetNode grid = Some t ->
  fst (fst (findPath fuel a grid)) = Path p ->
  p = [] \/
  exists st l,
    search (_heuristic a) (numRows grid) (numCols grid) t fuel (entry a grid s t) s
      = Found st /\
    Inv (numRows grid) (numCols grid) s (nodes (entry a grid s t)) st t /\
    chain (nodes st) s t l /\ p = rev l.
Proof.
  intros Hs Ht. rewrite (findPath_set fuel a grid s t Hs Ht).
  pose proof (entry_ended fuel a grid s t) as He.
  destruct (search (_heuristic a) (numRows grid) (numCols grid) t fuel
                   (entry a grid s t) s) as [st | st |]; simpl.
  - intros H. right. apply unwind_chain in H. destruct H as [l [Hc ->]].
    exists st, l. rewrite app_nil_r.
    split; [reflexivity|]. split; [exact He|]. split; [assumption | reflexivity].
  - intros [= <-]. left. reflexivity.
  - discriminate.
Qed.

Lemma path_flanks_reachable (fuel : nat) (a : AStarTiles num) (grid : Grid2D num)
      (s t : NodeRef) (p : list NodeRef) :
  startNode grid = Some s -> targetNode grid = Some t ->
  fst (fst (findPath fuel a grid)) = Path p ->
  forall x y : NodeRef,
    consecutive p x y ->
    reachable (tiles grid (getNode (row x) (col y))) = true /\
    reachable (tiles grid (getNode (row y) (col x))) = true.
Proof.
  intros Hs Ht H x y Hxy.
  destruct (findPath_path_chain fuel a grid s t p Hs Ht H)
    as [-> | [st [l [_ [I [Hc ->]]]]]].
  - destruct Hxy as [l1 [l2 E]]. destruct l1; discriminate.
  - apply consecutive_rev in Hxy. destruct Hxy as [l1 [l2 E]].
    assert (Ht' : In t (seen st t)) by (apply expanded_seen; right; reflexivity).
    destruct (chain_moves _ _ _ _ _ _ _ _ I Hc Ht' l1 l2 x y E) as [_ [_ [_ [_ Hm]]]].
    apply skipped_false in Hm. destruct Hm as [_ [_ [H1 H2]]].
    unfold getNode. rewrite <- !(entry_reachable a grid s t). split; assumption.
Qed.

(** C3: a returned path has no diagonal step that cuts a corner: whenever
    two consecutive tiles differ in row and in column, the two tiles flanking
    the step (the row of one with the column of the other) are reachable. *)
Theorem no_corner_cutting :
  forall (fuel : nat) (a : AStarTiles num) (grid : Grid2D num) (p : list NodeRef),
    fst (fst (findPath fuel a grid)) = Path p ->
    forall x y : NodeRef,
      consecutive p x y -> row x <> row y -> col x <> col y ->
      reachable (tiles grid (getNode (row x) (col y))) = true /\
      reachable (tiles grid (getNode (row y) (col x))) = true.
Proof.
  intros fuel a grid p H x y Hxy _ _.
  destruct (findPath_path_set fuel a grid p H) as [s [Hs [[t Ht] | [k [Ht Hk]]]]].
  - exact (path_flanks_reachable fuel a grid s t p Hs Ht H x y Hxy).
  - destruct (findPath_null fuel a grid s k Hs Ht Hk) as [a1 [grid1 [E _]]].
    rewrite H in E.
    refine (path_flanks_reachable fuel _ (withTarget grid (noTile s)) s (noTile s) p
              Hs eq_refl _ x y Hxy).
    rewrite E. reflexivity.
Qed.



(** *** The reconstructed path and its cost *)

Lemma chain_last (s : Tiles num) (start x : NodeRef) (l : list NodeRef) :
  chain s start x l -> exists l', l = l' ++ [start].
Proof.
  intros H. induction H as [|x q l Hne Hp Hc [l' ->]].
  - exists []. reflexivity.
  - exists (x :: l'). reflexivity.
Qed.

Lemma chain_expanded (R C : Z) (start : NodeRef) (s0 : Tiles num)
      (st : Search num) (node x : NodeRef) (l : list NodeRef) :
  Inv R C start s0 st node ->
  chain (nodes st) start x l -> In x (node :: closedList st) ->
  incl l (node :: closedList st).
Proof.
  intros I H. induction H as [|x q l Hne Hp Hc IH]; intros Hx y Hy.
  - destruct Hy as [ <- | [] ]. assumption.
  - destruct Hy as [ <- | Hy]; [assumption|].
    apply IH; [|assumption].
    assert (Hseen : In x (seen st node)).
    { apply expanded_seen. destruct Hx as [ <- | Hx]; [right; reflexivity | left; assumption]. }
    destruct (inv_parent _ _ _ _ _ _ I x Hseen Hne) as [q' [Hq' [Hin _]]].
    assert (q' = q) by congruence. subst q'.
    destruct Hin as [Hin | ->]; [right; assumption | left; reflexivity].
Qed.

Lemma costFrom_snoc (s : Tiles num) (r : list NodeRef) :
  forall acc prev q x,
  costFrom s acc prev (r ++ [q; x]) =
  add (costFrom s acc prev (r ++ [q])) (moveCost s q x).
Proof.
  induction r as [|y r IH]; intros acc prev q x; simpl; [reflexivity|].
  apply IH.
Qed.

Lemma pathCost_rev_cons (s : Tiles num) (x q : NodeRef) (l : list NodeRef) :
  pathCost s (rev (x :: q :: l)) =
  add (pathCost s (rev (q :: l))) (moveCost s q x).
Proof.
  simpl. rewrite <- app_assoc. simpl.
  destruct (rev l) as [|y r]; simpl; [reflexivity|].
  apply costFrom_snoc.
Qed.

Lemma costFrom_ext (s s' : Tiles num) :
  (forall x, multiplier (s x) = multiplier (s' x)) ->
  forall p acc prev, costFrom s acc prev p = costFrom s' acc prev p.
Proof.
  intros E. induction p as [|x p IH]; intros acc prev; simpl; [reflexivity|].
  unfold moveCost. rewrite E. apply IH.
Qed.

Lemma pathCost_ext (s s' : Tiles num) (p : list NodeRef) :
  (forall x, multiplier (s x) = multiplier (s' x)) ->
  pathCost s p = pathCost s' p.
Proof.
  intros E. destruct p as [|x p]; simpl; [reflexivity|]. apply costFrom_ext, E.
Qed.

Section Outcome.

Context {good : num -> Prop} {O : OrderedOn good}.

Variables (a : AStarTiles num) (grid : Grid2D num) (s t : NodeRef).
Hypothesis multiplier_good :
  forall x, good (multiplier (tiles grid x)) /\ lte zero (multiplier (tiles grid x)).
Hypothesis heuristic_good :
  forall x, in_grid (numRows grid) (numCols grid) x \/ x = s ->
            good (_heuristic a x t).

Lemma entry_multiplier (x : NodeRef) : multiplier ((nodes (entry a grid s t)) x) = multiplier (tiles grid x).
Proof. apply initStart_static. Qed.

Lemma entry_good (x : NodeRef) :
  good (multiplier ((nodes (entry a grid s t)) x)) /\
  lte zero (multiplier ((nodes (entry a grid s t)) x)).
Proof. rewrite entry_multiplier. apply multiplier_good. Qed.

Lemma entry_ended3 (fuel : nat) :
  endedWith t (Inv3 good (_heuristic a) (numRows grid) (numCols grid) s t
                    (nodes (entry a grid s t)))
    (search (_heuristic a) (numRows grid) (numCols grid) t fuel (entry a grid s t) s).
Proof.
  apply search_ended3; [exact entry_good | exact heuristic_good|].
  split; [split; [apply Inv_init|]|].
  - apply InvG_init; unfold entry, initStart; simpl;
      rewrite ref_eqb_refl; reflexivity.
  - apply (InvGood_init (_heuristic a) (numRows grid) (numCols grid) s t
             (nodes (entry a grid s t)) heuristic_good);
      unfold entry, initStart; simpl; rewrite ref_eqb_refl; reflexivity.
Qed.

(** The cost of the path from the start to [x] is at most the [g] of [x]. *)
Lemma chain_cost (st : Search num) (node x : NodeRef) (l : list NodeRef) :
  Inv3 good (_heuristic a) (numRows grid) (numCols grid) s t
       (nodes (entry a grid s t)) st node ->
  chain (nodes st) s x l -> In x (seen st node) ->
  good (pathCost (nodes (entry a grid s t)) (rev l)) /\
  lte (pathCost (nodes (entry a grid s t)) (rev l)) (g (nodes st x)).
Proof.
  intros [[I G] K] H. induction H as [|x q l Hne Hp Hc IH]; intros Hx.
  - simpl. rewrite (invg_start _ _ _ _ _ _ G).
    split; [apply good_zero | apply lte_refl, good_zero].
  - destruct (parent_seen _ _ _ _ _ _ _ _ I Hx Hne Hp) as [Hq _].
    destruct (IH Hq) as [GP LP].
    destruct (chain_head _ _ _ _ Hc) as [l' ->].
    rewrite pathCost_rev_cons.
    pose proof (moveCost_good (nodes (entry a grid s t)) entry_good q x) as Gc.
    assert (Gq : good (g (nodes st q))) by apply K, Hq.
    split; [apply good_add; assumption|].
    apply (lte_trans _ (add (g (nodes st q)) (moveCost (nodes (entry a grid s t)) q x)));
      [apply good_add; assumption | apply good_add; assumption | apply K, Hx | |].
    + apply on_add_le_mono; assumption.
    + apply (invg_step _ _ _ _ _ _ G); assumption.
Qed.

(** Once the main loop stops on the target, the [parent] links lead back to
    the start, and the reconstruction loop returns them reversed within the
    iterations the main loop took. *)
Lemma found_unwinds (fuel : nat) (st : Search num) :
  search (_heuristic a) (numRows grid) (numCols grid) t fuel (entry a grid s t) s
    = Found st ->
  Inv3 good (_heuristic a) (numRows grid) (numCols grid) s t
       (nodes (entry a grid s t)) st t /\
  exists l, chain (nodes st) s t l /\ NoDup l /\
            unwind s fuel (nodes st) t [t] = Path (rev l).
Proof.
  intros Hf. pose proof (entry_ended3 fuel) as He. rewrite Hf in He. simpl in He.
  split; [exact He|]. destruct He as [[I G] K].
  assert (Ht : In t (seen st t)) by (apply expanded_seen; right; reflexivity).
  destruct (invg_chain _ _ _ _ _ _ G t Ht) as [l Hl].
  exists l. split; [assumption|].
  pose proof (chain_NoDup _ _ _ _ Hl) as Hnd. split; [assumption|].
  rewrite <- (app_nil_r (rev l)). apply chain_unwind; [assumption|].
  pose proof (chain_expanded _ _ _ _ _ _ _ _ I Hl (or_introl eq_refl)) as Hincl.
  pose proof (NoDup_incl_length Hnd Hincl) as Hlen. simpl in Hlen.
  pose proof (search_closed_length _ _ _ _ _ _ _ _ Hf) as Hcl. simpl in Hcl. lia.
Qed.

End Outcome.

(** The costs along a returned path, for numbers with the order laws on
    their good ones: with good multipliers and heuristic values, [g] never
    decreases along the path, the [g] of a tile is at least the sum of the
    [g] of the tile before it and the cost of the step, and the [g] of the
    target is at least the sum of the step costs. *)
Lemma path_costs_on :
  forall (good : num -> Prop) (O : OrderedOn good) (fuel : nat)
         (a a' : AStarTiles num) (grid grid' : Grid2D num) (p : list NodeRef)
         (s t : NodeRef),
    (forall x, good (multiplier (tiles grid x)) /\ lte zero (multiplier (tiles grid x))) ->
    startNode grid = Some s ->
    targetNode grid = Some t ->
    (forall x, in_grid (numRows grid) (numCols grid) x \/ x = s ->
               good (_heuristic a x t)) ->
    findPath fuel a grid = (Path p, a', grid') ->
    p <> [] ->
    (forall x, In x p -> good (g (tiles grid' x))) /\
    (forall x y, consecutive p x y ->
       lte (g (tiles grid' x)) (g (tiles grid' y)) /\
       lte (add (g (tiles grid' x)) (moveCost (tiles grid) x y)) (g (tiles grid' y))) /\
    good (pathCost (tiles grid) p) /\
    lte (pathCost (tiles grid) p) (g (tiles grid' t)).
Proof.
  intros good O fuel a a' grid grid' p s t Hm Hs Ht Hh H Hne.
  assert (Hp : fst (fst (findPath fuel a grid)) = Path p) by (rewrite H; reflexivity).
  destruct (findPath_path_chain fuel a grid s t p Hs Ht Hp)
    as [-> | [st [l [Hf [I [Hc ->]]]]]]; [contradiction|].
  rewrite (findPath_set fuel a grid s t Hs Ht), Hf in H.
  injection H as _ _ <-. simpl.
  destruct (found_unwinds a grid s t Hm Hh fuel st Hf) as [[[_ G] K] _].
  assert (Hts : In t (seen st t)) by (apply expanded_seen; right; reflexivity).
  assert (Hmc : forall x y, moveCost (nodes (entry a grid s t)) x y
                            = moveCost (tiles grid) x y).
  { intros x y. unfold moveCost. rewrite (entry_multiplier a grid s t). reflexivity. }
  assert (Hmg : forall x y, good (moveCost (tiles grid) x y)).
  { intros x y. rewrite <- Hmc.
    apply (moveCost_good (nodes (entry a grid s t)) (entry_good a grid s t Hm)). }
  split; [|split].
  - intros x Hx. apply K. apply in_rev in Hx.
    eapply chain_seen; eassumption.
  - intros x y Hxy. apply consecutive_rev in Hxy. destruct Hxy as [l1 [l2 E]].
    destruct (chain_moves _ _ _ _ _ _ _ _ I Hc Hts l1 l2 x y E) as [Hpar [Hys [Hy _]]].
    pose proof (invg_step _ _ _ _ _ _ G y x Hy Hys Hpar) as Hstep.
    rewrite Hmc in Hstep. split; [|exact Hstep].
    assert (Hxs : In x (seen st t)).
    { apply (chain_seen _ _ _ _ _ _ _ _ I Hc Hts). rewrite E.
      apply in_or_app. right. right. left. reflexivity. }
    assert (Gx : good (g (nodes st x))) by apply K, Hxs.
    apply (lte_trans _ (add (g (nodes st x)) (moveCost (tiles grid) x y)));
      [exact Gx | apply good_add; [exact Gx | apply Hmg] | apply K, Hy | | exact Hstep].
    rewrite <- Hmc.
    apply (le_add_move (nodes (entry a grid s t)) (entry_good a grid s t Hm)). exact Gx.
  - rewrite <- (pathCost_ext (nodes (entry a grid s t)))
      by (intros x; apply entry_multiplier).
    apply (chain_cost a grid s t Hm st t t l); [|assumption | assumption].
    split; [split|]; assumption.
Qed.

(** C8: [findPath] terminates.  On a grid that holds its start, the main
    loop ends within one iteration per tile: it never runs out of that many
    iterations, no tile is twice on the lists it leaves, and the closed list,
    which gets one tile per iteration, is no longer than the grid has tiles.
    In exact arithmetic and with non-negative multipliers the reconstruction
    ends as well and the call returns a path. *)
Theorem findPath_terminates :
  forall (fuel : nat) (a : AStarTiles num) (grid : Grid2D num) (s t : NodeRef),
    startNode grid = Some s ->
    targetNode grid = Some t ->
    in_grid (numRows grid) (numCols grid) s ->
    (numCells (numRows grid) (numCols grid) <= fuel)%nat ->
    let a' := snd (fst (findPath fuel a grid)) in
    search (_heuristic a) (numRows grid) (numCols grid) t fuel (entry a grid s t) s
      <> @Timeout num /\
    NoDup (_closedList a' ++ _openList a') /\
    (length (_closedList a') <= numCells (numRows grid) (numCols grid))%nat /\
    (OrderedNum num -> (forall x, lte zero (multiplier (tiles grid x))) ->
     exists p, fst (fst (findPath fuel a grid)) = Path p).
Proof.
  intros fuel a grid s t Hs Ht Hg Hfuel a'. subst a'.
  pose proof (search_terminates (_heuristic a) (numRows grid) (numCols grid) s t
                (nodes (entry a grid s t)) fuel Hg (entry a grid s t) s
                (Inv_init _ _ _ _)) as Hterm.
  assert (Hnt : search (_heuristic a) (numRows grid) (numCols grid) t fuel
                       (entry a grid s t) s <> @Timeout num)
    by (apply Hterm; simpl; lia).
  split; [exact Hnt|].
  rewrite (findPath_set fuel a grid s t Hs Ht).
  pose proof (entry_ended fuel a grid s t) as He.
  destruct (search (_heuristic a) (numRows grid) (numCols grid) t fuel
                   (entry a grid s t) s) as [st | st |] eqn:Hf; simpl;
    [| |contradiction].
  - simpl in He. pose proof (inv_nodup _ _ _ _ _ _ He) as Hnd. unfold seen in Hnd.
    split; [eapply NoDup_remove_1; exact Hnd|]. split.
    + pose proof (distinct_tiles_bound _ _ _ Hnd
                    (seen_in_grid _ _ _ _ _ _ Hg He)) as Hb.
      rewrite length_app in Hb. lia.
    + intros O Hm.
      destruct (found_unwinds (O := OrderedNum_On O) a grid s t
                  (fun x => conj Logic.I (Hm x)) (fun _ _ => Logic.I) fuel st Hf)
        as [_ [l [_ [_ Hu]]]].
      exists (rev l). exact Hu.
  - destruct He as [st1 [node [I [Ho ->]]]]. simpl. rewrite app_nil_r.
    pose proof (inv_nodup _ _ _ _ _ _ I) as Hnd. unfold seen in Hnd. rewrite Ho in Hnd.
    split; [exact Hnd|]. split.
    + apply (distinct_tiles_bound _ _ _ Hnd). intros x Hx.
      apply (seen_in_grid _ _ _ _ _ _ Hg I). unfold seen. rewrite Ho. exact Hx.
    + intros _ _. exists []. reflexivity.
Qed.

(** The chain of parents, for numbers with the order laws on their good
    ones: when the main loop stops on the target, the [parent] links from the
    target form a chain without repetition that ends at the start, and the
    reconstruction loop returns it reversed. *)
Lemma parent_chain_on :
  forall (good : num -> Prop) (O : OrderedOn good) (fuel : nat)
         (a : AStarTiles num) (grid : Grid2D num) (s t : NodeRef) (st : Search num),
    startNode grid = Some s ->
    targetNode grid = Some t ->
    (forall x, good (multiplier (tiles grid x)) /\ lte zero (multiplier (tiles grid x))) ->
    (forall x, in_grid (numRows grid) (numCols grid) x \/ x = s ->
               good (_heuristic a x t)) ->
    search (_heuristic a) (numRows grid) (numCols grid) t fuel (entry a grid s t) s
      = Found st ->
    exists l,
      chain (nodes st) s t l /\ NoDup l /\
      fst (fst (findPath fuel a grid)) = Path (rev l) /\
      hd_error (rev l) = Some s /\ last (rev l) s = t /\
      (forall x y, consecutive (rev l) x y -> parent (nodes st y) = Some x).
Proof.
  intros good O fuel a grid s t st Hs Ht Hm Hh Hf.
  destruct (found_unwinds a grid s t Hm Hh fuel st Hf) as [[[I G] K] [l [Hc [Hnd Hu]]]].
  exists l. split; [assumption|]. split; [assumption|].
  split; [rewrite (findPath_set fuel a grid s t Hs Ht), Hf; exact Hu|].
  split; [|split].
  - destruct (chain_last _ _ _ _ Hc) as [l' ->]. rewrite rev_app_distr. reflexivity.
  - destruct (chain_head _ _ _ _ Hc) as [l' ->]. simpl. apply last_last.
  - intros x y Hxy. apply consecutive_rev in Hxy. destruct Hxy as [l1 [l2 E]].
    assert (Hts : In t (seen st t)) by (apply expanded_seen; right; reflexivity).
    destruct (chain_moves _ _ _ _ _ _ _ _ I Hc Hts l1 l2 x y E) as [Hpar _].
    exact Hpar.
Qed.

(** C5: a neighbour that passes the test of the loop and is already on the
    open or the closed list has its [parent], [g], [h] and [f] reassigned when
    the tentative [f] through the current node is strictly less than the one
    stored, and only then; otherwise the tile, like every other tile and both
    lists, is left as it was. *)
Theorem listed_neighbour_reassigned_iff_better :
  forall (heuristic : IHeuristic num) (target node : NodeRef) (st : Search num)
         (temp : NodeRef),
    skipped (nodes st) node temp = false ->
    __isInOpenList st temp || __isInClosedList st temp = true ->
    let g' := add (g (nodes st node))
                  (mul (stepCost node temp) (multiplier (nodes st temp))) in
    let h' := heuristic temp target in
    let f' := add g' h' in
    let st' := visit heuristic target node st temp in
    openList st' = openList st /\
    closedList st' = closedList st /\
    (forall m, m <> temp -> nodes st' m = nodes st m) /\
    (gtb (f (nodes st temp)) f' = true ->
       parent (nodes st' temp) = Some node /\
       g (nodes st' temp) = g' /\ h (nodes st' temp) = h' /\ f (nodes st' temp) = f') /\
    (gtb (f (nodes st temp)) f' = false -> nodes st' temp = nodes st temp).
Proof.
  intros heuristic target node st temp Hs Hl g' h' f' st'.
  subst st'. unfold visit. rewrite Hs, Hl. fold g'. fold h'. fold f'.
  destruct (gtb (f (nodes st temp)) f') eqn:Hg; simpl.
  - repeat split; try discriminate.
    + intros m Hm. apply assign_other. assumption.
    + rewrite assign_same. reflexivity.
    + rewrite assign_same. reflexivity.
    + rewrite assign_same. reflexivity.
    + rewrite assign_same. reflexivity.
  - repeat split; try discriminate; reflexivity.
Qed.

(** C6, as the code has it: [findPath] enters its main loop with both lists
    empty and with [g = 0], [h = heuristic(start, target)], [f = g + h] on
    the start tile.  Nothing else is reset: the start keeps its [parent], and
    every other tile keeps all its fields until the search first lists it. *)
Theorem only_start_initialised :
  forall (fuel : nat) (a : AStarTiles num) (grid : Grid2D num) (s t : NodeRef),
    startNode grid = Some s ->
    targetNode grid = Some t ->
    let st := entry a grid s t in
    findPath fuel a grid =
      match search (_heuristic a) (numRows grid) (numCols grid) t fuel st s with
      | Timeout => (Diverges, withLists a grid [] [], withTiles grid (nodes st))
      | NoPath st' =>
          (Path [], withLists a grid (openList st') (closedList st'),
           withTiles grid (nodes st'))
      | Found st' =>
          (unwind s fuel (nodes st') t [t],
           withLists a grid (openList st') (closedList st'),
           withTiles grid (nodes st'))
      end /\
    openList st = [] /\ closedList st = [] /\
    g (nodes st s) = zero /\
    h (nodes st s) = _heuristic a s t /\
    f (nodes st s) = add zero (_heuristic a s t) /\
    parent (nodes st s) = parent (tiles grid s) /\
    (forall x, x <> s -> nodes st x = tiles grid x).
Proof.
  intros fuel a grid s t Hs Ht st. subst st.
  split; [apply findPath_set; assumption|].
  unfold entry, initStart; simpl. rewrite ref_eqb_refl; simpl.
  repeat split; try reflexivity.
  intros x Hx. apply ref_eqb_neq in Hx. rewrite Hx. reflexivity.
Qed.

(** A search without a target never ends on the target: [noTile] is not
    among the tiles it meets. *)
Lemma noTile_not_found (heur : IHeuristic num) (R C : Z) (s : NodeRef)
      (s0 : Tiles num) (fuel : nat) (st : Search num) :
  search heur R C (noTile s) fuel (mkSearch [] [] s0) s <> Found st.
Proof.
  intros H.
  pose proof (search_ended heur R C s (noTile s) s0 fuel _ _
                (Inv_init R C s s0)) as He.
  rewrite H in He. simpl in He.
  assert (Hin : In (noTile s) (seen st (noTile s)))
    by (apply expanded_seen; right; reflexivity).
  assert (Hne : noTile s <> s).
  { destruct s as [r c]. unfold noTile, row. simpl. intros [= E _]. lia. }
  pose proof (inv_grid _ _ _ _ _ _ He _ Hin Hne) as [Hr _].
  unfold noTile, row in Hr. simpl in Hr. lia.
Qed.

Lemma no_target_no_path (fuel : nat) (a : AStarTiles num) (grid : Grid2D num)
      (p : list NodeRef) :
  targetNode grid = None -> fst (fst (findPath fuel a grid)) = Path p -> p = [].
Proof.
  intros Ht. unfold findPath. rewrite Ht.
  destruct (startNode grid) as [s|]; [|discriminate].
  destruct (atNull (_heuristic a)) as [k|]; [|discriminate].
  unfold loops.
  pose proof (noTile_not_found (ignoring k) (numRows grid) (numCols grid) s
                (initStart (tiles grid) s (ignoring k s (noTile s))) fuel) as Hnf.
  destruct (search (ignoring k) (numRows grid) (numCols grid) (noTile s) fuel
                   (mkSearch [] [] (initStart (tiles grid) s
                                      (ignoring k s (noTile s)))) s)
    as [st | st |]; simpl.
  - exfalso. apply (Hnf st). reflexivity.
  - intros [= <-]. reflexivity.
  - discriminate.
Qed.

(** C7, as the code has it: [findPath] checks neither that the start and the
    target are set nor that they are reachable.  With both set it raises no
    error, whatever their reachability.  With the start unset it throws a
    TypeError once the lists are emptied and the references copied.  With
    only the target unset, a heuristic that reads its target throws after [g]
    of the start is set to 0 as well; with a heuristic that does not, no
    error is raised either: the search runs, no node is the target, and the
    only path returned is the empty one, which a grid that holds its start
    gets within one iteration per tile. *)
Theorem findPath_unchecked :
  forall (fuel : nat) (a : AStarTiles num) (grid : Grid2D num),
    match startNode grid, targetNode grid with
    | None, _ =>
        findPath fuel a grid = (TypeError, withLists a grid [] [], grid)
    | Some s, None =>
        match atNull (_heuristic a) with
        | None =>
            findPath fuel a grid =
            (TypeError, withLists a grid [] [],
             withTiles grid (setG (tiles grid) s zero))
        | Some k =>
            fst (fst (findPath fuel a grid)) <> TypeError /\
            (forall p, fst (fst (findPath fuel a grid)) = Path p -> p = []) /\
            (in_grid (numRows grid) (numCols grid) s ->
             (numCells (numRows grid) (numCols grid) <= fuel)%nat ->
             fst (fst (findPath fuel a grid)) = Path [])
        end
    | Some s, Some t =>
        fst (fst (findPath fuel a grid)) <> TypeError
    end.
Proof.
  intros fuel a grid.
  destruct (startNode grid) as [s|] eqn:Hs.
  - destruct (targetNode grid) as [t|] eqn:Ht.
    + rewrite (findPath_set fuel a grid s t Hs Ht).
      pose proof (entry_ended fuel a grid s t) as He.
      destruct (search (_heuristic a) (numRows grid) (numCols grid) t fuel
                       (entry a grid s t) s) as [st | st |]; simpl;
        [|discriminate|discriminate].
      simpl in He. eapply unwind_safe; [exact He|].
      apply expanded_seen. right. reflexivity.
    + destruct (atNull (_heuristic a)) as [k|] eqn:Hk.
      * unfold findPath. rewrite Hs, Ht, Hk. unfold loops.
        pose proof (noTile_not_found (ignoring k) (numRows grid) (numCols grid) s
                      (initStart (tiles grid) s (ignoring k s (noTile s))) fuel) as Hnf.
        pose proof (fun Hg => search_terminates (ignoring k) (numRows grid)
                      (numCols grid) s (noTile s)
                      (initStart (tiles grid) s (ignoring k s (noTile s)))
                      fuel Hg _ _ (Inv_init _ _ _ _)) as Hterm.
        destruct (search (ignoring k) (numRows grid) (numCols grid) (noTile s) fuel
                         (mkSearch [] [] (initStart (tiles grid) s
                                            (ignoring k s (noTile s)))) s)
          as [st | st |]; simpl.
        -- exfalso. apply (Hnf st). reflexivity.
        -- split; [discriminate|]. split; [intros p [= <-]; reflexivity|].
           intros _ _. reflexivity.
        -- split; [discriminate|]. split; [discriminate|].
           intros Hg Hfuel. exfalso.
           apply (Hterm Hg); [simpl; lia | reflexivity].
      * unfold findPath. rewrite Hs, Ht, Hk. reflexivity.
  - unfold findPath. rewrite Hs. reflexivity.
Qed.

(** C10: when the start and the target of the grid are the same tile,
    [findPath] returns the path made of that tile alone, whatever its
    reachability and multiplier; neither loop is entered (no iteration is
    needed). *)
Theorem findPath_start_is_target :
  forall (fuel : nat) (a : AStarTiles num) (grid : Grid2D num) (s : NodeRef),
    startNode grid = Some s ->
    targetNode grid = Some s ->
    fst (fst (findPath fuel a grid)) = Path [s].
Proof.
  intros fuel a grid s Hs Ht. unfold findPath, loops. rewrite Hs, Ht.
  rewrite search_at_target. cbn [fst]. apply unwind_at_start.
Qed.

End Claims.


(** ** The order of binary64 on the numbers that are not negative

    The primitive floats are specified by [Prim2SF] and the operations of
    [SpecFloat] (the axioms of [FloatAxioms]).  A float that is not negative
    has a value, a natural number of units of [2 ^ -1074]; comparison is
    comparison of values, and the sum of two such floats has the value of the
    sum rounded, which is monotone. *)

Module Binary64Facts.
Import Float64.

Lemma pow2_pos (k : Z) : 0 <= k -> 0 < 2 ^ k.
Proof. intros H. apply Z.pow_pos_nonneg; lia. Qed.

Lemma pow2_add (a b : Z) : 0 <= a -> 0 <= b -> 2 ^ (a + b) = 2 ^ a * 2 ^ b.
Proof. intros. apply Z.pow_add_r; assumption. Qed.

Lemma pow2_le (a b : Z) : 0 <= a <= b -> 2 ^ a <= 2 ^ b.
Proof. intros. apply Z.pow_le_mono_r; lia. Qed.

Lemma pow2_lt (a b : Z) : 0 <= a < b -> 2 ^ a < 2 ^ b.
Proof. intros. apply Z.pow_lt_mono_r; lia. Qed.

Lemma pow2_succ (a : Z) : 0 <= a -> 2 ^ (a + 1) = 2 * 2 ^ a.
Proof. intros. rewrite pow2_add by lia. change (2 ^ 1) with 2. lia. Qed.

Lemma digits2_bounds (m : positive) :
  2 ^ (Zpos (digits2_pos m) - 1) <= Zpos m < 2 ^ Zpos (digits2_pos m).
Proof.
  induction m as [p IH | p IH |]; simpl digits2_pos.
  - rewrite Pos2Z.inj_succ. unfold Z.succ.
    replace (Z.pos (digits2_pos p) + 1 - 1) with ((Z.pos (digits2_pos p) - 1) + 1) by lia.
    rewrite !pow2_succ by lia. lia.
  - rewrite Pos2Z.inj_succ. unfold Z.succ.
    replace (Z.pos (digits2_pos p) + 1 - 1) with ((Z.pos (digits2_pos p) - 1) + 1) by lia.
    rewrite !pow2_succ by lia. lia.
  - simpl. lia.
Qed.

Lemma Zdigits2_bounds (N : Z) :
  0 < N -> 0 < Zdigits2 N /\ 2 ^ (Zdigits2 N - 1) <= N < 2 ^ Zdigits2 N.
Proof.
  destruct N as [|p|p]; try lia. intros _. simpl. split; [lia|]. apply digits2_bounds.
Qed.

Lemma Zdigits2_unique (N d : Z) :
  0 < N -> 2 ^ (d - 1) <= N < 2 ^ d -> Zdigits2 N = d.
Proof.
  intros HN [H1 H2]. destruct (Zdigits2_bounds N HN) as [Hd [H3 H4]].
  assert (Hd0 : 0 < d).
  { destruct (Z_lt_le_dec 0 d); [assumption|].
    rewrite (Z.pow_neg_r 2 (d - 1)) in H1 by lia.
    destruct (Z.eq_dec d 0) as [-> | Hne]; [simpl in H2; lia|].
    rewrite Z.pow_neg_r in H2 by lia. lia. }
  destruct (Z_lt_le_dec (Zdigits2 N) d) as [Hlt | Hge].
  - assert (2 ^ Zdigits2 N <= 2 ^ (d - 1)) by (apply pow2_le; lia). lia.
  - destruct (Z_lt_le_dec d (Zdigits2 N)) as [Hlt | Hle]; [|lia].
    assert (2 ^ d <= 2 ^ (Zdigits2 N - 1)) by (apply pow2_le; lia). lia.
Qed.

Lemma Zdigits2_nonneg (N : Z) : 0 <= Zdigits2 N.
Proof. destruct N; simpl; lia. Qed.

Lemma Zdigits2_mono (N1 N2 : Z) : 0 <= N1 <= N2 -> Zdigits2 N1 <= Zdigits2 N2.
Proof.
  intros [H0 H]. destruct (Z.eq_dec N1 0) as [-> | Hne]; [apply Zdigits2_nonneg|].
  destruct (Zdigits2_bounds N1) as [Hd1 [H1 _]]; [lia|].
  destruct (Zdigits2_bounds N2) as [Hd2 [_ H2]]; [lia|].
  destruct (Z_lt_le_dec (Zdigits2 N2) (Zdigits2 N1)) as [Hlt | Hle]; [|assumption].
  assert (2 ^ Zdigits2 N2 <= 2 ^ (Zdigits2 N1 - 1)) by (apply pow2_le; lia). lia.
Qed.

Lemma Zdigits2_shift (N j : Z) :
  0 < N -> 0 <= j -> Zdigits2 (N * 2 ^ j) = Zdigits2 N + j.
Proof.
  intros HN Hj. destruct (Zdigits2_bounds N HN) as [Hd [H1 H2]].
  pose proof (pow2_pos j Hj) as Hp.
  apply Zdigits2_unique; [nia|].
  replace (Zdigits2 N + j - 1) with ((Zdigits2 N - 1) + j) by lia.
  rewrite !pow2_add by lia. nia.
Qed.

Lemma rshift_nonneg (N : Z) : 0 <= rshift N.
Proof. unfold rshift. lia. Qed.

Lemma rnd_spec (N : Z) :
  0 <= N ->
  exists q', N / 2 ^ rshift N <= q' <= N / 2 ^ rshift N + 1 /\
             rnd N = q' * 2 ^ rshift N /\
             2 * rnd N <= 2 * N + 2 ^ rshift N /\
             2 * N <= 2 * rnd N + 2 ^ rshift N.
Proof.
  intros HN. unfold rnd.
  pose proof (pow2_pos (rshift N) (rshift_nonneg N)) as Hc.
  set (c := 2 ^ rshift N) in *.
  pose proof (Z.div_mod N c ltac:(lia)) as Hdm.
  pose proof (Z.mod_pos_bound N c Hc) as Hr.
  set (q := N / c) in *. set (r := N mod c) in *.
  destruct ((c <? 2 * r) || ((2 * r =? c) && Z.odd q)) eqn:E.
  - exists (q + 1). split; [lia|]. split; [reflexivity|].
    apply orb_true_iff in E. destruct E as [E | E].
    + apply Z.ltb_lt in E. nia.
    + apply andb_true_iff in E. destruct E as [E _]. apply Z.eqb_eq in E. nia.
  - exists q. split; [lia|]. split; [reflexivity|].
    apply orb_false_iff in E. destruct E as [E _]. apply Z.ltb_ge in E. nia.
Qed.

Lemma rnd_small (N : Z) : 0 <= N -> Zdigits2 N <= 53 -> rnd N = N.
Proof.
  intros HN Hd. unfold rnd, rshift. rewrite Z.max_r by lia.
  change (2 ^ 0) with 1. rewrite Z.div_1_r, Z.mod_1_r. simpl. lia.
Qed.

Lemma rnd_mono_same (N1 N2 : Z) :
  0 <= N1 <= N2 -> rshift N1 = rshift N2 -> rnd N1 <= rnd N2.
Proof.
  intros [H0 H] Hk.
  destruct (rnd_spec N1 H0) as [q1 [_ [E1 [A1 B1]]]].
  destruct (rnd_spec N2 ltac:(lia)) as [q2 [_ [E2 [A2 B2]]]].
  rewrite <- Hk in *.
  pose proof (pow2_pos (rshift N1) (rshift_nonneg N1)) as Hc.
  set (c := 2 ^ rshift N1) in *.
  destruct (Z.eq_dec N1 N2) as [-> | Hne]; [lia|].
  destruct (Z_le_gt_dec q1 q2) as [Hle | Hgt]; [rewrite E1, E2; nia|].
  exfalso. assert (q2 * c + c <= q1 * c) by nia. lia.
Qed.

Lemma rnd_binade (N : Z) :
  0 < N -> 53 < Zdigits2 N ->
  2 ^ (Zdigits2 N - 1) <= rnd N <= 2 ^ Zdigits2 N.
Proof.
  intros HN Hd.
  destruct (Zdigits2_bounds N HN) as [_ [H1 H2]].
  destruct (rnd_spec N ltac:(lia)) as [q' [[Q1 Q2] [E _]]].
  assert (Hk : rshift N = Zdigits2 N - 53) by (unfold rshift; lia).
  rewrite Hk in *.
  pose proof (pow2_pos (Zdigits2 N - 53) ltac:(lia)) as Hc.
  set (c := 2 ^ (Zdigits2 N - 53)) in *.
  assert (Hlo : 2 ^ (Zdigits2 N - 1) = 2 ^ 52 * c).
  { unfold c. rewrite <- pow2_add by lia. f_equal. lia. }
  assert (Hhi : 2 ^ Zdigits2 N = 2 ^ 53 * c).
  { unfold c. rewrite <- pow2_add by lia. f_equal. lia. }
  rewrite Hlo, Hhi in *.
  assert (Hq1 : 2 ^ 52 <= N / c) by (apply Z.div_le_lower_bound; lia).
  assert (Hq2 : N / c < 2 ^ 53) by (apply Z.div_lt_upper_bound; lia).
  rewrite E. split; nia.
Qed.

Lemma rnd_mono (N1 N2 : Z) : 0 <= N1 <= N2 -> rnd N1 <= rnd N2.
Proof.
  intros [H0 H].
  destruct (Z.eq_dec (rshift N1) (rshift N2)) as [Hk | Hk];
    [apply rnd_mono_same; [lia | assumption]|].
  pose proof (Zdigits2_mono N1 N2 ltac:(lia)) as Hd.
  assert (Hlt : Zdigits2 N1 < Zdigits2 N2 /\ 53 < Zdigits2 N2)
    by (unfold rshift in Hk; lia).
  destruct Hlt as [Hlt H53].
  assert (HN2 : 0 < N2).
  { destruct (Z.eq_dec N2 0) as [-> | ?]; [simpl in H53; lia | lia]. }
  destruct (rnd_binade N2 HN2 H53) as [Hlo _].
  assert (Hup : rnd N1 <= 2 ^ Zdigits2 N1).
  { destruct (Z_le_gt_dec (Zdigits2 N1) 53) as [Hs | Hb].
    - rewrite rnd_small by assumption.
      destruct (Z.eq_dec N1 0) as [-> | ?]; [simpl; lia|].
      destruct (Zdigits2_bounds N1) as [_ [_ ?]]; lia.
    - assert (0 < N1).
      { destruct (Z.eq_dec N1 0) as [-> | ?]; [simpl in Hb; lia | lia]. }
      apply rnd_binade; lia. }
  assert (2 ^ Zdigits2 N1 <= 2 ^ (Zdigits2 N2 - 1)).
  { apply pow2_le. pose proof (Zdigits2_nonneg N1). lia. }
  lia.
Qed.

Lemma rnd_exact (m j : Z) :
  0 < m -> 0 <= j -> Zdigits2 m <= 53 -> rnd (m * 2 ^ j) = m * 2 ^ j.
Proof.
  intros Hm Hj Hd. unfold rnd.
  assert (Hk : 0 <= rshift (m * 2 ^ j) <= j).
  { unfold rshift. rewrite Zdigits2_shift by assumption. lia. }
  set (k := rshift (m * 2 ^ j)) in *.
  pose proof (pow2_pos k ltac:(lia)) as Hc.
  assert (E : m * 2 ^ j = (m * 2 ^ (j - k)) * 2 ^ k).
  { rewrite <- Z.mul_assoc, <- pow2_add by lia. do 2 f_equal. lia. }
  assert (Hdiv : m * 2 ^ j / 2 ^ k = m * 2 ^ (j - k))
    by (rewrite E; apply Z.div_mul; lia).
  assert (Hmod : (m * 2 ^ j) mod 2 ^ k = 0)
    by (rewrite E; apply Z.mod_mul; lia).
  rewrite Hdiv, Hmod.
  replace (2 ^ k <? 2 * 0) with false by (symmetry; apply Z.ltb_ge; lia).
  replace (2 * 0 =? 2 ^ k) with false by (symmetry; apply Z.eqb_neq; lia).
  simpl. symmetry. exact E.
Qed.

Lemma RV_mono (N1 N2 : Z) : 0 <= N1 <= N2 -> RV N1 <= RV N2.
Proof. intros H. unfold RV. pose proof (rnd_mono N1 N2 H). lia. Qed.

Lemma top_pos : 0 < top.
Proof. apply pow2_pos. lia. Qed.

Lemma RV_top (N : Z) : top <= N -> RV N = top.
Proof.
  intros H. pose proof top_pos. unfold RV.
  assert (HN : 0 < N) by lia.
  destruct (Zdigits2_bounds N HN) as [Hd [H1 H2]].
  assert (Hdig : 2098 < Zdigits2 N).
  { destruct (Z_lt_le_dec 2098 (Zdigits2 N)); [assumption|].
    assert (2 ^ Zdigits2 N <= 2 ^ 2098) by (apply pow2_le; lia).
    unfold top in *. lia. }
  destruct (rnd_binade N HN ltac:(lia)) as [Hlo _].
  assert (2 ^ 2098 <= 2 ^ (Zdigits2 N - 1)) by (apply pow2_le; lia).
  unfold top in *. lia.
Qed.

Lemma RV_nonneg (N : Z) : 0 <= N -> 0 <= RV N.
Proof.
  intros H. pose proof top_pos. unfold RV.
  destruct (rnd_spec N H) as [q' [[Q1 _] [E _]]].
  pose proof (pow2_pos (rshift N) (rshift_nonneg N)).
  assert (0 <= N / 2 ^ rshift N) by (apply Z.div_pos; lia).
  rewrite E. nia.
Qed.

Lemma fexp_eq (x : Z) : fexp prec emax x = Z.max (x - 53) (-1074).
Proof. reflexivity. Qed.

Lemma iter_pos_nat {A : Type} (f : A -> A) (p : positive) :
  forall x, iter_pos f p x = Nat.iter (Pos.to_nat p) f x.
Proof.
  induction p as [p IH | p IH |]; intros x; simpl iter_pos.
  - rewrite !IH, Pos2Nat.inj_xI. simpl Nat.mul. rewrite Nat.add_0_r.
    rewrite Nat.iter_succ_r, Nat.iter_add. reflexivity.
  - rewrite !IH, Pos2Nat.inj_xO. simpl Nat.mul. rewrite Nat.add_0_r.
    rewrite Nat.iter_add. reflexivity.
  - reflexivity.
Qed.

Lemma shr_1_nonneg (m : Z) (r s : bool) :
  0 <= m ->
  shr_1 (Build_shr_record m r s) = Build_shr_record (m / 2) (Z.odd m) (r || s).
Proof.
  intros Hm. rewrite <- Z.div2_div.
  destruct m as [|[p|p|]|p]; try reflexivity. lia.
Qed.

Lemma shifted_0 (m : Z) : shifted 0 m (Build_shr_record m false false).
Proof.
  split; simpl; [rewrite Z.div_1_r; reflexivity|].
  exists 0. rewrite Z.mod_1_r. simpl. split; [reflexivity|]. split; [lia|].
  split; [discriminate | lia].
Qed.

Lemma shifted_step (n m : Z) (rec : shr_record) :
  0 <= n -> 0 <= m -> shifted n m rec -> shifted (n + 1) m (shr_1 rec).
Proof.
  intros Hn Hm [Hq [low [Hr [Hlow Hs]]]].
  destruct rec as [q rb sb]. cbn [shr_m shr_r shr_s] in *. subst q.
  pose proof (pow2_pos n Hn) as Hc.
  assert (Hq0 : 0 <= m / 2 ^ n) by (apply Z.div_pos; lia).
  rewrite shr_1_nonneg by assumption. unfold shifted.
  rewrite pow2_succ by assumption. rewrite (Z.mul_comm 2 (2 ^ n)).
  split; cbn [shr_m shr_r shr_s].
  - rewrite Z.div_div by lia. reflexivity.
  - exists (m mod 2 ^ n).
    rewrite Z.rem_mul_r by lia. rewrite Zmod_odd.
    pose proof (Z.mod_pos_bound m (2 ^ n) Hc) as Hb.
    split; [destruct (Z.odd (m / 2 ^ n)); lia|].
    split; [lia|].
    rewrite orb_true_iff. destruct rb.
    * split; [intros _; lia | intros _; left; reflexivity].
    * split; [intros [H | H]; [discriminate | apply Hs in H; lia]|].
      intros H. right. apply Hs. lia.
Qed.

Lemma shifted_iter (k : nat) (m : Z) :
  0 <= m ->
  shifted (Z.of_nat k) m (Nat.iter k shr_1 (Build_shr_record m false false)).
Proof.
  intros Hm. induction k as [|k IH].
  - apply shifted_0.
  - rewrite Nat2Z.inj_succ. unfold Z.succ. simpl Nat.iter.
    apply shifted_step; [lia | assumption | exact IH].
Qed.

Lemma shr_shifted (m e n : Z) :
  0 <= m -> 0 <= n ->
  exists rec, shr (Build_shr_record m false false) e n = (rec, e + n) /\
              shifted n m rec.
Proof.
  intros Hm Hn. destruct n as [|p|p]; [| |lia].
  - exists (Build_shr_record m false false). rewrite Z.add_0_r.
    split; [reflexivity | apply shifted_0].
  - exists (iter_pos shr_1 p (Build_shr_record m false false)).
    split; [reflexivity|].
    rewrite iter_pos_nat. rewrite <- (positive_nat_Z p). apply shifted_iter. assumption.
Qed.

Lemma shr_m_nonneg (m e n : Z) (r s : bool) :
  0 <= m -> 0 <= shr_m (fst (shr (Build_shr_record m r s) e n)).
Proof.
  intros Hm. destruct n as [|p|p]; simpl; try assumption.
  rewrite iter_pos_nat. generalize (Pos.to_nat p) as k. intros k.
  assert (H : forall rec, 0 <= shr_m rec -> 0 <= shr_m (Nat.iter k shr_1 rec)).
  { induction k as [|k IH]; intros rec Hrec; simpl; [assumption|].
    specialize (IH rec Hrec). destruct (Nat.iter k shr_1 rec) as [q rb sb].
    simpl in IH. rewrite shr_1_nonneg by assumption. simpl.
    apply Z.div_pos; lia. }
  apply H. assumption.
Qed.

(** The rounding of the implementation is the rounding of [rnd]. *)
Lemma round_shifted (n m : Z) (rec : shr_record) :
  0 <= n -> shifted n m rec ->
  round_nearest_even (shr_m rec) (loc_of_shr_record rec) =
  if (2 ^ n <? 2 * (m mod 2 ^ n)) || ((2 * (m mod 2 ^ n) =? 2 ^ n) && Z.odd (m / 2 ^ n))
  then m / 2 ^ n + 1 else m / 2 ^ n.
Proof.
  intros Hn [Hq [low [Hr [Hlow Hs]]]].
  destruct rec as [q rb sb]. cbn [shr_m shr_r shr_s] in *. subst q.
  pose proof (pow2_pos n Hn) as Hc.
  destruct rb, sb; cbn [loc_of_shr_record round_nearest_even shr_m].
  - assert (0 < low) by (apply Hs; reflexivity).
    replace (2 ^ n <? 2 * (m mod 2 ^ n)) with true by (symmetry; apply Z.ltb_lt; lia).
    reflexivity.
  - assert (~ 0 < low) by (intros H; apply Hs in H; discriminate).
    replace (2 ^ n <? 2 * (m mod 2 ^ n)) with false by (symmetry; apply Z.ltb_ge; lia).
    replace (2 * (m mod 2 ^ n) =? 2 ^ n) with true by (symmetry; apply Z.eqb_eq; lia).
    simpl. rewrite <- Z.negb_odd. destruct (Z.odd (m / 2 ^ n)); reflexivity.
  - replace (2 ^ n <? 2 * (m mod 2 ^ n)) with false by (symmetry; apply Z.ltb_ge; lia).
    replace (2 * (m mod 2 ^ n) =? 2 ^ n) with false by (symmetry; apply Z.eqb_neq; lia).
    reflexivity.
  - replace (2 ^ n <? 2 * (m mod 2 ^ n)) with false by (symmetry; apply Z.ltb_ge; lia).
    replace (2 * (m mod 2 ^ n) =? 2 ^ n) with false by (symmetry; apply Z.eqb_neq; lia).
    reflexivity.
Qed.

Lemma top_split (a b : Z) : 0 <= a -> 0 <= b -> a + b = 2098 -> top = 2 ^ a * 2 ^ b.
Proof. intros Ha Hb E. unfold top. rewrite <- E. apply pow2_add; assumption. Qed.

Lemma packed_val (Q e : Z) :
  0 < Q -> Zdigits2 Q <= 53 -> (-1074 < e -> Zdigits2 Q = 53) -> -1074 <= e ->
  SFnonneg (packed Q e) = true /\
  SFval (packed Q e) = Z.min (Q * 2 ^ (e + 1074)) top.
Proof.
  intros HQ Hd Hn He. destruct (Zdigits2_bounds Q HQ) as [_ [H1 H2]].
  destruct Q as [|p|p]; try lia. unfold packed.
  pose proof (Zdigits2_nonneg (Z.pos p)) as Hd0.
  change (emax - prec) with 971.
  pose proof (pow2_pos (e + 1074) ltac:(lia)) as Hc.
  destruct (e <=? 971) eqn:E.
  - apply Z.leb_le in E. split; [reflexivity|]. cbn [SFval].
    assert (Z.pos p * 2 ^ (e + 1074) < top); [|lia].
    rewrite (top_split 53 2045) by lia.
    assert (2 ^ Zdigits2 (Z.pos p) <= 2 ^ 53) by (apply pow2_le; lia).
    assert (2 ^ (e + 1074) <= 2 ^ 2045) by (apply pow2_le; lia).
    pose proof (pow2_pos 53 ltac:(lia)). nia.
  - apply Z.leb_gt in E. split; [reflexivity|]. cbn [SFval].
    assert (top <= Z.pos p * 2 ^ (e + 1074)); [|lia].
    rewrite (top_split 52 2046) by lia.
    rewrite Hn in H1 by lia. change (53 - 1) with 52 in H1.
    assert (2 ^ 2046 <= 2 ^ (e + 1074)) by (apply pow2_le; lia).
    pose proof (pow2_pos 52 ltac:(lia)). pose proof (pow2_pos 2046 ltac:(lia)). nia.
Qed.

Lemma ltb_scale (a b c : Z) : 0 < c -> (a * c <? b * c) = (a <? b).
Proof.
  intros Hc. destruct (Z.ltb_spec a b); [apply Z.ltb_lt | apply Z.ltb_ge]; nia.
Qed.

Lemma eqb_scale (a b c : Z) : 0 < c -> (a * c =? b * c) = (a =? b).
Proof.
  intros Hc. destruct (Z.eqb_spec a b); [apply Z.eqb_eq | apply Z.eqb_neq]; nia.
Qed.

(** [rnd] of a mantissa with an exponent. *)
Lemma rnd_scaled (m n j : Z) :
  0 < m -> 0 <= n -> 0 <= j -> rshift (m * 2 ^ j) = n + j ->
  rnd (m * 2 ^ j) =
  (if (2 ^ n <? 2 * (m mod 2 ^ n)) || ((2 * (m mod 2 ^ n) =? 2 ^ n) && Z.odd (m / 2 ^ n))
   then m / 2 ^ n + 1 else m / 2 ^ n) * 2 ^ n * 2 ^ j.
Proof.
  intros Hm Hn Hj Hk. unfold rnd. rewrite Hk.
  pose proof (pow2_pos n Hn) as Hcn. pose proof (pow2_pos j Hj) as Hcj.
  rewrite pow2_add by assumption.
  rewrite Z.div_mul_cancel_r by lia.
  rewrite Z.mul_mod_distr_r by lia.
  rewrite (Z.mul_assoc 2 (m mod 2 ^ n) (2 ^ j)).
  rewrite ltb_scale, eqb_scale by assumption.
  rewrite Z.mul_assoc. reflexivity.
Qed.

Lemma binary_round_aux_val (m : positive) (e : Z) :
  -1074 <= e -> e <= fexp prec emax (Zpos (digits2_pos m) + e) ->
  SFnonneg (binary_round_aux prec emax false (Zpos m) e loc_Exact) = true /\
  SFval (binary_round_aux prec emax false (Zpos m) e loc_Exact)
  = RV (Zpos m * 2 ^ (e + 1074)).
Proof.
  intros He HF. rewrite fexp_eq in HF.
  set (d := Zpos (digits2_pos m)) in *.
  set (F := Z.max (d + e - 53) (-1074)) in *.
  destruct (digits2_bounds m) as [D1 D2]. fold d in D1, D2.
  assert (Hd : 0 < d) by (unfold d; lia).
  set (n := F - e).
  set (Q := if (2 ^ n <? 2 * (Z.pos m mod 2 ^ n))
               || ((2 * (Z.pos m mod 2 ^ n) =? 2 ^ n) && Z.odd (Z.pos m / 2 ^ n))
            then Z.pos m / 2 ^ n + 1 else Z.pos m / 2 ^ n).
  set (n2 := Z.max (Zdigits2 Q + F - 53) (-1074) - F).
  assert (Hrnd : rnd (Zpos m * 2 ^ (e + 1074)) = Q * 2 ^ n * 2 ^ (e + 1074)).
  { apply rnd_scaled; try lia. unfold rshift.
    rewrite Zdigits2_shift by lia. cbn [Zdigits2]. fold d. lia. }
  pose proof (pow2_pos n ltac:(lia)) as Hcn.
  (* the rounded mantissa *)
  assert (HQ : 0 < Q /\ Zdigits2 Q <= 54 /\
               (Zdigits2 Q <= 53 \/ Q = 2 ^ 53) /\
               (-1074 < F -> 53 <= Zdigits2 Q) /\
               (n = 0 -> Zdigits2 Q <= 53)).
  { destruct (Z.eq_dec n 0) as [Hn0 | Hn0].
    - assert (Q = Zpos m).
      { unfold Q. rewrite Hn0. change (2 ^ 0) with 1.
        rewrite Z.mod_1_r, Z.div_1_r. reflexivity. }
      rewrite H. cbn [Zdigits2]. fold d. lia.
    - assert (Hn1 : n = d - 53) by lia.
      assert (Hq1 : 2 ^ 52 <= Z.pos m / 2 ^ n).
      { apply Z.div_le_lower_bound; [lia|].
        rewrite Z.mul_comm, <- pow2_add by lia.
        replace (52 + n) with (d - 1) by lia. exact D1. }
      assert (Hq2 : Z.pos m / 2 ^ n < 2 ^ 53).
      { apply Z.div_lt_upper_bound; [lia|].
        rewrite <- pow2_add by lia.
        replace (n + 53) with d by lia. exact D2. }
      assert (HQb : 2 ^ 52 <= Q <= 2 ^ 53) by (unfold Q; destruct (_ || _); lia).
      pose proof (pow2_pos 52 ltac:(lia)).
      split; [lia|].
      destruct (Z.eq_dec Q (2 ^ 53)) as [HQe | HQne].
      + assert (Zdigits2 Q = 54).
        { apply Zdigits2_unique; [lia|]. rewrite HQe.
          change (54 - 1) with 53. split; [lia | apply pow2_lt; lia]. }
        lia.
      + assert (Zdigits2 Q = 53).
        { apply Zdigits2_unique; [lia|]. change (53 - 1) with 52. lia. }
        lia. }
  destruct HQ as [HQ0 [HQ54 [HQc [HQF HQn]]]].
  assert (Hn2 : 0 <= n2 <= 1 /\ (n2 = 1 -> Q = 2 ^ 53) /\ (n2 = 0 -> Zdigits2 Q <= 53)).
  { unfold n2. destruct (Z.eq_dec n 0) as [Hn0 | Hn0].
    - specialize (HQn Hn0). unfold F in *. lia.
    - assert (-1074 < F) by (unfold n, F in *; lia). specialize (HQF H).
      destruct HQc as [HQc | HQc]; [lia|].
      assert (Zdigits2 Q = 54).
      { apply Zdigits2_unique; [lia|]. rewrite HQc.
        change (54 - 1) with 53. split; [lia | apply pow2_lt; lia]. }
      lia. }
  destruct Hn2 as [Hn2 [Hn21 Hn20]].
  assert (Heq : binary_round_aux prec emax false (Zpos m) e loc_Exact
                = packed (Q / 2 ^ n2) (F + n2)).
  { unfold binary_round_aux, shr_fexp. cbn [shr_record_of_loc Zdigits2]. fold d.
    rewrite !fexp_eq. fold F. fold n.
    destruct (shr_shifted (Zpos m) e n ltac:(lia) ltac:(lia)) as [rec [E1 S1]].
    rewrite E1. replace (e + n) with F by (unfold n; lia).
    rewrite (round_shifted n (Zpos m) rec ltac:(lia) S1). fold Q.
    rewrite fexp_eq. fold n2.
    destruct (shr_shifted Q F n2 ltac:(lia) ltac:(lia)) as [rec2 [E2 [S2 _]]].
    rewrite E2. rewrite S2. reflexivity. }
  rewrite Heq.
  assert (HP : 0 < Q / 2 ^ n2 /\ Zdigits2 (Q / 2 ^ n2) <= 53 /\
               (-1074 < F + n2 -> Zdigits2 (Q / 2 ^ n2) = 53) /\
               Q / 2 ^ n2 * 2 ^ (F + n2 + 1074) = Q * 2 ^ n * 2 ^ (e + 1074)).
  { assert (Hexp : 2 ^ n * 2 ^ (e + 1074) = 2 ^ (F + 1074)).
    { rewrite <- pow2_add by lia. f_equal. unfold n. lia. }
    rewrite <- Z.mul_assoc, Hexp.
    destruct (Z.eq_dec n2 0) as [Hz | Hz].
    - rewrite Hz. change (2 ^ 0) with 1. rewrite Z.div_1_r, Z.add_0_r.
      specialize (Hn20 Hz).
      split; [lia|]. split; [lia|]. split; [|reflexivity].
      intros HF'. specialize (HQF HF'). lia.
    - assert (Ho : n2 = 1) by lia. specialize (Hn21 Ho). rewrite Ho, Hn21.
      change (2 ^ 1) with 2. change (2 ^ 53 / 2) with (2 ^ 52).
      assert (Zdigits2 (2 ^ 52) = 53) by reflexivity.
      split; [reflexivity|]. split; [lia|]. split; [lia|].
      replace (F + 1 + 1074) with ((F + 1074) + 1) by lia.
      rewrite pow2_succ by (unfold F; lia).
      change (2 ^ 53) with (2 ^ 52 * 2). lia. }
  destruct HP as [P0 [P1 [P2 P3]]].
  destruct (packed_val (Q / 2 ^ n2) (F + n2) P0 P1 P2 ltac:(unfold F; lia)) as [V1 V2].
  split; [exact V1|]. rewrite V2, P3. unfold RV. rewrite Hrnd. reflexivity.
Qed.

Lemma iter_xO_val (p m : positive) : Zpos (Pos.iter xO m p) = Zpos m * 2 ^ Zpos p.
Proof.
  induction p as [|p IH] using Pos.peano_ind.
  - simpl. lia.
  - rewrite Pos.iter_succ, Pos2Z.inj_xO, IH, Pos2Z.inj_succ.
    unfold Z.succ. rewrite pow2_succ by lia. lia.
Qed.

Lemma shl_align_val (m : positive) (e e' : Z) :
  e' <= e ->
  Zpos (fst (shl_align m e e')) = Zpos m * 2 ^ (e - e').
Proof.
  intros H. unfold shl_align. destruct (e' - e) as [|p|p] eqn:E; simpl fst.
  - replace (e - e') with 0 by lia. simpl. lia.
  - lia.
  - rewrite iter_xO_val. f_equal. f_equal. lia.
Qed.

Lemma binary_round_val (M : positive) (e : Z) :
  -1074 <= e ->
  SFnonneg (binary_round prec emax false M e) = true /\
  SFval (binary_round prec emax false M e) = RV (Zpos M * 2 ^ (e + 1074)).
Proof.
  intros He. unfold binary_round, shl_align. rewrite fexp_eq.
  set (d := Zpos (digits2_pos M)).
  set (F := Z.max (d + e - 53) (-1074)).
  destruct (F - e) as [|p|p] eqn:E.
  - apply binary_round_aux_val; [assumption|]. rewrite fexp_eq. fold d. fold F. lia.
  - apply binary_round_aux_val; [assumption|]. rewrite fexp_eq. fold d. fold F. lia.
  - assert (Hp : Zpos p = e - F) by lia.
    assert (Hm : Zpos (Pos.iter xO M p) = Zpos M * 2 ^ Zpos p) by apply iter_xO_val.
    assert (Hdig : Zpos (digits2_pos (Pos.iter xO M p)) = d + Zpos p).
    { change (Zpos (digits2_pos (Pos.iter xO M p))) with (Zdigits2 (Zpos (Pos.iter xO M p))).
      rewrite Hm. rewrite Zdigits2_shift by lia. reflexivity. }
    destruct (binary_round_aux_val (Pos.iter xO M p) F) as [V1 V2].
    + unfold F. lia.
    + rewrite fexp_eq, Hdig. unfold F. lia.
    + split; [exact V1|]. rewrite V2, Hm. f_equal.
      rewrite <- Z.mul_assoc, <- pow2_add by (unfold F; lia). do 2 f_equal. lia.
Qed.

Lemma valid_finite (s : bool) (m : positive) (e : Z) :
  valid_binary (S754_finite s m e) = true ->
  -1074 <= e <= 971 /\ Zpos (digits2_pos m) <= 53 /\
  (-1074 < e -> Zpos (digits2_pos m) = 53).
Proof.
  unfold SpecFloat.valid_binary, bounded, canonical_mantissa. rewrite fexp_eq.
  change (emax - prec) with 971.
  intros H. apply andb_true_iff in H. destruct H as [H1 H2].
  apply Z.eqb_eq in H1. apply Z.leb_le in H2. lia.
Qed.

Lemma finite_lt_top (s : bool) (m : positive) (e : Z) :
  valid_binary (S754_finite s m e) = true ->
  0 < Zpos m * 2 ^ (e + 1074) < top.
Proof.
  intros H. apply valid_finite in H. destruct H as [He [Hd _]].
  destruct (digits2_bounds m) as [_ D2].
  pose proof (pow2_pos (e + 1074) ltac:(lia)) as Hc.
  split; [lia|]. rewrite (top_split 53 2045) by lia.
  assert (2 ^ Zpos (digits2_pos m) <= 2 ^ 53) by (apply pow2_le; lia).
  assert (2 ^ (e + 1074) <= 2 ^ 2045) by (apply pow2_le; lia).
  pose proof (pow2_pos 53 ltac:(lia)). nia.
Qed.

Lemma RV_finite (s : bool) (m : positive) (e : Z) :
  valid_binary (S754_finite s m e) = true ->
  RV (Zpos m * 2 ^ (e + 1074)) = Zpos m * 2 ^ (e + 1074).
Proof.
  intros H. pose proof (finite_lt_top s m e H) as Hlt.
  apply valid_finite in H. destruct H as [He [Hd _]].
  unfold RV. rewrite rnd_exact; [lia | lia | lia | exact Hd].
Qed.

Lemma RV_0 : RV 0 = 0.
Proof. reflexivity. Qed.

Lemma SFval_nonneg (x : spec_float) : 0 <= SFval x.
Proof.
  pose proof top_pos. destruct x as [s|s| |s m e]; cbn [SFval]; lia.
Qed.

Lemma SFval_RV (x : spec_float) :
  valid_binary x = true -> RV (SFval x) = SFval x.
Proof.
  intros H. destruct x as [s|s| |s m e]; cbn [SFval];
    [reflexivity | apply RV_top; lia | reflexivity | eapply RV_finite; eassumption].
Qed.

(** The sum of two floats that are not negative is the rounding of the sum of
    their values. *)
Lemma SFadd_val (x y : spec_float) :
  valid_binary x = true -> valid_binary y = true ->
  SFnonneg x = true -> SFnonneg y = true ->
  SFnonneg (SF64add x y) = true /\
  SFval (SF64add x y) = RV (SFval x + SFval y).
Proof.
  intros Vx Vy Nx Ny. pose proof top_pos as Ht.
  pose proof (SFval_nonneg x) as Px. pose proof (SFval_nonneg y) as Py.
  destruct x as [sx|sx| |sx mx ex]; try discriminate;
    destruct y as [sy|sy| |sy my ey]; try discriminate;
    try (destruct sx; try discriminate); try (destruct sy; try discriminate);
    unfold SF64add, SFadd;
    try (split; [reflexivity|]; cbn [SFval]; rewrite ?Z.add_0_l, ?Z.add_0_r;
         first [ reflexivity
               | symmetry; apply RV_top; cbn [SFval] in *; lia
               | symmetry; eapply RV_finite; eassumption ]).
  (* two finite numbers *)
  cbn [cond_Zopp]. 
  pose proof (valid_finite _ _ _ Vx) as [Hex _].
  pose proof (valid_finite _ _ _ Vy) as [Hey _].
  set (ez := Z.min ex ey).
  assert (E : Zpos (fst (shl_align mx ex ez)) + Zpos (fst (shl_align my ey ez))
              = Zpos (fst (shl_align mx ex ez) + fst (shl_align my ey ez))) by reflexivity.
  rewrite E. cbn [binary_normalize].
  destruct (binary_round_val (fst (shl_align mx ex ez) + fst (shl_align my ey ez)) ez)
    as [V1 V2]; [unfold ez; lia|].
  split; [exact V1|]. rewrite V2. f_equal.
  rewrite <- E, !shl_align_val by (unfold ez; lia).
  cbn [SFval]. rewrite Z.mul_add_distr_r.
  rewrite <- !Z.mul_assoc, <- !pow2_add by (unfold ez; lia).
  f_equal; do 2 f_equal; lia.
Qed.

(** On floats that are not negative the comparison is that of the values. *)
Lemma SFcompare_val (x y : spec_float) :
  valid_binary x = true -> valid_binary y = true ->
  SFnonneg x = true -> SFnonneg y = true ->
  SFcompare x y = Some (SFval x ?= SFval y).
Proof.
  intros Vx Vy Nx Ny. pose proof top_pos as Ht.
  destruct x as [sx|sx| |sx mx ex]; try discriminate;
    destruct y as [sy|sy| |sy my ey]; try discriminate;
    try (destruct sx; try discriminate); try (destruct sy; try discriminate);
    cbn [SFcompare SFval]; f_equal; symmetry;
    try (pose proof (finite_lt_top _ _ _ Vx) as Bx);
    try (pose proof (finite_lt_top _ _ _ Vy) as By);
    try (apply Z.compare_eq_iff; lia);
    try (apply Z.compare_lt_iff; lia);
    try (apply Z.compare_gt_iff; lia).
  (* two finite numbers *)
  destruct (valid_finite _ _ _ Vx) as [Hex [Hdx Hnx]].
  destruct (valid_finite _ _ _ Vy) as [Hey [Hdy Hny]].
  destruct (digits2_bounds mx) as [X1 X2]. destruct (digits2_bounds my) as [Y1 Y2].
  assert (Hlt : forall m1 e1 m2 e2,
             -1074 <= e1 -> e1 < e2 ->
             Zpos m1 < 2 ^ 53 -> 2 ^ 52 <= Zpos m2 ->
             Zpos m1 * 2 ^ (e1 + 1074) < Zpos m2 * 2 ^ (e2 + 1074)).
  { intros m1 e1 m2 e2 H1 H2 H3 H4.
    pose proof (pow2_pos (e1 + 1074) ltac:(lia)) as Hc.
    assert (2 * 2 ^ (e1 + 1074) <= 2 ^ (e2 + 1074)).
    { rewrite <- pow2_succ by lia. apply pow2_le. lia. }
    change (2 ^ 53) with (2 * 2 ^ 52) in H3.
    pose proof (pow2_pos 52 ltac:(lia)). nia. }
  assert (Hm53 : forall m, Zpos (digits2_pos m) <= 53 -> Zpos m < 2 ^ 53).
  { intros m Hd. destruct (digits2_bounds m) as [_ D].
    assert (2 ^ Zpos (digits2_pos m) <= 2 ^ 53) by (apply pow2_le; lia). lia. }
  destruct (Z.compare_spec ex ey) as [He | He | He].
  - subst ey. rewrite Pos.compare_cont_spec. cbn [Pos.switch_Eq].
    pose proof (pow2_pos (ex + 1074) ltac:(lia)) as Hc.
    destruct (Pos.compare_spec mx my) as [Hm | Hm | Hm].
    + subst my. apply Z.compare_refl.
    + apply Z.compare_lt_iff. nia.
    + apply Z.compare_gt_iff. nia.
  - apply Z.compare_lt_iff. apply Hlt; [lia | lia | apply Hm53; assumption|].
    rewrite Hny in Y1 by lia. exact Y1.
  - apply Z.compare_gt_iff. apply Hlt; [lia | lia | apply Hm53; assumption|].
    rewrite Hnx in X1 by lia. exact X1.
Qed.

(** A product with both factors not negative and one of them finite and not
    zero is not negative. *)
Lemma SFmul_nonneg (mx : positive) (ex : Z) (y : spec_float) :
  SFnonneg y = true ->
  SFnonneg (SF64mul (S754_finite false mx ex) y) = true.
Proof.
  intros Ny. destruct y as [sy|sy| |sy my ey]; try discriminate;
    destruct sy; try discriminate; try reflexivity.
  unfold SF64mul, SFmul. cbn [xorb]. unfold binary_round_aux, shr_fexp.
  cbn [shr_record_of_loc].
  set (n1 := fexp prec emax (Zdigits2 (Z.pos (mx * my)) + (ex + ey)) - (ex + ey)).
  pose proof (shr_m_nonneg (Zpos (mx * my)) (ex + ey) n1 false false ltac:(lia)) as H1.
  destruct (shr {| shr_m := Z.pos (mx * my); shr_r := false; shr_s := false |} (ex + ey) n1)
    as [rec1 e1]. cbn [fst] in H1.
  set (Q := round_nearest_even (shr_m rec1) (loc_of_shr_record rec1)).
  assert (HQ : 0 <= Q).
  { unfold Q, round_nearest_even.
    destruct (loc_of_shr_record rec1) as [|[| |]]; try lia.
    destruct (Z.even (shr_m rec1)); lia. }
  set (n2 := fexp prec emax (Zdigits2 Q + e1) - e1).
  pose proof (shr_m_nonneg Q e1 n2 false false HQ) as H2.
  destruct (shr {| shr_m := Q; shr_r := false; shr_s := false |} e1 n2) as [rec2 e2].
  cbn [fst] in H2.
  destruct (shr_m rec2) as [|p|p]; [reflexivity | | lia].
  destruct (e2 <=? emax - prec); reflexivity.
Qed.

(** *** From the specification to the floats *)

Lemma nonneg_SF (x : float) : nonneg x <-> SFnonneg (Prim2SF x) = true.
Proof.
  unfold nonneg. rewrite leb_spec. change (Prim2SF 0%float) with (S754_zero false).
  unfold SFleb. destruct (Prim2SF x) as [s|s| |s m e]; simpl;
    try destruct s; simpl; split; congruence.
Qed.

Lemma fval_nonneg (x : float) : 0 <= fval x.
Proof. apply SFval_nonneg. Qed.

Lemma fval_RV (x : float) : RV (fval x) = fval x.
Proof. apply SFval_RV, Prim2SF_valid. Qed.

Lemma ltb_fval (a b : float) :
  nonneg a -> nonneg b -> PrimFloat.ltb a b = (fval a <? fval b).
Proof.
  intros Ha Hb. apply nonneg_SF in Ha, Hb. rewrite ltb_spec. unfold SFltb, fval.
  rewrite (SFcompare_val _ _ (Prim2SF_valid a) (Prim2SF_valid b) Ha Hb).
  destruct (Z.compare_spec (SFval (Prim2SF a)) (SFval (Prim2SF b))); symmetry;
    [apply Z.ltb_ge; lia | apply Z.ltb_lt; lia | apply Z.ltb_ge; lia].
Qed.

Lemma add_fval (a b : float) :
  nonneg a -> nonneg b ->
  nonneg (PrimFloat.add a b) /\ fval (PrimFloat.add a b) = RV (fval a + fval b).
Proof.
  intros Ha Hb. apply nonneg_SF in Ha, Hb. rewrite nonneg_SF. unfold fval.
  rewrite add_spec. apply SFadd_val; try assumption; apply Prim2SF_valid.
Qed.

Lemma mul_nonneg_finite (c : float) (mc : positive) (ec : Z) (a : float) :
  Prim2SF c = S754_finite false mc ec -> nonneg a -> nonneg (PrimFloat.mul c a).
Proof.
  intros Hc Ha. apply nonneg_SF. rewrite mul_spec, Hc.
  apply SFmul_nonneg. apply nonneg_SF. assumption.
Qed.

Lemma gtb_fval (a b : float) :
  nonneg a -> nonneg b -> (gtb a b = true <-> fval b < fval a).
Proof.
  intros Ha Hb. cbn [gtb float_Num]. rewrite ltb_fval by assumption. apply Z.ltb_lt.
Qed.

Lemma lte_fval (a b : float) :
  nonneg a -> nonneg b -> (lte a b <-> fval a <= fval b).
Proof.
  intros Ha Hb. unfold lte. cbn [gtb float_Num].
  rewrite ltb_fval by assumption. apply Z.ltb_ge.
Qed.

Lemma leb_fval (a b : float) :
  nonneg a -> nonneg b -> PrimFloat.leb a b = (fval a <=? fval b).
Proof.
  intros Ha Hb. apply nonneg_SF in Ha, Hb. rewrite leb_spec. unfold SFleb, fval.
  rewrite (SFcompare_val _ _ (Prim2SF_valid a) (Prim2SF_valid b) Ha Hb).
  destruct (Z.compare_spec (SFval (Prim2SF a)) (SFval (Prim2SF b))); symmetry;
    [apply Z.leb_le; lia | apply Z.leb_le; lia | apply Z.leb_gt; lia].
Qed.

(** On numbers that are not negative, "not [a > b]" is [a <= b]. *)
Lemma lte_leb (a b : float) :
  nonneg a -> nonneg b -> (lte a b <-> PrimFloat.leb a b = true).
Proof.
  intros Ha Hb. rewrite lte_fval, leb_fval by assumption. symmetry. apply Z.leb_le.
Qed.

Lemma nonneg_zero : nonneg zero.
Proof. reflexivity. Qed.

(** A multiplier that is not negative passes the test [lte zero]. *)
Lemma nonneg_lte_zero (a : float) : nonneg a -> lte zero a.
Proof.
  intros Ha. apply lte_fval; [exact nonneg_zero | assumption|].
  change (fval zero) with 0. apply fval_nonneg.
Qed.

(** binary64 on the numbers that are not negative satisfies the order
    laws. *)
#[export] Instance nonneg_ordered : OrderedOn nonneg.
Proof.
  constructor.
  - exact nonneg_zero.
  - intros a b Ha Hb. apply add_fval; assumption.
  - intros a Ha. eapply mul_nonneg_finite; [vm_compute; reflexivity | assumption].
  - intros a Ha. eapply mul_nonneg_finite; [vm_compute; reflexivity | assumption].
  - intros a Ha. cbn [gtb float_Num]. rewrite ltb_fval by assumption. apply Z.ltb_irrefl.
  - intros a b c Ha Hb Hc. rewrite !gtb_fval by assumption. lia.
  - intros a b c Ha Hb Hc. rewrite lte_fval, !gtb_fval by assumption. lia.
  - intros a b c Ha Hb Hc H. apply lte_fval in H; try assumption.
    destruct (add_fval a c Ha Hc) as [N1 V1]. destruct (add_fval b c Hb Hc) as [N2 V2].
    apply lte_fval; try assumption. cbn [add float_Num]. rewrite V1, V2.
    apply RV_mono. pose proof (fval_nonneg a). pose proof (fval_nonneg c). lia.
  - intros a c Ha Hc _. destruct (add_fval a c Ha Hc) as [N1 V1].
    apply lte_fval; try assumption. cbn [add float_Num]. rewrite V1.
    rewrite <- (fval_RV a) at 1. apply RV_mono.
    pose proof (fval_nonneg a). pose proof (fval_nonneg c). lia.
  - intros a Ha _. apply nonneg_lte_zero.
    eapply mul_nonneg_finite; [vm_compute; reflexivity | assumption].
  - intros a Ha _. apply nonneg_lte_zero.
    eapply mul_nonneg_finite; [vm_compute; reflexivity | assumption].
Qed.

(** [==] and [>] exclude each other. *)
Lemma float_eqb_not_gtb (a b : float) :
  nonneg a -> nonneg b -> eqb a b = true -> gtb a b = false.
Proof.
  intros Ha Hb. cbn [eqb gtb float_Num]. rewrite (ltb_fval b a Hb Ha).
  apply nonneg_SF in Ha, Hb. rewrite eqb_spec. unfold SFeqb, fval.
  rewrite (SFcompare_val _ _ (Prim2SF_valid a) (Prim2SF_valid b) Ha Hb).
  destruct (Z.compare_spec (SFval (Prim2SF a)) (SFval (Prim2SF b))); try discriminate.
  intros _. apply Z.ltb_ge. lia.
Qed.

End Binary64Facts.

(** ** The costs of a search on binary64 *)

Section Binary64Costs.

Import Float64 Binary64Facts.

(** C4, as the code has it, in binary64: with multipliers and heuristic
    values that are not negative (and not [NaN]), no [g] along a returned
    path is negative or [NaN], [g] never decreases along the path, and the
    [g] of a tile is at least the rounded sum of the [g] of the tile before
    it and the cost of the step; so the [g] of the target is at least the sum
    of the step costs, added up from the start as binary64 adds.  It can be
    more: a tile given a smaller [g] after its successors were listed leaves
    theirs as they were. *)
Theorem path_cost_at_most_g :
  forall (fuel : nat) (a a' : AStarTiles float) (grid grid' : Grid2D float)
         (p : list NodeRef) (s t : NodeRef),
    (forall x, nonneg (multiplier (tiles grid x))) ->
    startNode grid = Some s ->
    targetNode grid = Some t ->
    (forall x, in_grid (numRows grid) (numCols grid) x \/ x = s ->
               nonneg (_heuristic a x t)) ->
    findPath fuel a grid = (Path p, a', grid') ->
    p <> [] ->
    (forall x, In x p -> nonneg (g (tiles grid' x))) /\
    (forall x y, consecutive p x y ->
       PrimFloat.leb (g (tiles grid' x)) (g (tiles grid' y)) = true /\
       PrimFloat.leb (PrimFloat.add (g (tiles grid' x)) (moveCost (tiles grid) x y))
                     (g (tiles grid' y)) = true) /\
    nonneg (pathCost (tiles grid) p) /\
    PrimFloat.leb (pathCost (tiles grid) p) (g (tiles grid' t)) = true.
Proof.
  intros fuel a a' grid grid' p s t Hm Hs Ht Hh H Hne.
  destruct (path_costs_on nonneg nonneg_ordered fuel a a' grid grid' p s t
              (fun x => conj (Hm x) (nonneg_lte_zero _ (Hm x))) Hs Ht Hh H Hne)
    as [Hg [Hstep [Hpc Hle]]].
  assert (Hin : forall x y, consecutive p x y -> In x p /\ In y p).
  { intros x y [l1 [l2 ->]]. split; apply in_or_app; right;
      [left | right; left]; reflexivity. }
  assert (Hmc : forall x y, nonneg (moveCost (tiles grid) x y)).
  { intros x y. apply (moveCost_good (tiles grid)).
    intros z. split; [apply Hm | apply nonneg_lte_zero, Hm]. }
  assert (Htp : In t p).
  { assert (Hp : fst (fst (findPath fuel a grid)) = Path p) by (rewrite H; reflexivity).
    destruct (findPath_path_chain fuel a grid s t p Hs Ht Hp)
      as [-> | [st [l [_ [_ [Hc ->]]]]]]; [contradiction|].
    apply in_rev. rewrite rev_involutive.
    destruct (chain_head _ _ _ _ Hc) as [l' ->]. left. reflexivity. }
  split; [exact Hg|]. split; [|split; [exact Hpc|]].
  - intros x y Hxy. destruct (Hin x y Hxy) as [Hx Hy].
    destruct (Hstep x y Hxy) as [H1 H2]. split.
    + exact (proj1 (lte_leb _ _ (Hg x Hx) (Hg y Hy)) H1).
    + refine (proj1 (lte_leb _ _ _ (Hg y Hy)) H2).
      apply (good_add (good := nonneg)); [apply Hg, Hx | apply Hmc].
  - exact (proj1 (lte_leb _ _ Hpc (Hg t Htp)) Hle).
Qed.

(** C9, in binary64 with multipliers and heuristic values that are not
    negative (and not [NaN]): when the main loop stops on the target, the
    [parent] links from the target form a chain without repetition that ends
    at the start; the reconstruction loop ends and [findPath] returns this
    chain reversed: it begins with the start, ends with the target, and each
    tile is the [parent] of the next. *)
Theorem parent_chain_reaches_start :
  forall (fuel : nat) (a : AStarTiles float) (grid : Grid2D float) (s t : NodeRef)
         (st : Search float),
    startNode grid = Some s ->
    targetNode grid = Some t ->
    (forall x, nonneg (multiplier (tiles grid x))) ->
    (forall x, in_grid (numRows grid) (numCols grid) x \/ x = s ->
               nonneg (_heuristic a x t)) ->
    search (_heuristic a) (numRows grid) (numCols grid) t fuel (entry a grid s t) s
      = Found st ->
    exists l,
      chain (nodes st) s t l /\ NoDup l /\
      fst (fst (findPath fuel a grid)) = Path (rev l) /\
      hd_error (rev l) = Some s /\ last (rev l) s = t /\
      (forall x y, consecutive (rev l) x y -> parent (nodes st y) = Some x).
Proof.
  intros fuel a grid s t st Hs Ht Hm Hh Hf.
  exact (parent_chain_on nonneg nonneg_ordered fuel a grid s t st Hs Ht
           (fun x => conj (Hm x) (nonneg_lte_zero _ (Hm x))) Hh Hf).
Qed.

End Binary64Costs.

(** ** The theorems on concrete grids *)

Module Examples.
Import Float64 Binary64Facts Grids.

(** On the walled row no step leaves the start. *)
Lemma walled_off :
  ~ connected (step (tiles (@grid_walled float _)) 1 3) (0, 0) (0, 2).
Proof.
  assert (H : forall x, connected (step (tiles (@grid_walled float _)) 1 3) (0, 0) x ->
                        x = (0, 0)).
  { intros x Hc. induction Hc as [|x y Hc IH [[Hg [Hr [Hc' Hne]]] [Hreach _]]];
      [reflexivity|].
    subst x. destruct y as [r c]. unfold in_grid, row, col in *. simpl in *.
    assert (r = 0) by lia. subst r.
    assert (c = 1) by lia. subst c.
    vm_compute in Hreach. discriminate. }
  intros Hc. apply H in Hc. discriminate.
Qed.

(** The walled row: the far end cannot be reached and the path is empty. *)
Lemma unreachable_target_empty_path_witness :
  fst (fst (findPath 3 Float64.new_AStarTiles grid_walled)) = Path [].
Proof.
  apply (unreachable_target_empty_path 3 Float64.new_AStarTiles grid_walled (0, 0) (0, 2)).
  - reflexivity.
  - reflexivity.
  - unfold in_grid; simpl; lia.
  - exact walled_off.
  - vm_compute. lia.
Defined.



(** The diagonal across the open 2 x 2 grid has both flanking tiles
    reachable. *)
Lemma no_corner_cutting_witness :
  reachable (tiles (@grid_open float _) (getNode 0 1)) = true /\
  reachable (tiles (@grid_open float _) (getNode 1 0)) = true.
Proof.
  refine (no_corner_cutting 4 Float64.new_AStarTiles grid_open [(0, 0); (1, 1)]
            _ (0, 0) (1, 1) _ _ _).
  - vm_compute. reflexivity.
  - exists [], []. reflexivity.
  - discriminate.
  - discriminate.
Defined.

(** On the 3 x 3 grid with the two hazards the path goes through (1,2) and
    (0,1); the [g] left on the target, 3.914..., is not the sum of the step
    costs of that path, 3.707...: (0,1) was closed with [g = 1.914...] and
    gave the target its [g]; (1,2) then improved (0,1) to [1.707...]. *)
Lemma target_g_exceeds_path_cost :
  let grid := grid_hazard 0.5%float 2%float in
  let X := findPath 9 Float64.new_AStarTiles grid in
  let p := [(2, 2); (1, 2); (0, 1); (0, 0)] in
  fst (fst X) = Path p /\
  g (tiles (snd X) (0, 0)) = 0x1.f504f333f9de6p+1%float /\
  pathCost (tiles grid) p = 0x1.da827999fcef3p+1%float /\
  eqb (g (tiles (snd X) (0, 0))) (pathCost (tiles grid) p) = false.
Proof. vm_compute. repeat split; reflexivity. Qed.

(** The multipliers of that grid are not negative. *)
Lemma hazard_good :
  forall x, nonneg (multiplier (tiles (grid_hazard 0.5%float 2%float) x)).
Proof.
  intros x. cbv [grid_hazard hazard setTile openGrid withTiles tiles multiplier newTile].
  repeat match goal with |- context [ref_eqb ?a ?b] => destruct (ref_eqb a b) end;
    reflexivity.
Qed.

(** Between two tiles of a grid of up to 32 x 32 tiles the built-in heuristic
    is not negative (and not [NaN]): all pairs are evaluated. *)
Lemma diagonal_nonneg (x t : NodeRef) :
  in_grid 32 32 x -> in_grid 32 32 t -> nonneg (Float64.__diagonal x t).
Proof.
  intros Hx Ht.
  assert (H : diagonal_nonneg_upto 32 = true) by (vm_compute; reflexivity).
  unfold diagonal_nonneg_upto in H. rewrite forallb_forall in H.
  specialize (H x (In_allCells 32 32 x Hx)). rewrite forallb_forall in H.
  exact (H t (In_allCells 32 32 t Ht)).
Qed.

(** So it is on the 3 x 3 grid, whose start is the tile (2,2). *)
Lemma diagonal_good (t x : NodeRef) :
  in_grid 3 3 t -> in_grid 3 3 x \/ x = (2, 2) -> nonneg (Float64.__diagonal x t).
Proof.
  intros Ht Hx. apply diagonal_nonneg.
  - destruct Hx as [Hx | ->]; unfold in_grid in *; simpl; lia.
  - unfold in_grid in *. lia.
Qed.

(** On that grid the sum of the step costs of the path returned is at most
    the [g] of the target. *)
Lemma path_cost_at_most_g_witness :
  let grid := grid_hazard 0.5%float 2%float in
  let X := findPath 9 Float64.new_AStarTiles grid in
  let p := [(2, 2); (1, 2); (0, 1); (0, 0)] in
  nonneg (pathCost (tiles grid) p) /\
  PrimFloat.leb (pathCost (tiles grid) p) (g (tiles (snd X) (0, 0))) = true.
Proof.
  intros grid X p.
  assert (E : fst (fst X) = Path p) by (vm_compute; reflexivity).
  assert (H : findPath 9 Float64.new_AStarTiles grid = (Path p, snd (fst X), snd X)).
  { rewrite <- E. apply triple_eta. }
  refine (proj2 (proj2 (path_cost_at_most_g 9 _ _ _ _ _ (2, 2) (0, 0)
                          hazard_good eq_refl eq_refl _ H _))).
  - intros x. apply diagonal_good. unfold in_grid; simpl; lia.
  - discriminate.
Defined.

(** The assumption on the multipliers cannot be dropped: into a target with
    a negative multiplier [g] decreases. *)
Lemma negative_multiplier_g_drops :
  let X := findPath 3 Float64.new_AStarTiles grid_negative_target in
  fst (fst X) = Path [(0, 0); (0, 1); (0, 2)] /\
  g (tiles (snd X) (0, 1)) = 1%float /\
  g (tiles (snd X) (0, 2)) = (-1)%float.
Proof. vm_compute. repeat split; reflexivity. Qed.

(** A neighbour on the open list with [f = 5] is reassigned when reached
    with [f = 2]. *)
Lemma listed_neighbour_witness :
  let st' := visit Float64.__diagonal (0, 2) (0, 0) st_listed (0, 1) in
  openList st' = [(0, 1)] /\ g (nodes st' (0, 1)) = 1%float /\ f (nodes st' (0, 1)) = 2%float.
Proof.
  pose proof (listed_neighbour_reassigned_iff_better Float64.__diagonal (0, 2) (0, 0)
                st_listed (0, 1) eq_refl eq_refl) as H.
  cbv zeta in H. destruct H as (Ho & _ & _ & Hup & _).
  destruct (Hup eq_refl) as (_ & Hg & _ & Hf).
  cbv zeta. split; [exact Ho|]. split; [rewrite Hg | rewrite Hf]; vm_compute; reflexivity.
Defined.

(** A second search on the row, now walled: the far tile enters the main
    loop with the [g], [f] and [parent] of the first search, not with neutral
    values, and still has them when the search returns the empty path. *)
Lemma stale_fields_at_entry :
  let st := entry finder_rerun grid_rerun (0, 0) (0, 2) in
  let X := findPath 3 finder_rerun grid_rerun in
  startNode grid_rerun = Some (0, 0) /\ targetNode grid_rerun = Some (0, 2) /\
  parent (nodes st (0, 2)) = Some (0, 1) /\ g (nodes st (0, 2)) = 2%float /\
  f (nodes st (0, 2)) = 2%float /\
  fst (fst X) = Path [] /\
  parent (tiles (snd X) (0, 2)) = Some (0, 1) /\ g (tiles (snd X) (0, 2)) = 2%float.
Proof. vm_compute. repeat split; reflexivity. Qed.

(** In that second search the start enters the main loop with [g = 0] and the
    far tile as the grid has it. *)
Lemma only_start_initialised_witness :
  let st := entry finder_rerun grid_rerun (0, 0) (0, 2) in
  g (nodes st (0, 0)) = zero /\ nodes st (0, 2) = tiles grid_rerun (0, 2).
Proof.
  pose proof (only_start_initialised 3 finder_rerun grid_rerun (0, 0) (0, 2)
                eq_refl eq_refl) as H.
  cbv zeta in H. destruct H as (_ & _ & _ & Hg & _ & _ & _ & Hoth).
  cbv zeta. split; [exact Hg | apply Hoth; discriminate].
Defined.

(** A start that is set but unreachable is searched from and a path is
    returned, not an error.  With no start set, the call fails after it has
    emptied the closed list left by the search before. *)
Lemma unreachable_start_accepted :
  startNode (@grid_blocked_start float _) = Some (0, 0) /\
  reachable (tiles (@grid_blocked_start float _) (0, 0)) = false /\
  fst (fst (findPath 4 Float64.new_AStarTiles grid_blocked_start)) = Path [(0, 0); (1, 1)] /\
  _closedList finder_rerun = [(0, 0); (0, 1)] /\
  fst (fst (findPath 3 finder_rerun grid_unset)) = TypeError /\
  _closedList (snd (fst (findPath 3 finder_rerun grid_unset))) = [].
Proof. vm_compute. repeat split; reflexivity. Qed.

(** On the row with a start and no target, the built-in heuristic throws
    once [g] of the start is set.  The heuristic [() => 0] lets the search
    run: it closes the three tiles and returns the empty path. *)
Lemma target_unset :
  targetNode (@grid_no_target float _) = None /\
  findPath 3 Float64.new_AStarTiles grid_no_target =
    (TypeError, withLists Float64.new_AStarTiles grid_no_target [] [],
     withTiles grid_no_target (setG (tiles grid_no_target) (0, 0) 0%float)) /\
  fst (fst (findPath 3 finder_plain grid_no_target)) = Path [] /\
  _openList (snd (fst (findPath 3 finder_plain grid_no_target))) = [] /\
  _closedList (snd (fst (findPath 3 finder_plain grid_no_target)))
    = [(0, 0); (0, 1); (0, 2)] /\
  _targetNode (snd (fst (findPath 3 finder_plain grid_no_target))) = None.
Proof. vm_compute. repeat split; reflexivity. Qed.

Lemma findPath_unchecked_witness :
  fst (fst (findPath 3 finder_plain grid_no_target)) = Path [].
Proof.
  pose proof (findPath_unchecked 3 finder_plain grid_no_target) as H.
  cbv beta iota delta [grid_no_target finder_plain startNode targetNode
                       _heuristic atNull ignoring] in H.
  destruct H as [_ [_ H]]. apply H; [unfold in_grid; simpl; lia | vm_compute; lia].
Defined.

(** On the 3 x 3 grid with the two hazards no tile is twice on the lists the
    search leaves, and the closed list holds at most nine tiles. *)
Lemma findPath_terminates_witness :
  let a' := snd (fst (findPath 9 Float64.new_AStarTiles (grid_hazard 0.5%float 2%float))) in
  NoDup (_closedList a' ++ _openList a') /\
  (length (_closedList a') <= numCells 3 3)%nat.
Proof.
  pose proof (findPath_terminates 9 Float64.new_AStarTiles (grid_hazard 0.5%float 2%float)
                (2, 2) (0, 0) eq_refl eq_refl) as H.
  cbv zeta in H. destruct H as (_ & Hnd & Hlen & _).
  - unfold in_grid; simpl; lia.
  - vm_compute. lia.
  - cbv zeta. split; [exact Hnd | exact Hlen].
Defined.

(** On that grid the path returned is a chain of parents without repetition,
    reversed. *)
Lemma parent_chain_reaches_start_witness :
  exists l, fst (fst (findPath 9 Float64.new_AStarTiles (grid_hazard 0.5%float 2%float)))
            = Path (rev l) /\ NoDup l.
Proof.
  assert (E : fst (fst (findPath 9 Float64.new_AStarTiles (grid_hazard 0.5%float 2%float)))
              = Path [(2, 2); (1, 2); (0, 1); (0, 0)]) by (vm_compute; reflexivity).
  rewrite (findPath_set 9 Float64.new_AStarTiles (grid_hazard 0.5%float 2%float)
             (2, 2) (0, 0) eq_refl eq_refl) in E.
  destruct (search (_heuristic Float64.new_AStarTiles) _ _ (0, 0) 9 _ (2, 2))
    as [st | st |] eqn:Hf; [|discriminate|discriminate].
  destruct (parent_chain_reaches_start 9 Float64.new_AStarTiles
              (grid_hazard 0.5%float 2%float) (2, 2) (0, 0) st eq_refl eq_refl
              hazard_good (fun x => diagonal_good (0, 0) x ltac:(unfold in_grid; simpl; lia))
              Hf) as (l & _ & Hnd & Hp & _).
  exists l. split; assumption.
Defined.

(** The assumption on the multipliers cannot be dropped: with a negative one
    two tiles end up as each other's parent and the reconstruction loop does
    not come back. *)
Lemma negative_multiplier_cycle :
  let X := findPath 100 Float64.new_AStarTiles grid_negative in
  fst (fst X) = Diverges /\
  parent (tiles (snd X) (0, 2)) = Some (0, 1) /\
  parent (tiles (snd X) (0, 1)) = Some (0, 2).
Proof. vm_compute. repeat split; reflexivity. Qed.

(** Start and target on the same, unreachable tile: the path is that tile. *)
Lemma findPath_start_is_target_witness :
  reachable (tiles (@grid_same float _) (0, 0)) = false /\
  fst (fst (findPath 0 Float64.new_AStarTiles grid_same)) = Path [(0, 0)].
Proof.
  split; [reflexivity|].
  apply (findPath_start_is_target 0 Float64.new_AStarTiles grid_same (0, 0)); reflexivity.
Defined.

End Examples.

(** * Further properties of the search *)

Section PathShape.

Context {num : Type} {N : Num num}.

(** ** The shape of a returned path *)

(** X1: a returned path that is not empty leads from the start to the
    target and passes through no tile twice; on a grid that holds its start,
    all its tiles are tiles of the grid, so that it is no longer than the
    grid has tiles. *)
Theorem path_from_start_to_target :
  forall (fuel : nat) (a : AStarTiles num) (grid : Grid2D num) (s t : NodeRef)
         (p : list NodeRef),
    startNode grid = Some s ->
    targetNode grid = Some t ->
    fst (fst (findPath fuel a grid)) = Path p ->
    p <> [] ->
    hd_error p = Some s /\ last p s = t /\ NoDup p /\
    (in_grid (numRows grid) (numCols grid) s ->
     (forall x, In x p -> in_grid (numRows grid) (numCols grid) x) /\
     (length p <= numCells (numRows grid) (numCols grid))%nat).
Proof.
  intros fuel a grid s t p Hs Ht H Hne.
  destruct (findPath_path_chain fuel a grid s t p Hs Ht H)
    as [-> | [st [l [_ [I [Hc ->]]]]]]; [contradiction|].
  assert (Hts : In t (seen st t)) by (apply expanded_seen; right; reflexivity).
  split; [|split; [|split]].
  - destruct (chain_last _ _ _ _ Hc) as [l' ->]. rewrite rev_app_distr. reflexivity.
  - destruct (chain_head _ _ _ _ Hc) as [l' ->]. simpl. apply last_last.
  - apply NoDup_rev. eapply chain_NoDup. exact Hc.
  - intros Hg.
    assert (Hin : forall x, In x (rev l) -> in_grid (numRows grid) (numCols grid) x).
    { intros x Hx. apply in_rev in Hx.
      apply (seen_in_grid _ _ _ _ _ _ Hg I).
      eapply chain_seen; eassumption. }
    split; [exact Hin|].
    apply distinct_tiles_bound; [|exact Hin].
    apply NoDup_rev. eapply chain_NoDup. exact Hc.
Qed.

(** X2: two consecutive tiles of a returned path are one step of the
    movement rule apart: the second is one of the up to eight tiles around
    the first, within the grid, it is reachable, and so are both tiles
    flanking a diagonal step. *)
Theorem path_moves_to_neighbours :
  forall (fuel : nat) (a : AStarTiles num) (grid : Grid2D num) (p : list NodeRef),
    fst (fst (findPath fuel a grid)) = Path p ->
    forall x y : NodeRef,
      consecutive p x y ->
      step (tiles grid) (numRows grid) (numCols grid) x y.
Proof.
  intros fuel a grid p H x y Hxy.
  destruct (findPath_path_set fuel a grid p H) as [s [Hs [[t Ht] | [k [Ht Hk]]]]];
    [|rewrite (no_target_no_path fuel a grid p Ht H) in Hxy;
      destruct Hxy as [l1 [l2 E]]; destruct l1; discriminate].
  destruct (findPath_path_chain fuel a grid s t p Hs Ht H)
    as [-> | [st [l [_ [I [Hc ->]]]]]].
  - destruct Hxy as [l1 [l2 E]]. destruct l1; discriminate.
  - apply consecutive_rev in Hxy. destruct Hxy as [l1 [l2 E]].
    assert (Ht' : In t (seen st t)) by (apply expanded_seen; right; reflexivity).
    destruct (chain_moves _ _ _ _ _ _ _ _ I Hc Ht' l1 l2 x y E) as [_ [_ [_ Hm]]].
    apply move_step. eapply move_static; [|exact Hm].
    intros z. apply entry_reachable.
Qed.

(** ** The membership tests *)

(** X13: [__isInOpenList] and [__isInClosedList] answer true exactly for the
    tiles on the open list and on the closed list. *)
Theorem list_tests_are_membership :
  forall (st : Search num) (node : NodeRef),
    (__isInOpenList st node = true <-> In node (openList st)) /\
    (__isInClosedList st node = true <-> In node (closedList st)).
Proof.
  intros st node. split; apply isInList_In.
Qed.

End PathShape.

(** ** A target that can be reached is found *)

Section Completeness.

Context {num : Type} {N : Num num}.

Variable heuristic : IHeuristic num.
Variables numR numC : Z.
Variables start target : NodeRef.
Variable s0 : Tiles num.

Lemma visit_seen_mono (node : NodeRef) (st : Search num) (temp x : NodeRef) :
  In x (seen st node) -> In x (seen (visit heuristic target node st temp) node).
Proof.
  intros Hx.
  destruct (visit_cases heuristic target node st temp)
    as [-> | [[_ [_ [_ ->]]] | [_ [_ [_ ->]]]]].
  - assumption.
  - exact Hx.
  - apply seen_push. left. assumption.
Qed.

Lemma fold_seen_mono (node : NodeRef) (l : list NodeRef) :
  forall st x, In x (seen st node) ->
  In x (seen (fold_left (visit heuristic target node) l st) node).
Proof.
  induction l as [|temp l IH]; intros st x Hx; simpl; [assumption|].
  apply IH. apply visit_seen_mono. assumption.
Qed.

(** A neighbour that passes the test is on a list once visited. *)
Lemma visit_lists (node : NodeRef) (st : Search num) (temp : NodeRef) :
  skipped (nodes st) node temp = false ->
  In temp (seen (visit heuristic target node st temp) node).
Proof.
  intros Hs.
  destruct (visit_cases heuristic target node st temp)
    as [E | [[_ [Hin [_ ->]]] | [_ [_ [_ ->]]]]].
  - rewrite E. unfold visit in E. rewrite Hs in E.
    unfold __isInOpenList, __isInClosedList in E.
    destruct (__isInList (openList st) temp || __isInList (closedList st) temp) eqn:Hl.
    + apply orb_true_iff in Hl. rewrite !isInList_In in Hl.
      unfold seen. apply in_or_app. destruct Hl; [right; right | left]; assumption.
    + exfalso. apply (f_equal (fun s => length (openList s))) in E. simpl in E.
      rewrite length_app in E. simpl in E. lia.
  - unfold seen; simpl. apply in_or_app. destruct Hin; [right; right | left]; assumption.
  - apply seen_push. right. reflexivity.
Qed.

Lemma fold_lists_moves (node : NodeRef) (l : list NodeRef) :
  incl l (neighbours numR numC node) ->
  forall st, Inv numR numC start s0 st node ->
  forall y, In y l -> skipped s0 node y = false ->
  In y (seen (fold_left (visit heuristic target node) l st) node).
Proof.
  induction l as [|temp l IH]; intros Hl st I y Hy Hs; simpl; [contradiction|].
  assert (I' : Inv numR numC start s0 (visit heuristic target node st temp) node).
  { apply Inv_visit; [assumption|]. apply Hl. left. reflexivity. }
  destruct Hy as [ <- | Hy].
  - apply fold_seen_mono. apply visit_lists.
    rewrite <- Hs. apply skipped_static. intros x. apply (inv_static _ _ _ _ _ _ I).
  - apply IH; try assumption. intros x Hx. apply Hl. right. assumption.
Qed.

(** Once the neighbours of [node] are visited, every move from [node] leads
    to a tile on a list. *)
Lemma visited_lists_moves (node : NodeRef) (st : Search num) (y : NodeRef) :
  Inv numR numC start s0 st node ->
  move s0 numR numC node y ->
  In y (seen (visited heuristic numR numC target node st) node).
Proof.
  intros I [Hn Hs]. unfold visited.
  apply fold_lists_moves; [apply incl_refl | assumption | assumption | assumption].
Qed.

(** A property handed on from the start of one iteration to the start of the
    next holds when the loop ends. *)
Lemma search_iterates (P : Search num -> NodeRef -> Prop) :
  (forall st node next rest, P st node -> node <> target ->
     Permutation (next :: rest) (openList (visited heuristic numR numC target node st)) ->
     P (mkSearch rest (closedList (visited heuristic numR numC target node st) ++ [node])
                 (nodes (visited heuristic numR numC target node st))) next) ->
  forall fuel st node, P st node ->
  match search heuristic numR numC target fuel st node with
  | Found st' => P st' target
  | NoPath st' =>
      exists st1 node1, P st1 node1 /\ node1 <> target /\
        openList (visited heuristic numR numC target node1 st1) = [] /\
        st' = mkSearch [] (closedList (visited heuristic numR numC target node1 st1)
                             ++ [node1])
                       (nodes (visited heuristic numR numC target node1 st1))
  | Timeout => True
  end.
Proof.
  intros Hnext. induction fuel as [|k IH]; intros st node HP; simpl.
  - destruct (ref_eqb node target) eqn:E; [|exact Logic.I].
    apply ref_eqb_eq in E. subst node. exact HP.
  - destruct (ref_eqb node target) eqn:E.
    { apply ref_eqb_eq in E. subst node. exact HP. }
    apply ref_eqb_neq in E.
    unfold expand. fold (visited heuristic numR numC target node st). simpl.
    pose proof (sort_perm (nodes (visited heuristic numR numC target node st))
                  (openList (visited heuristic numR numC target node st))) as Pm.
    destruct (sort (nodes (visited heuristic numR numC target node st))
                   (openList (visited heuristic numR numC target node st)))
      as [|next rest] eqn:Es.
    + exists st, node. apply Permutation_nil in Pm. rewrite Pm.
      repeat split; assumption.
    + apply IH. apply Hnext; assumption.
Qed.

Lemma Explored_next (st : Search num) (node next : NodeRef) (rest : list NodeRef) :
  Explored numR numC start target s0 st node -> node <> target ->
  Permutation (next :: rest) (openList (visited heuristic numR numC target node st)) ->
  Explored numR numC start target s0
           (mkSearch rest (closedList (visited heuristic numR numC target node st) ++ [node])
                     (nodes (visited heuristic numR numC target node st))) next.
Proof.
  intros [I [Ht Hc]] Hne Pm.
  pose proof (Inv_visited heuristic numR numC start target s0 node st I) as I1.
  pose proof (seen_next _ node next rest Pm) as PS.
  split; [apply Inv_next; assumption|]. simpl. split.
  - rewrite visited_closed. intros Hin. apply in_app_or in Hin.
    destruct Hin as [Hin | [Hin | []]];
      [apply Ht; assumption | apply Hne; assumption].
  - intros x Hx y Hm. eapply Permutation_in; [apply Permutation_sym, PS|].
    rewrite visited_closed in Hx.
    apply in_app_or in Hx. destruct Hx as [Hx | [ <- | []]].
    + apply fold_seen_mono. apply (Hc x Hx y Hm).
    + apply visited_lists_moves; assumption.
Qed.

Lemma Explored_init : Explored numR numC start target s0 (mkSearch [] [] s0) start.
Proof.
  split; [apply Inv_init|]. simpl. split; [tauto|]. intros x [].
Qed.

(** When the open list runs empty, every tile that moves lead to from the
    start is closed; the target is not among them. *)
Lemma exhausted_unreachable (fuel : nat) (st : Search num) :
  search heuristic numR numC target fuel (mkSearch [] [] s0) start = NoPath st ->
  ~ connected (move s0 numR numC) start target.
Proof.
  intros Hf Hconn.
  pose proof (search_iterates (Explored numR numC start target s0) Explored_next
                fuel _ _ Explored_init) as He.
  rewrite Hf in He. destruct He as [st1 [node1 [[I [Ht Hc]] [Hne [Ho _]]]]].
  pose proof (Inv_visited heuristic numR numC start target s0 node1 st1 I) as I1.
  assert (Hall : forall y, connected (move s0 numR numC) start y ->
                 In y (closedList st1) \/ y = node1).
  { intros y Hy. induction Hy as [|x y Hx IH Hm].
    - apply (inv_start _ _ _ _ _ _ I).
    - assert (Hs : In y (seen (visited heuristic numR numC target node1 st1) node1)).
      { destruct IH as [IH | ->].
        - apply fold_seen_mono. apply (Hc x IH y Hm).
        - apply visited_lists_moves; assumption. }
      unfold seen in Hs. rewrite Ho, visited_closed in Hs.
      apply in_app_or in Hs. destruct Hs as [Hs | [Hs | []]]; [left | right]; auto. }
  destruct (Hall target Hconn) as [Hin | Heq]; [apply Ht; assumption | apply Hne; auto].
Qed.

(** When the open list runs empty, the closed list holds the tiles that
    moves lead to from the start, and no other. *)
Lemma exhausted_component (fuel : nat) (st : Search num) :
  search heuristic numR numC target fuel (mkSearch [] [] s0) start = NoPath st ->
  openList st = [] /\
  forall y, In y (closedList st) <-> connected (move s0 numR numC) start y.
Proof.
  intros Hf.
  pose proof (search_iterates (Explored numR numC start target s0) Explored_next
                fuel _ _ Explored_init) as He.
  rewrite Hf in He. destruct He as [st1 [node1 [[I [Ht Hc]] [Hne [Ho ->]]]]].
  simpl. split; [reflexivity|]. rewrite visited_closed.
  intros y. split.
  - intros Hy. apply (inv_conn _ _ _ _ _ _ I). unfold seen.
    apply in_app_or in Hy. apply in_or_app.
    destruct Hy as [Hy | [Hy | []]]; [left; assumption | right; left; assumption].
  - intros Hy. induction Hy as [|x y Hx IH Hm].
    + apply in_or_app. destruct (inv_start _ _ _ _ _ _ I) as [Hs | Hs];
        [left; assumption | right; left; symmetry; assumption].
    + assert (Hs : In y (seen (visited heuristic numR numC target node1 st1) node1)).
      { apply in_app_or in IH. destruct IH as [IH | [ <- | []]].
        - apply fold_seen_mono. apply (Hc x IH y Hm).
        - apply visited_lists_moves; assumption. }
      unfold seen in Hs. rewrite Ho, visited_closed in Hs. exact Hs.
Qed.

End Completeness.

Section Reached.

Context {num : Type} {N : Num num}.

(** From a reachable tile, a step of the movement rule is a move the
    neighbour loop makes. *)
Lemma step_move (s : Tiles num) (R C : Z) (p x : NodeRef) :
  reachable (s p) = true -> step s R C p x -> move s R C p x.
Proof.
  intros Hp [[Hg [Hr [Hc Hne]]] [Hx Hdiag]]. split.
  - apply In_neighbours. unfold in_grid in Hg. lia.
  - unfold skipped, getNode. rewrite Hx. simpl.
    assert (E : ref_eqb x p = false).
    { apply ref_eqb_neq. intros ->. destruct Hne as [Hne | Hne]; apply Hne; reflexivity. }
    rewrite E. simpl.
    destruct (Z.eq_dec (row x) (row p)) as [Er | Er];
      destruct (Z.eq_dec (col x) (col p)) as [Ec | Ec].
    + exfalso. destruct Hne as [Hne | Hne]; apply Hne; assumption.
    + rewrite <- Er.
      replace (row x, col x) with x by (destruct x; reflexivity).
      replace (row x, col p) with p
        by (destruct p; unfold row, col in *; simpl in *; subst; reflexivity).
      rewrite Hx, Hp. reflexivity.
    + rewrite Ec.
      replace (row p, col p) with p by (destruct p; reflexivity).
      replace (row x, col p) with x
        by (destruct x; unfold row, col in *; simpl in *; subst; reflexivity).
      rewrite Hx, Hp. reflexivity.
    + destruct (Hdiag Er Ec) as [H1 H2]. unfold getNode in *. rewrite H1, H2. reflexivity.
Qed.

Lemma connected_step_move (s : Tiles num) (R C : Z) (a x : NodeRef) :
  reachable (s a) = true ->
  connected (step s R C) a x ->
  connected (move s R C) a x /\ reachable (s x) = true.
Proof.
  intros Ha H. induction H as [|x y Hx [IH Hr] Hs].
  - split; [constructor | assumption].
  - split; [|apply Hs].
    econstructor; [exact IH|]. apply step_move; assumption.
Qed.

(** X3: from a reachable start, a target that steps of the movement rule
    lead to is found: [findPath] does not return the empty path, and within
    one iteration per tile the main loop stops on the target. *)
Theorem reachable_target_is_found :
  forall (fuel : nat) (a : AStarTiles num) (grid : Grid2D num) (s t : NodeRef),
    startNode grid = Some s ->
    targetNode grid = Some t ->
    reachable (tiles grid s) = true ->
    connected (step (tiles grid) (numRows grid) (numCols grid)) s t ->
    fst (fst (findPath fuel a grid)) <> Path [] /\
    (in_grid (numRows grid) (numCols grid) s ->
     (numCells (numRows grid) (numCols grid) <= fuel)%nat ->
     exists st,
       search (_heuristic a) (numRows grid) (numCols grid) t fuel (entry a grid s t) s
       = Found st).
Proof.
  intros fuel a grid s t Hs Ht Hr Hconn.
  assert (Hmv : connected (move (nodes (entry a grid s t)) (numRows grid) (numCols grid)) s t).
  { destruct (connected_step_move _ _ _ _ _ Hr Hconn) as [Hm _].
    eapply connected_mono; [|exact Hm]. intros p y Hpy.
    eapply move_static; [|exact Hpy]. intros z. symmetry. apply entry_reachable. }
  assert (Hno : forall st,
             search (_heuristic a) (numRows grid) (numCols grid) t fuel
                    (entry a grid s t) s <> NoPath st).
  { intros st Hf. eapply exhausted_unreachable; [exact Hf | exact Hmv]. }
  split.
  - rewrite (findPath_set fuel a grid s t Hs Ht).
    destruct (search (_heuristic a) (numRows grid) (numCols grid) t fuel
                     (entry a grid s t) s) as [st | st |] eqn:Hf; simpl.
    + intros Hu. apply unwind_chain in Hu. destruct Hu as [l [Hc Hl]].
      destruct (chain_head _ _ _ _ Hc) as [l' ->]. simpl in Hl.
      destruct (rev l'); discriminate.
    + exfalso. apply (Hno st). reflexivity.
    + discriminate.
  - intros Hg Hfuel.
    pose proof (search_terminates (_heuristic a) (numRows grid) (numCols grid) s t
                  (nodes (entry a grid s t)) fuel Hg (entry a grid s t) s
                  (Inv_init _ _ _ _)) as Hterm.
    destruct (search (_heuristic a) (numRows grid) (numCols grid) t fuel
                     (entry a grid s t) s) as [st | st |] eqn:Hf.
    + exists st. reflexivity.
    + exfalso. apply (Hno st). reflexivity.
    + exfalso. apply Hterm; [simpl; lia | reflexivity].
Qed.

Lemma empty_path_component (fuel : nat) (a : AStarTiles num) (grid : Grid2D num)
      (s t : NodeRef) :
  startNode grid = Some s ->
  targetNode grid = Some t ->
  reachable (tiles grid s) = true ->
  fst (fst (findPath fuel a grid)) = Path [] ->
  _openList (snd (fst (findPath fuel a grid))) = [] /\
  forall y, In y (_closedList (snd (fst (findPath fuel a grid)))) <->
            connected (step (tiles grid) (numRows grid) (numCols grid)) s y.
Proof.
  intros Hs Ht Hr H.
  rewrite (findPath_set fuel a grid s t Hs Ht) in *.
  destruct (search (_heuristic a) (numRows grid) (numCols grid) t fuel
                   (entry a grid s t) s) as [st | st |] eqn:Hf; simpl in *.
  - exfalso. apply unwind_chain in H. destruct H as [l [Hc Hl]].
    destruct (chain_head _ _ _ _ Hc) as [l' ->]. simpl in Hl.
    destruct (rev l'); discriminate.
  - destruct (exhausted_component _ _ _ _ _ _ fuel st Hf) as [Ho Hcl].
    split; [exact Ho|]. intros y. rewrite Hcl. split; intros Hy.
    + eapply connected_mono; [|exact Hy]. intros p x Hm. apply move_step.
      eapply move_static; [|exact Hm]. intros z. apply entry_reachable.
    + destruct (connected_step_move _ _ _ _ _ Hr Hy) as [Hm _].
      eapply connected_mono; [|exact Hm]. intros p x Hpx.
      eapply move_static; [|exact Hpx]. intros z. symmetry. apply entry_reachable.
  - discriminate.
Qed.

(** X4: when [findPath] returns the empty path from a reachable start, it
    leaves the open list empty and on the closed list the tiles that steps of
    the movement rule lead to from the start, and no other. *)
Theorem no_path_explores_all :
  forall (fuel : nat) (a : AStarTiles num) (grid : Grid2D num) (s : NodeRef),
    startNode grid = Some s ->
    reachable (tiles grid s) = true ->
    fst (fst (findPath fuel a grid)) = Path [] ->
    _openList (snd (fst (findPath fuel a grid))) = [] /\
    forall y, In y (_closedList (snd (fst (findPath fuel a grid)))) <->
              connected (step (tiles grid) (numRows grid) (numCols grid)) s y.
Proof.
  intros fuel a grid s Hs Hr H.
  destruct (findPath_path_set fuel a grid [] H) as [s' [Hs' [[t Ht] | [k [Ht Hk]]]]].
  - exact (empty_path_component fuel a grid s t Hs Ht Hr H).
  - destruct (findPath_null fuel a grid s k Hs Ht Hk)
      as [a1 [grid1 [E [Eo [Ec _]]]]].
    pose proof (empty_path_component fuel (withHeuristic a (ignoring k))
                  (withTarget grid (noTile s)) s (noTile s) Hs eq_refl Hr) as B.
    rewrite E in B. simpl in B. rewrite Eo, Ec in B. exact (B H).
Qed.

End Reached.

(** ** What a search reads *)

Section Agreement.

Context {num : Type} {N : Num num}.

Variable heuristic : IHeuristic num.
Variables numR numC : Z.
Variables start target : NodeRef.

Lemma agree_seen (st st' : Search num) (node : NodeRef) :
  agree start st st' node -> seen st' node = seen st node.
Proof. intros [Ho [Hc _]]. unfold seen. rewrite Ho, Hc. reflexivity. Qed.

Lemma assign_agree (s s' : Tiles num) (temp node : NodeRef) (f' g' h' : num)
      (x : NodeRef) :
  (x <> temp ->
   g (s x) = g (s' x) /\ h (s x) = h (s' x) /\ f (s x) = f (s' x) /\
   (x <> start -> parent (s x) = parent (s' x))) ->
  g (assign s temp node f' g' h' x) = g (assign s' temp node f' g' h' x) /\
  h (assign s temp node f' g' h' x) = h (assign s' temp node f' g' h' x) /\
  f (assign s temp node f' g' h' x) = f (assign s' temp node f' g' h' x) /\
  (x <> start ->
   parent (assign s temp node f' g' h' x) = parent (assign s' temp node f' g' h' x)).
Proof.
  intros H. destruct (ref_eqb x temp) eqn:E.
  - apply ref_eqb_eq in E. subst x. rewrite !assign_same. simpl. tauto.
  - apply ref_eqb_neq in E. rewrite !assign_other by assumption. apply H, E.
Qed.

Lemma assign_sameStatic (s s' : Tiles num) (temp node : NodeRef) (f' g' h' : num) :
  sameStatic s s' ->
  sameStatic (assign s temp node f' g' h') (assign s' temp node f' g' h').
Proof.
  intros H x.
  destruct (assign_static s temp node f' g' h' x) as [-> ->].
  destruct (assign_static s' temp node f' g' h' x) as [-> ->]. apply H.
Qed.

(** A visit does the same to two states that agree. *)
Lemma visit_agree (node : NodeRef) (st st' : Search num) (temp : NodeRef) :
  agree start st st' node ->
  agree start (visit heuristic target node st temp)
        (visit heuristic target node st' temp) node.
Proof.
  intros A. pose proof A as [Ho [Hc [Hst Hf]]]. unfold visit.
  rewrite (skipped_static (nodes st) (nodes st') node temp)
    by (intros x; apply Hst).
  destruct (skipped (nodes st') node temp) eqn:Hs; [exact A|].
  unfold __isInOpenList, __isInClosedList. rewrite <- Ho, <- Hc.
  assert (Hnode : In node (seen st node)) by (apply expanded_seen; right; reflexivity).
  destruct (Hf node Hnode) as [Hg _]. destruct (Hst temp) as [_ Hm].
  rewrite <- Hg, <- Hm.
  set (g' := add (g (nodes st node)) (mul (stepCost node temp) (multiplier (nodes st temp)))).
  set (h' := heuristic temp target). set (f' := add g' h').
  destruct (__isInList (openList st) temp || __isInList (closedList st) temp) eqn:Hl.
  - assert (Ht : In temp (seen st node)).
    { apply orb_true_iff in Hl. rewrite !isInList_In in Hl.
      unfold seen. apply in_or_app. destruct Hl; [right; right | left]; assumption. }
    destruct (Hf temp Ht) as [_ [_ [Hft _]]]. rewrite <- Hft.
    destruct (gtb (f (nodes st temp)) f'); [|exact A].
    split; [reflexivity|]. split; [reflexivity|]. split; [apply assign_sameStatic, Hst|].
    simpl. intros x Hx. apply assign_agree. intros _. apply Hf, Hx.
  - split; [reflexivity|]. split; [reflexivity|].
    split; [apply assign_sameStatic, Hst|].
    simpl. intros x Hx. apply assign_agree. intros Hne. apply Hf.
    apply seen_push in Hx. destruct Hx as [Hx | Hx]; [assumption | contradiction].
Qed.

Lemma visited_agree (node : NodeRef) (st st' : Search num) :
  agree start st st' node ->
  agree start (visited heuristic numR numC target node st)
        (visited heuristic numR numC target node st') node.
Proof.
  unfold visited. generalize (neighbours numR numC node) as l. intros l.
  revert st st'. induction l as [|temp l IH]; intros st st' A; simpl; [exact A|].
  apply IH. apply visit_agree. exact A.
Qed.

Lemma insert_agree (s s' : Tiles num) (x : NodeRef) (l : list NodeRef) :
  (forall y, In y (x :: l) -> f (s y) = f (s' y)) ->
  insert s x l = insert s' x l.
Proof.
  induction l as [|y l IH]; intros H; simpl; [reflexivity|].
  unfold compareF. rewrite (H y), (H x) by (simpl; tauto).
  destruct (0 <? _); [reflexivity|]. f_equal. apply IH.
  intros z [ <- | Hz]; apply H; simpl; tauto.
Qed.

Lemma sort_agree (s s' : Tiles num) (l : list NodeRef) :
  (forall y, In y l -> f (s y) = f (s' y)) -> sort s l = sort s' l.
Proof.
  unfold sort. intros H.
  assert (G : forall l acc, (forall y, In y (l ++ acc) -> f (s y) = f (s' y)) ->
              fold_left (fun acc x => insert s x acc) l acc =
              fold_left (fun acc x => insert s' x acc) l acc).
  { clear l H. induction l as [|x l IH]; intros acc H; simpl; [reflexivity|].
    rewrite <- (insert_agree s s' x acc).
    - apply IH. intros y Hy. apply H. apply in_app_or in Hy. simpl.
      destruct Hy as [Hy | Hy]; [right; apply in_or_app; left; assumption|].
      apply (Permutation_in _ (insert_perm s x acc)) in Hy.
      destruct Hy as [ <- | Hy]; [left; reflexivity | right; apply in_or_app; right; assumption].
    - intros y [ <- | Hy]; apply H; simpl; [left; reflexivity|].
      right. apply in_or_app. right. assumption. }
  apply G. intros y Hy. rewrite app_nil_r in Hy. apply H, Hy.
Qed.

Lemma search_agree (fuel : nat) :
  forall st st' node, agree start st st' node ->
  alike start target (search heuristic numR numC target fuel st node)
        (search heuristic numR numC target fuel st' node).
Proof.
  induction fuel as [|k IH]; intros st st' node A; simpl.
  - destruct (ref_eqb node target) eqn:E; simpl; [|exact Logic.I].
    apply ref_eqb_eq in E. subst node. exact A.
  - destruct (ref_eqb node target) eqn:E; simpl.
    { apply ref_eqb_eq in E. subst node. exact A. }
    unfold expand. fold (visited heuristic numR numC target node st).
    fold (visited heuristic numR numC target node st'). simpl.
    pose proof (visited_agree node st st' A) as [Ho [Hc [Hst Hf]]].
    rewrite <- Ho, <- Hc.
    rewrite <- (sort_agree (nodes (visited heuristic numR numC target node st))
                           (nodes (visited heuristic numR numC target node st'))).
    + pose proof (sort_perm (nodes (visited heuristic numR numC target node st))
                    (openList (visited heuristic numR numC target node st))) as Pm.
      destruct (sort (nodes (visited heuristic numR numC target node st))
                     (openList (visited heuristic numR numC target node st)))
        as [|next rest]; simpl.
      * repeat split; try reflexivity; apply Hst.
      * apply IH. split; [reflexivity|]. split; [reflexivity|]. split; [exact Hst|].
        intros x Hx. apply Hf.
        eapply Permutation_in; [apply (seen_next _ node next rest Pm) | exact Hx].
    + intros y Hy. apply Hf. unfold seen. apply in_or_app. right. right. assumption.
Qed.

(** The reconstruction follows the same links in both. *)
Lemma unwind_agree (s0 : Tiles num) (st st' : Search num) (node : NodeRef) :
  Inv numR numC start s0 st node ->
  agree start st st' node ->
  forall fuel x acc, In x (seen st node) ->
  unwind start fuel (nodes st) x acc = unwind start fuel (nodes st') x acc.
Proof.
  intros I [_ [_ [_ Hf]]]. induction fuel as [|k IH]; intros x acc Hx; simpl.
  - reflexivity.
  - destruct (ref_eqb x start) eqn:E; [reflexivity|]. apply ref_eqb_neq in E.
    destruct (Hf x Hx) as [_ [_ [_ Hp]]]. rewrite <- (Hp E).
    destruct (inv_parent _ _ _ _ _ _ I x Hx E) as [q [-> [Hq _]]].
    apply IH. apply expanded_seen. assumption.
Qed.

End Agreement.

Section StaticOnly.

Context {num : Type} {N : Num num}.

Lemma entry_agree (a a' : AStarTiles num) (grid grid' : Grid2D num) (s t : NodeRef) :
  _heuristic a = _heuristic a' ->
  sameStatic (tiles grid) (tiles grid') ->
  agree s (entry a grid s t) (entry a' grid' s t) s.
Proof.
  intros Hh Hst. unfold entry. rewrite <- Hh.
  split; [reflexivity|]. split; [reflexivity|]. split.
  - intros x. simpl.
    destruct (initStart_static (tiles grid) s (_heuristic a s t) x) as [-> ->].
    destruct (initStart_static (tiles grid') s (_heuristic a s t) x) as [-> ->].
    apply Hst.
  - intros x [ <- | [] ]. simpl. unfold initStart. rewrite ref_eqb_refl. simpl.
    repeat split; try reflexivity. intros Hne. contradiction.
Qed.

(** The two loops: the result and the lists left depend on the size of the
    grid, its reachable tiles and multipliers, the heuristic, the start and
    the target only. *)
Lemma loops_agree (fuel : nat) (a a' : AStarTiles num) (grid grid' : Grid2D num)
      (heur : IHeuristic num) (s t : NodeRef) :
  numRows grid = numRows grid' ->
  numCols grid = numCols grid' ->
  sameStatic (tiles grid) (tiles grid') ->
  fst (fst (loops fuel a grid heur s t)) = fst (fst (loops fuel a' grid' heur s t)) /\
  _openList (snd (fst (loops fuel a grid heur s t)))
    = _openList (snd (fst (loops fuel a' grid' heur s t))) /\
  _closedList (snd (fst (loops fuel a grid heur s t)))
    = _closedList (snd (fst (loops fuel a' grid' heur s t))).
Proof.
  intros HR HC Hst. unfold loops. rewrite <- HR, <- HC.
  pose proof (search_agree heur (numRows grid) (numCols grid) s t fuel
                _ _ s (entry_agree (withHeuristic a heur) (withHeuristic a' heur)
                         grid grid' s t eq_refl Hst)) as Hal.
  pose proof (search_ended heur (numRows grid) (numCols grid) s t
                (initStart (tiles grid) s (heur s t)) fuel _ s (Inv_init _ _ _ _)) as He.
  change (entry (withHeuristic a heur) grid s t)
    with (mkSearch [] [] (initStart (tiles grid) s (heur s t))) in Hal.
  change (entry (withHeuristic a' heur) grid' s t)
    with (mkSearch [] [] (initStart (tiles grid') s (heur s t))) in Hal.
  destruct (search heur (numRows grid) (numCols grid) t fuel
                   (mkSearch [] [] (initStart (tiles grid) s (heur s t))) s)
    as [st | st |];
    destruct (search heur (numRows grid) (numCols grid) t fuel
                     (mkSearch [] [] (initStart (tiles grid') s (heur s t))) s)
      as [st' | st' |];
    simpl in Hal; try contradiction; simpl.
  - pose proof Hal as [Ho [Hc _]]. split; [|split; assumption].
    eapply unwind_agree; [exact He | exact Hal |].
    apply expanded_seen. right. reflexivity.
  - destruct Hal as [Ho [Hc _]]. repeat split; assumption.
  - repeat split.
Qed.

(** The shared core: the result and the lists left depend on the layout and
    the heuristic only. *)
Lemma findPath_agree (fuel : nat) (a a' : AStarTiles num) (grid grid' : Grid2D num) :
  _heuristic a = _heuristic a' ->
  sameLayout grid grid' ->
  fst (fst (findPath fuel a grid)) = fst (fst (findPath fuel a' grid')) /\
  _openList (snd (fst (findPath fuel a grid)))
    = _openList (snd (fst (findPath fuel a' grid'))) /\
  _closedList (snd (fst (findPath fuel a grid)))
    = _closedList (snd (fst (findPath fuel a' grid'))).
Proof.
  intros Hh [HR [HC [Hs [Ht Hst]]]]. unfold findPath.
  rewrite <- Hs, <- Ht, <- Hh.
  destruct (startNode grid) as [s|]; [|repeat split].
  destruct (targetNode grid) as [t|].
  - apply loops_agree; assumption.
  - destruct (atNull (_heuristic a)) as [k|]; [|repeat split].
    apply loops_agree; assumption.
Qed.

(** X5: [findPath] reads nothing of what an earlier search left: called on
    two grids of the same size, start, target, reachable tiles and
    multipliers, by two finders with the same heuristic, it returns the same
    result and leaves the same lists, whatever the search fields of the tiles
    and the lists of the finders were. *)
Theorem findPath_ignores_search_fields :
  forall (fuel : nat) (a a' : AStarTiles num) (grid grid' : Grid2D num),
    _heuristic a = _heuristic a' ->
    numRows grid = numRows grid' ->
    numCols grid = numCols grid' ->
    startNode grid = startNode grid' ->
    targetNode grid = targetNode grid' ->
    (forall x, reachable (tiles grid x) = reachable (tiles grid' x) /\
               multiplier (tiles grid x) = multiplier (tiles grid' x)) ->
    fst (fst (findPath fuel a grid)) = fst (fst (findPath fuel a' grid')) /\
    _openList (snd (fst (findPath fuel a grid)))
      = _openList (snd (fst (findPath fuel a' grid'))) /\
    _closedList (snd (fst (findPath fuel a grid)))
      = _closedList (snd (fst (findPath fuel a' grid'))).
Proof.
  intros fuel a a' grid grid' Hh HR HC Hs Ht Hst.
  apply findPath_agree; [assumption|]. repeat split; try assumption; apply Hst.
Qed.

(** What the two loops leave has the layout they were given. *)
Lemma loops_keep_layout (fuel : nat) (a : AStarTiles num) (grid : Grid2D num)
      (heur : IHeuristic num) (s t : NodeRef) :
  _heuristic (snd (fst (loops fuel a grid heur s t))) = _heuristic a /\
  _startNode (snd (fst (loops fuel a grid heur s t))) = startNode grid /\
  _targetNode (snd (fst (loops fuel a grid heur s t))) = targetNode grid /\
  sameLayout (snd (loops fuel a grid heur s t)) grid.
Proof.
  unfold loops, sameLayout.
  pose proof (search_ended heur (numRows grid) (numCols grid) s t
                (initStart (tiles grid) s (heur s t)) fuel _ s (Inv_init _ _ _ _)) as He.
  assert (Hst : forall st', (forall x,
                    reachable (nodes st' x)
                    = reachable (initStart (tiles grid) s (heur s t) x) /\
                    multiplier (nodes st' x)
                    = multiplier (initStart (tiles grid) s (heur s t) x)) ->
                sameStatic (nodes st') (tiles grid)).
  { intros st' H x. destruct (H x) as [-> ->]. apply initStart_static. }
  destruct (search heur (numRows grid) (numCols grid) t fuel
                   (mkSearch [] [] (initStart (tiles grid) s (heur s t))) s)
    as [st | st |]; simpl in *.
  - repeat split; try reflexivity; apply Hst, (inv_static _ _ _ _ _ _ He).
  - destruct He as [st1 [node [I [_ ->]]]].
    repeat split; try reflexivity; apply Hst, (inv_static _ _ _ _ _ _ I).
  - repeat split; try reflexivity; apply initStart_static.
Qed.

(** What [findPath] leaves has the layout it was given. *)
Lemma findPath_keeps_layout (fuel : nat) (a : AStarTiles num) (grid : Grid2D num) :
  _heuristic (snd (fst (findPath fuel a grid))) = _heuristic a /\
  _startNode (snd (fst (findPath fuel a grid))) = startNode grid /\
  _targetNode (snd (fst (findPath fuel a grid))) = targetNode grid /\
  sameLayout (snd (findPath fuel a grid)) grid.
Proof.
  unfold findPath.
  destruct (startNode grid) as [s|] eqn:Hs.
  2:{ unfold sameLayout. simpl. rewrite Hs. repeat split; reflexivity. }
  destruct (targetNode grid) as [t|] eqn:Ht.
  - rewrite <- Hs, <- Ht. apply loops_keep_layout.
  - destruct (atNull (_heuristic a)) as [k|].
    + rewrite <- Hs, <- Ht. apply loops_keep_layout.
    + unfold sameLayout. simpl. rewrite Hs, Ht. repeat split; try reflexivity;
        unfold setG; destruct (ref_eqb x s) eqn:E; try reflexivity;
        apply ref_eqb_eq in E; subst x; reflexivity.
Qed.

(** X6: [findPath] changes neither the heuristic of the finder nor, on the
    grid, the size, the start, the target, or the [reachable] and
    [multiplier] of any tile; it leaves the finder with the start and the
    target of the grid. *)
Theorem findPath_leaves_the_layout :
  forall (fuel : nat) (a : AStarTiles num) (grid : Grid2D num),
    _heuristic (snd (fst (findPath fuel a grid))) = _heuristic a /\
    _startNode (snd (fst (findPath fuel a grid))) = startNode grid /\
    _targetNode (snd (fst (findPath fuel a grid))) = targetNode grid /\
    numRows (snd (findPath fuel a grid)) = numRows grid /\
    numCols (snd (findPath fuel a grid)) = numCols grid /\
    startNode (snd (findPath fuel a grid)) = startNode grid /\
    targetNode (snd (findPath fuel a grid)) = targetNode grid /\
    forall x,
      reachable (tiles (snd (findPath fuel a grid)) x) = reachable (tiles grid x) /\
      multiplier (tiles (snd (findPath fuel a grid)) x) = multiplier (tiles grid x).
Proof.
  intros fuel a grid.
  destruct (findPath_keeps_layout fuel a grid)
    as [Hh [H1 [H2 [HR [HC [Hs [Ht Hst]]]]]]].
  repeat split; try assumption; apply Hst.
Qed.

(** X7: calling [findPath] again, on the grid and with the finder the first
    call left, returns what the first call returned. *)
Theorem findPath_repeatable :
  forall (fuel : nat) (a : AStarTiles num) (grid : Grid2D num),
    fst (fst (findPath fuel (snd (fst (findPath fuel a grid)))
                       (snd (findPath fuel a grid))))
    = fst (fst (findPath fuel a grid)).
Proof.
  intros fuel a grid.
  destruct (findPath_keeps_layout fuel a grid) as [Hh [_ [_ Hl]]].
  apply (findPath_agree fuel _ a _ grid Hh Hl).
Qed.

End StaticOnly.

(** ** The node expanded next *)

Section NextNode.

Context {num : Type} {N : Num num} {good : num -> Prop} {O : OrderedOn good}.

Hypothesis eqb_not_gtb :
  forall a b : num, good a -> good b -> eqb a b = true -> gtb a b = false.

Lemma compareF_pos (s : Tiles num) (y x : NodeRef) :
  good (f (s x)) -> good (f (s y)) ->
  (0 <? compareF s y x) = true -> lte (f (s x)) (f (s y)).
Proof.
  intros Gx Gy. unfold compareF. destruct (eqb (f (s y)) (f (s x))); [discriminate|].
  destruct (gtb (f (s y)) (f (s x))) eqn:E; [|discriminate].
  intros _. apply gtb_le; assumption.
Qed.

Lemma compareF_nonpos (s : Tiles num) (y x : NodeRef) :
  good (f (s x)) -> good (f (s y)) ->
  (0 <? compareF s y x) = false -> lte (f (s y)) (f (s x)).
Proof.
  intros Gx Gy. unfold compareF, lte. destruct (eqb (f (s y)) (f (s x))) eqn:Ee.
  - intros _. apply eqb_not_gtb; assumption.
  - destruct (gtb (f (s y)) (f (s x))); [discriminate | reflexivity].
Qed.

Lemma insert_ascending (s : Tiles num) (x : NodeRef) (l : list NodeRef) :
  good (f (s x)) -> (forall z, In z l -> good (f (s z))) ->
  ascending s l -> ascending s (insert s x l).
Proof.
  intros Gx. unfold ascending. induction l as [|y l IH]; intros Gl H; simpl.
  - repeat constructor.
  - apply StronglySorted_inv in H. destruct H as [Hl Hy].
    assert (Gy : good (f (s y))) by (apply Gl; left; reflexivity).
    destruct (0 <? compareF s y x) eqn:E.
    + apply compareF_pos in E; try assumption. constructor; [constructor; assumption|].
      constructor; [assumption|].
      rewrite Forall_forall in Hy. apply Forall_forall. intros z Hz.
      apply (lte_trans _ (f (s y))); try assumption; [|apply Hy, Hz].
      apply Gl. right. exact Hz.
    + apply compareF_nonpos in E; try assumption.
      constructor; [apply IH; [intros z Hz; apply Gl; right; exact Hz | assumption]|].
      eapply Permutation_Forall; [apply Permutation_sym, insert_perm|].
      constructor; assumption.
Qed.

Lemma sort_ascending (s : Tiles num) (l : list NodeRef) :
  (forall z, In z l -> good (f (s z))) -> ascending s (sort s l).
Proof.
  unfold sort. intros Gl.
  assert (G : forall l acc,
              (forall z, In z l -> good (f (s z))) ->
              (forall z, In z acc -> good (f (s z))) ->
              ascending s acc ->
              ascending s (fold_left (fun acc x => insert s x acc) l acc)).
  { clear l Gl. induction l as [|x l IH]; intros acc Gl Ga H; simpl; [assumption|].
    apply IH.
    - intros z Hz. apply Gl. right. exact Hz.
    - intros z Hz. apply (Permutation_in _ (insert_perm s x acc)) in Hz.
      destruct Hz as [ <- | Hz]; [apply Gl; left; reflexivity | apply Ga, Hz].
    - apply insert_ascending; [apply Gl; left; reflexivity | assumption | assumption]. }
  apply G; [assumption | intros z [] | constructor].
Qed.

Lemma sort_least (s : Tiles num) (l : list NodeRef) (next : NodeRef)
      (rest : list NodeRef) :
  (forall z, In z l -> good (f (s z))) ->
  sort s l = next :: rest ->
  forall y, In y l -> lte (f (s next)) (f (s y)).
Proof.
  intros Gl E y Hy. pose proof (sort_ascending s l Gl) as Hs. rewrite E in Hs.
  pose proof Hy as Hy0.
  apply (Permutation_in _ (Permutation_sym (sort_perm s l))) in Hy. rewrite E in Hy.
  destruct Hy as [ <- | Hy]; [apply lte_refl, Gl, Hy0|].
  apply StronglySorted_inv in Hs. destruct Hs as [_ Hall].
  rewrite Forall_forall in Hall. apply Hall, Hy.
Qed.

(** *** The sort is stable *)

Lemma precedes_cons (x y z : NodeRef) (l : list NodeRef) :
  precedes x y l -> precedes x y (z :: l).
Proof. intros [l1 [l2 [l3 ->]]]. exists (z :: l1), l2, l3. reflexivity. Qed.

Lemma precedes_head (x y : NodeRef) (l : list NodeRef) :
  In y l -> precedes x y (x :: l).
Proof.
  intros H. apply in_split in H. destruct H as [l2 [l3 ->]].
  exists [], l2, l3. reflexivity.
Qed.

Lemma precedes_inv (x y z : NodeRef) (l : list NodeRef) :
  precedes x y (z :: l) -> (x = z /\ In y l) \/ precedes x y l.
Proof.
  intros [l1 [l2 [l3 E]]]. destruct l1 as [|w l1]; simpl in E; injection E as -> ->.
  - left. split; [reflexivity|]. apply in_or_app. right. left. reflexivity.
  - right. exists l1, l2, l3. reflexivity.
Qed.

Lemma precedes_In (x y : NodeRef) (l : list NodeRef) :
  precedes x y l -> In x l /\ In y l.
Proof.
  intros [l1 [l2 [l3 ->]]]. split; apply in_or_app; right.
  - left. reflexivity.
  - right. apply in_or_app. right. left. reflexivity.
Qed.

Lemma insert_In (s : Tiles num) (z x : NodeRef) (l : list NodeRef) :
  In x (insert s z l) <-> x = z \/ In x l.
Proof.
  split; intros H.
  - apply (Permutation_in _ (insert_perm s z l)) in H.
    destruct H as [ <- | H]; [left; reflexivity | right; assumption].
  - apply (Permutation_in _ (Permutation_sym (insert_perm s z l))).
    destruct H as [-> | H]; [left; reflexivity | right; assumption].
Qed.

(** An insertion changes the order of no two tiles. *)
Lemma insert_keeps (s : Tiles num) (z x y : NodeRef) (l : list NodeRef) :
  precedes x y l -> precedes x y (insert s z l).
Proof.
  induction l as [|w l IH]; intros H; simpl.
  - destruct H as [l1 [l2 [l3 E]]]. destruct l1; discriminate.
  - destruct (0 <? compareF s w z); [apply precedes_cons; exact H|].
    apply precedes_inv in H. destruct H as [[-> Hy] | H].
    + apply precedes_head. apply insert_In. right. exact Hy.
    + apply precedes_cons. apply IH. exact H.
Qed.

(** A tile is inserted after those whose [f] is not greater. *)
Lemma insert_after (s : Tiles num) (z x : NodeRef) (l : list NodeRef) :
  good (f (s z)) -> (forall w, In w l -> good (f (s w))) ->
  ascending s l -> In x l -> lte (f (s x)) (f (s z)) ->
  precedes x z (insert s z l).
Proof.
  intros Gz. induction l as [|w l IH]; intros Gl Ha Hx Hle; [contradiction|]. simpl.
  unfold ascending in Ha. apply StronglySorted_inv in Ha. destruct Ha as [Hl Hw].
  assert (Gw : good (f (s w))) by (apply Gl; left; reflexivity).
  assert (Gx : good (f (s x))) by (apply Gl; exact Hx).
  destruct (0 <? compareF s w z) eqn:E.
  - exfalso. unfold compareF in E.
    destruct (eqb (f (s w)) (f (s z))); [discriminate|].
    destruct (gtb (f (s w)) (f (s z))) eqn:G; [|discriminate].
    assert (Hwx : lte (f (s w)) (f (s x))).
    { destruct Hx as [ <- | Hx]; [apply lte_refl; assumption|].
      rewrite Forall_forall in Hw. apply Hw, Hx. }
    pose proof (lte_trans _ _ _ Gw Gx Gz Hwx Hle) as Hwz.
    unfold lte in Hwz. congruence.
  - destruct Hx as [ <- | Hx].
    + apply precedes_head. apply insert_In. left. reflexivity.
    + apply precedes_cons. apply IH; try assumption.
      intros v Hv. apply Gl. right. exact Hv.
Qed.

Lemma sort_stable (s : Tiles num) (l : list NodeRef) :
  (forall z, In z l -> good (f (s z))) ->
  forall x y, precedes x y l -> lte (f (s x)) (f (s y)) -> precedes x y (sort s l).
Proof.
  unfold sort. intros Gl x y Hp Hle.
  assert (G : forall l acc,
              (forall z, In z l -> good (f (s z))) ->
              (forall z, In z acc -> good (f (s z))) ->
              ascending s acc ->
              precedes x y acc \/ (In x acc /\ In y l) \/ precedes x y l ->
              precedes x y (fold_left (fun acc x => insert s x acc) l acc)).
  { clear l Gl Hp. induction l as [|z l IH]; intros acc Gl Ga Ha H; simpl.
    - destruct H as [H | [[_ []] | H]]; [exact H|].
      destruct H as [l1 [l2 [l3 E]]]. destruct l1; discriminate.
    - assert (Gz : good (f (s z))) by (apply Gl; left; reflexivity).
      apply IH.
      + intros v Hv. apply Gl. right. exact Hv.
      + intros v Hv. apply insert_In in Hv.
        destruct Hv as [-> | Hv]; [exact Gz | apply Ga, Hv].
      + apply insert_ascending; assumption.
      + destruct H as [H | [[Hx Hy] | H]].
        * left. apply insert_keeps. exact H.
        * destruct Hy as [-> | Hy].
          -- left. apply insert_after; assumption.
          -- right. left. split; [apply insert_In; right; exact Hx | exact Hy].
        * apply precedes_inv in H. destruct H as [[-> Hy] | H].
          -- right. left. split; [apply insert_In; left; reflexivity | exact Hy].
          -- right. right. exact H. }
  apply G; [assumption | intros z [] | constructor | right; right; exact Hp].
Qed.

(** The sorted open list, for numbers with the order laws on their good
    ones: it holds the same tiles, in ascending order of [f], its first tile
    has the least [f], and a tile stays before another whose [f] is not
    less. *)
Lemma sorted_least_on :
  forall (s : Tiles num) (l : list NodeRef) (next : NodeRef) (rest : list NodeRef),
    (forall z, In z l -> good (f (s z))) ->
    sort s l = next :: rest ->
    Permutation (next :: rest) l /\
    ascending s (next :: rest) /\
    (forall y, In y l -> lte (f (s next)) (f (s y))) /\
    (forall x y, precedes x y l -> lte (f (s x)) (f (s y)) ->
                 precedes x y (next :: rest)).
Proof.
  intros s l next rest Gl E. split; [|split; [|split]].
  - rewrite <- E. apply sort_perm.
  - rewrite <- E. apply sort_ascending. exact Gl.
  - apply (sort_least s l next rest Gl E).
  - intros x y Hp Hle. rewrite <- E. apply sort_stable; assumption.
Qed.

End NextNode.

Section Binary64Further.

Import Float64 Binary64Facts.

(** X14: in binary64, on a grid that holds its start, with multipliers and
    heuristic values that are not negative (and not [NaN]), [findPath]
    returns a path once each loop is allowed one iteration per tile: neither
    loop runs on and no error is raised. *)
Theorem findPath_returns :
  forall (fuel : nat) (a : AStarTiles float) (grid : Grid2D float) (s t : NodeRef),
    startNode grid = Some s ->
    targetNode grid = Some t ->
    in_grid (numRows grid) (numCols grid) s ->
    (numCells (numRows grid) (numCols grid) <= fuel)%nat ->
    (forall x, nonneg (multiplier (tiles grid x))) ->
    (forall x, in_grid (numRows grid) (numCols grid) x \/ x = s ->
               nonneg (_heuristic a x t)) ->
    exists p, fst (fst (findPath fuel a grid)) = Path p.
Proof.
  intros fuel a grid s t Hs Ht Hg Hfuel Hm Hh.
  pose proof (search_terminates (_heuristic a) (numRows grid) (numCols grid) s t
                (nodes (entry a grid s t)) fuel Hg (entry a grid s t) s
                (Inv_init _ _ _ _)) as Hterm.
  destruct (search (_heuristic a) (numRows grid) (numCols grid) t fuel
                   (entry a grid s t) s) as [st | st |] eqn:Hf.
  - destruct (parent_chain_on nonneg nonneg_ordered fuel a grid s t st Hs Ht
                (fun x => conj (Hm x) (nonneg_lte_zero _ (Hm x))) Hh Hf)
      as [l [_ [_ [Hp _]]]].
    exists (rev l). exact Hp.
  - exists []. rewrite (findPath_set fuel a grid s t Hs Ht), Hf. reflexivity.
  - exfalso. apply Hterm; [simpl; lia | reflexivity].
Qed.

(** X8: in binary64, when no [f] on the open list is negative or [NaN],
    [sort] leaves the tiles of the open list in ascending order of [f], and
    a tile before every tile it stood before whose [f] is not less (the sort
    is stable); so the node [shift] takes for the next iteration has the
    least [f] of the open list. *)
Theorem next_node_has_least_f :
  forall (s : Tiles float) (l : list NodeRef) (next : NodeRef) (rest : list NodeRef),
    (forall z, In z l -> nonneg (f (s z))) ->
    sort s l = next :: rest ->
    Permutation (next :: rest) l /\
    ascending s (next :: rest) /\
    (forall y, In y l -> PrimFloat.leb (f (s next)) (f (s y)) = true) /\
    (forall x y, precedes x y l -> PrimFloat.leb (f (s x)) (f (s y)) = true ->
                 precedes x y (next :: rest)).
Proof.
  intros s l next rest Gl E.
  destruct (sorted_least_on (good := nonneg) float_eqb_not_gtb s l next rest Gl E)
    as [Hp [Ha [Hl Hst]]].
  split; [exact Hp|]. split; [exact Ha|]. split.
  - intros y Hy.
    assert (Hn : In next l).
    { apply (Permutation_in next Hp). left. reflexivity. }
    exact (proj1 (lte_leb _ _ (Gl next Hn) (Gl y Hy)) (Hl y Hy)).
  - intros x y Hxy Hle. apply Hst; [exact Hxy|].
    destruct (precedes_In x y l Hxy) as [Hx Hy].
    exact (proj2 (lte_leb _ _ (Gl x Hx) (Gl y Hy)) Hle).
Qed.

End Binary64Further.

(** ** The further properties on concrete grids *)

Module FurtherExamples.
Import Float64 Binary64Facts Grids Fixtures.

Ltac one_step :=
  split; [ unfold adjacent, in_grid, row, col; simpl; lia
         | split; [ reflexivity | intros _ _; split; reflexivity ] ].

(** On the 3 x 3 grid with the two hazards the path begins with the start,
    ends with the target and repeats no tile. *)
Lemma path_from_start_to_target_witness :
  let p := [(2, 2); (1, 2); (0, 1); (0, 0)] in
  hd_error p = Some (2, 2) /\ last p (2, 2) = (0, 0) /\ NoDup p.
Proof.
  cbv zeta.
  destruct (path_from_start_to_target 9 Float64.new_AStarTiles
              (grid_hazard 0.5%float 2%float) (2, 2) (0, 0)
              [(2, 2); (1, 2); (0, 1); (0, 0)]) as (H1 & H2 & H3 & _).
  - reflexivity.
  - reflexivity.
  - vm_compute. reflexivity.
  - discriminate.
  - split; [exact H1|]. split; [exact H2 | exact H3].
Defined.

(** The diagonal across the open 2 x 2 grid is one step of the movement
    rule. *)
Lemma path_moves_to_neighbours_witness :
  step (tiles (@grid_open float _)) 2 2 (0, 0) (1, 1).
Proof.
  refine (path_moves_to_neighbours 4 Float64.new_AStarTiles grid_open [(0, 0); (1, 1)]
            _ (0, 0) (1, 1) _).
  - vm_compute. reflexivity.
  - exists [], []. reflexivity.
Defined.

(** On the open 2 x 2 grid the main loop stops on the opposite corner. *)
Lemma reachable_target_is_found_witness :
  exists st,
    search Float64.__diagonal 2 2 (1, 1) 4
           (entry Float64.new_AStarTiles grid_open (0, 0) (1, 1)) (0, 0) = Found st.
Proof.
  refine (proj2 (reachable_target_is_found 4 Float64.new_AStarTiles grid_open
                   (0, 0) (1, 1) _ _ _ _) _ _).
  - reflexivity.
  - reflexivity.
  - reflexivity.
  - apply (connected_step _ _ (0, 0) (1, 1)); [constructor|]. one_step.
  - unfold in_grid; simpl; lia.
  - vm_compute. lia.
Defined.

(** On the walled row the search ends with the open list empty and the
    start, which no step leaves, closed. *)
Lemma no_path_explores_all_witness :
  _openList (snd (fst (findPath 3 Float64.new_AStarTiles grid_walled))) = [] /\
  connected (step (tiles (@grid_walled float _)) 1 3) (0, 0) (0, 0).
Proof.
  destruct (no_path_explores_all 3 Float64.new_AStarTiles grid_walled (0, 0))
    as [Ho Hc].
  - reflexivity.
  - reflexivity.
  - vm_compute. reflexivity.
  - split; [exact Ho|]. apply Hc. vm_compute. left. reflexivity.
Defined.

(** A fresh finder on the fresh row and a used finder on the row with
    stale search fields return the same path. *)
Lemma findPath_ignores_search_fields_witness :
  fst (fst (findPath 3 Float64.new_AStarTiles grid_row))
  = fst (fst (findPath 3 finder_stale grid_stale)).
Proof.
  refine (proj1 (findPath_ignores_search_fields 3 Float64.new_AStarTiles finder_stale
                   grid_row grid_stale _ _ _ _ _ _)).
  - reflexivity.
  - reflexivity.
  - reflexivity.
  - reflexivity.
  - reflexivity.
  - intros x. split; reflexivity.
Defined.

(** On the 3 x 3 grid with the two hazards the call returns a path. *)
Lemma findPath_returns_witness :
  exists p, fst (fst (findPath 9 Float64.new_AStarTiles (grid_hazard 0.5%float 2%float)))
            = Path p.
Proof.
  apply (findPath_returns 9 Float64.new_AStarTiles (grid_hazard 0.5%float 2%float)
           (2, 2) (0, 0)).
  - reflexivity.
  - reflexivity.
  - unfold in_grid; simpl; lia.
  - vm_compute. lia.
  - intros x. cbv [grid_hazard hazard setTile openGrid withTiles tiles multiplier newTile].
    repeat match goal with |- context [ref_eqb ?a ?b] => destruct (ref_eqb a b) end;
      reflexivity.
  - intros x Hx. apply Examples.diagonal_nonneg.
    + destruct Hx as [Hx | ->]; unfold in_grid in *; simpl in *; lia.
    + unfold in_grid; simpl; lia.
Defined.

(** Of three tiles with [f] 3, 1 and 2 the one with [f = 1] comes first. *)
Lemma next_node_has_least_f_witness :
  PrimFloat.leb (f (tiles_f (0, 1))) (f (tiles_f (0, 0))) = true.
Proof.
  refine (proj1 (proj2 (proj2 (next_node_has_least_f tiles_f
                   [(0, 0); (0, 1); (0, 2)] (0, 1) [(0, 2); (0, 0)] _ _))) (0, 0) _).
  - intros z _. unfold tiles_f. simpl.
    destruct (col z =? 0); [reflexivity|]. destruct (col z =? 1); reflexivity.
  - vm_compute. reflexivity.
  - left. reflexivity.
Defined.

End FurtherExamples.
